(** * flassh: the credential vault and the realtime relay

    A shallow embedding of the two backend services of flassh,

    - [CredentialStore] (services/credential-store): AES-256-GCM protected
      storage of SSH credentials plus the list of saved connections, and
    - [WebSocketHandler] (services/websocket-handler): the relay between
      browser sockets and SSH shell channels,

    followed by the properties of these services that the design document
    states.  The stateful methods are written in a small state monad over
    a record of everything the service can touch (its two maps, the files
    it writes, the console, the entropy and clock it reads). *)

From Stdlib Require Import Strings.Ascii Strings.Byte ZArith.
From stdpp Require Import gmap strings list fin_maps.

Local Open Scope string_scope.
Local Open Scope list_scope.

(** ** Node buffers and their hex encoding *)

Module Hex.

(** A [Buffer] is a sequence of bytes. *)
Definition Buffer := list byte.

Definition digit (n : N) : ascii :=
  match n with
  | 0 => "0" | 1 => "1" | 2 => "2" | 3 => "3" | 4 => "4"
  | 5 => "5" | 6 => "6" | 7 => "7" | 8 => "8" | 9 => "9"
  | 10 => "a" | 11 => "b" | 12 => "c" | 13 => "d" | 14 => "e"
  | _ => "f"
  end%N%char.

(** Value of one hex digit; Node accepts both cases when decoding. *)
Definition value (c : ascii) : option N :=
  let n := N_of_ascii c in
  if ((48 <=? n) && (n <=? 57))%N then Some (n - 48)%N
  else if ((97 <=? n) && (n <=? 102))%N then Some (n - 87)%N
  else if ((65 <=? n) && (n <=? 70))%N then Some (n - 55)%N
  else None.

Definition ofByte (b : byte) (rest : string) : string :=
  let n := Byte.to_N b in
  String (digit (n / 16)) (String (digit (n mod 16)) rest).

(** [buf.toString('hex')] *)
Definition toString (buf : Buffer) : string :=
  foldr ofByte EmptyString buf.

(** [Buffer.from(s, 'hex')]: pairs of hex digits are decoded until the
    first pair that is not hex; a dangling last digit is dropped. *)
Fixpoint from (s : string) : Buffer :=
  match s with
  | String h (String l rest) =>
      match value h, value l with
      | Some x, Some y =>
          match Byte.of_N (16 * x + y) with
          | Some b => b :: from rest
          | None => []
          end
      | _, _ => []
      end
  | _ => []
  end.

End Hex.

(** ** The fragments of JavaScript the services rely on *)

Module Js.

(** Truthiness of a string: only the empty string is falsy. *)
Definition truthy (s : string) : bool :=
  match s with EmptyString => false | String _ _ => true end.

(** Truthiness of an optional string property ([undefined] is falsy). *)
Definition present (o : option string) : bool :=
  match o with Some s => truthy s | None => false end.

(** [s.split(sep)] for a one-character separator. *)
Fixpoint split (sep : ascii) (s : string) : list string :=
  match s with
  | EmptyString => [EmptyString]
  | String c rest =>
      if Ascii.eqb c sep then EmptyString :: split sep rest
      else match split sep rest with
           | piece :: pieces => String c piece :: pieces
           | [] => [String c EmptyString]
           end
  end.

(** *** Strings and UTF-8

    A JavaScript string is a sequence of UTF-16 code units.  The model
    writes it as bytes in generalized UTF-8: every code point as UTF-8
    has it, a surrogate pair as the one code point it stands for, and an
    unpaired surrogate, which UTF-8 excludes, as the three bytes
    [ED A0..BF 80..BF] its value would take.  Everything the services do
    to a string but encode it for the cipher (compare, split at [':'],
    test for emptiness, concatenate around ASCII) reads the same on this
    writing. *)

Definition between (lo hi : N) (b : byte) : bool :=
  ((lo <=? Byte.to_N b) && (Byte.to_N b <=? hi))%N.

(** A continuation byte, [10xxxxxx]. *)
Definition continuation : byte -> bool := between 128 191.

(** The second byte that may follow the lead byte [b] of a sequence of
    three bytes: [E0] excludes the overlong forms, [ED] the
    surrogates. *)
Definition second3 (b c : byte) : bool :=
  between (if between 224 224 b then 160 else 128)
          (if between 237 237 b then 159 else 191) c.

(** The same for a sequence of four bytes: [F0] excludes the overlong
    forms, [F4] what lies beyond U+10FFFF. *)
Definition second4 (b c : byte) : bool :=
  between (if between 240 240 b then 144 else 128)
          (if between 244 244 b then 143 else 191) c.

(** U+FFFD in UTF-8. *)
Definition replacement : list byte := [xef; xbf; xbd].

(** The UTF-8 of a string: an unpaired surrogate becomes U+FFFD. *)
Fixpoint scrub (bs : list byte) : list byte :=
  match bs with
  | [] => []
  | b :: rest =>
      match rest with
      | c :: d :: rest' =>
          if between 237 237 b && between 160 191 c && continuation d
          then replacement ++ scrub rest'
          else b :: scrub rest
      | _ => b :: scrub rest
      end
  end.

(** The string that bytes decode to as UTF-8: well-formed sequences are
    kept, and U+FFFD stands for each maximal ill-formed run, as the
    decoder of the platform places it. *)
Fixpoint sanitize (bs : list byte) : list byte :=
  match bs with
  | [] => []
  | b :: rest =>
      if between 0 127 b then b :: sanitize rest
      else if between 194 223 b then
        match rest with
        | c :: rest1 =>
            if continuation c then b :: c :: sanitize rest1
            else replacement ++ sanitize rest
        | [] => replacement
        end
      else if between 224 239 b then
        match rest with
        | c :: rest1 =>
            if second3 b c then
              match rest1 with
              | d :: rest2 =>
                  if continuation d then b :: c :: d :: sanitize rest2
                  else replacement ++ sanitize rest1
              | [] => replacement
              end
            else replacement ++ sanitize rest
        | [] => replacement
        end
      else if between 240 244 b then
        match rest with
        | c :: rest1 =>
            if second4 b c then
              match rest1 with
              | d :: rest2 =>
                  if continuation d then
                    match rest2 with
                    | e :: rest3 =>
                        if continuation e
                        then b :: c :: d :: e :: sanitize rest3
                        else replacement ++ sanitize rest2
                    | [] => replacement
                    end
                  else replacement ++ sanitize rest1
              | [] => replacement
              end
            else replacement ++ sanitize rest
        | [] => replacement
        end
      else replacement ++ sanitize rest
  end.

(** Well-formed UTF-8. *)
Fixpoint valid (bs : list byte) : bool :=
  match bs with
  | [] => true
  | b :: rest =>
      if between 0 127 b then valid rest
      else if between 194 223 b then
        match rest with
        | c :: rest1 => continuation c && valid rest1
        | [] => false
        end
      else if between 224 239 b then
        match rest with
        | c :: d :: rest2 => second3 b c && continuation d && valid rest2
        | _ => false
        end
      else if between 240 244 b then
        match rest with
        | c :: d :: e :: rest3 =>
            second4 b c && continuation d && continuation e && valid rest3
        | _ => false
        end
      else false
  end.

(** [Buffer.from(s, 'utf8')], and what [cipher.update(s, 'utf8', ...)]
    feeds the cipher. *)
Definition utf8Encode (s : string) : Hex.Buffer :=
  scrub (String.list_byte_of_string s).

(** [buf.toString('utf8')], and what [decipher.update(..., 'utf8')]
    followed by [decipher.final('utf8')] returns. *)
Definition utf8Decode (b : Hex.Buffer) : string :=
  String.string_of_list_byte (sanitize b).

(** [s.isWellFormed()]: no unpaired surrogate. *)
Definition isWellFormed (s : string) : bool :=
  valid (String.list_byte_of_string s).

(** [s.toWellFormed()], which is what comes back from a trip through
    UTF-8. *)
Definition toWellFormed (s : string) : string := utf8Decode (utf8Encode s).

(** *** Numbers

    What a property declared [number] holds at run time: a finite
    number, one of the three values JSON cannot write, or the [null]
    that a trip through JSON puts in their place.  A finite number is
    modelled by an integer; the services copy a number, test it against
    zero and serialise it, and in these a fraction does what a non-zero
    integer does. *)
Inductive Num := Finite (z : Z) | NaN | Infinity | NegInfinity | Null.

(** Truthiness of a number: zero, [NaN] and [null] are falsy. *)
Definition truthyNum (n : Num) : bool :=
  match n with
  | Finite z => negb (z =? 0)%Z
  | Infinity | NegInfinity => true
  | NaN | Null => false
  end.

(** [JSON.parse(JSON.stringify(n))] *)
Definition jsonNum (n : Num) : Num :=
  match n with
  | Finite z => Finite z
  | _ => Null
  end.

End Js.

Bind Scope Z_scope with Js.Num.
Coercion Js.Finite : Z >-> Js.Num.

(** [JSON.parse(JSON.stringify(x))] for the records the services keep in
    files and send in answers. *)
Class Json (A : Type) := reparse : A -> A.

(** ** [Map<string, V>]: a map that remembers insertion order *)

Module JsMap.

Section Ops.
Context {V : Type}.

Definition t := list (string * V).

Definition empty : t := [].

Fixpoint get (k : string) (m : t) : option V :=
  match m with
  | [] => None
  | (k', v) :: m' => if String.eqb k k' then Some v else get k m'
  end.

Definition has (k : string) (m : t) : bool :=
  match get k m with Some _ => true | None => false end.

(** [m.set(k, v)]: an existing key keeps its place, a new key goes
    to the end. *)
Fixpoint set (k : string) (v : V) (m : t) : t :=
  match m with
  | [] => [(k, v)]
  | (k', v') :: m' =>
      if String.eqb k k' then (k, v) :: m' else (k', v') :: set k v m'
  end.

(** [m.delete(k)]: the new map and whether the key was there. *)
Fixpoint remove (k : string) (m : t) : t :=
  match m with
  | [] => []
  | (k', v') :: m' =>
      if String.eqb k k' then remove k m' else (k', v') :: remove k m'
  end.

Definition delete (k : string) (m : t) : t * bool := (remove k m, has k m).

(** [Array.from(m.values())], [Array.from(m.entries())] *)
Definition values (m : t) : list V := map snd m.
Definition entries (m : t) : list (string * V) := m.
Definition keys (m : t) : list string := map fst m.

(** [new Map(entries)] *)
Definition ofEntries (es : list (string * V)) : t :=
  fold_left (fun m e => set (fst e) (snd e) m) es empty.

End Ops.

Arguments t : clear implicits.

End JsMap.

(** ** The credential store *)

Module Vault.

(** [authType: 'password' | 'key'] *)
Inductive AuthType := Password | Key.

Module StoredCredential.
Record t := mk {
  id : string;
  host : string;
  port : Js.Num;
  username : string;
  authType : AuthType;
  encryptedPassword : option string;
  encryptedPrivateKey : option string;
  encryptedPassphrase : option string;
  iv : string;
  createdAt : string;
  lastUsedAt : string }.

(** [credential.lastUsedAt = now] *)
Definition setLastUsedAt (now : string) (c : t) : t :=
  mk (id c) (host c) (port c) (username c) (authType c)
     (encryptedPassword c) (encryptedPrivateKey c) (encryptedPassphrase c)
     (iv c) (createdAt c) now.

#[global] Instance json : Json t := fun c =>
  mk (id c) (host c) (Js.jsonNum (port c)) (username c) (authType c)
     (encryptedPassword c) (encryptedPrivateKey c) (encryptedPassphrase c)
     (iv c) (createdAt c) (lastUsedAt c).
End StoredCredential.

(** A saved connection.  The properties that [updateConnection] may
    be told to change can come to hold [undefined], which is [None]
    here; the id and the creation time are strings. *)
Module SavedConnectionInfo.
Record t := mk {
  id : string;
  name : option string;
  host : option string;
  port : option Js.Num;
  username : option string;
  authType : option AuthType;
  hasStoredCredentials : option bool;
  createdAt : string;
  lastUsedAt : option string }.

#[global] Instance json : Json t := fun c =>
  mk (id c) (name c) (host c) (Js.jsonNum <$> port c) (username c)
     (authType c) (hasStoredCredentials c) (createdAt c) (lastUsedAt c).
End SavedConnectionInfo.

(** The second argument of [updateConnection], as [Object.assign] sees
    it: the own properties the object has.  The declared type,
    [Partial<Omit<SavedConnectionInfo, 'id' | 'createdAt'>>], is what
    the compiler checks at a typed call and lets a property be given as
    [undefined] (the inner [None]); the route hands over a request
    body, which nothing checks and which may carry an [id] and a
    [createdAt] as well.  A property that is there has a value of the
    type [SavedConnectionInfo] declares for it. *)
Module Updates.
Record t := mk {
  name : option (option string);
  host : option (option string);
  port : option (option Js.Num);
  username : option (option string);
  authType : option (option AuthType);
  hasStoredCredentials : option (option bool);
  lastUsedAt : option (option string);
  id : option string;
  createdAt : option string }.

(** An update that names nothing. *)
Definition none : t := mk None None None None None None None None None.
End Updates.

(** The argument of [save]. *)
Module Config.
Record t := mk {
  host : string;
  port : Js.Num;
  username : string;
  authType : AuthType;
  password : option string;
  privateKey : option string;
  passphrase : option string }.
End Config.

(** The result of [get]. *)
Module Credential.
Record t := mk {
  host : string;
  port : Js.Num;
  username : string;
  authType : AuthType;
  password : option string;
  privateKey : option string;
  passphrase : option string }.

#[global] Instance json : Json t := fun c =>
  mk (host c) (Js.jsonNum (port c)) (username c) (authType c)
     (password c) (privateKey c) (passphrase c).
End Credential.

(** The cipher of Node's [crypto] module, 'aes-256-gcm', under a key of
    32 bytes.  [gcmSeal key iv text] is what a cipher object made by
    [createCipheriv] returns from [update]/[final] and [getAuthTag];
    [gcmOpen key iv data tag] is what a decipher object returns from
    [update]/[final] after the optional [setAuthTag], with [None] when
    any of its calls throws.  Under a key of another length
    [createCipheriv] and [createDecipheriv] throw; [encrypt] and
    [decrypt] below check the length before they turn to the cipher. *)
Record Aead := {
  gcmSeal : Hex.Buffer -> Hex.Buffer -> Hex.Buffer -> Hex.Buffer * Hex.Buffer;
  gcmOpen : Hex.Buffer -> Hex.Buffer -> Hex.Buffer -> option Hex.Buffer ->
            option Hex.Buffer }.

(** What the process reads from its surroundings: the cipher, the
    key the constructor settled on, the successive results of
    [crypto.randomBytes(16)] and of [new Date().toISOString()]. *)
Record Env := {
  cipher : Aead;
  encryptionKey : Hex.Buffer;
  randomBytes : nat -> Hex.Buffer;
  dateNow : nat -> string }.

(** A JSON file: missing, there but failing to be read or parsed, or
    what [JSON.stringify(Array.from(map.entries()))] wrote for the
    entries.  Reading it back parses the text, which is [reparse] of
    each record. *)
Inductive File (A : Type) :=
| Missing
| Unreadable
| Contents (entries : list (string * A)).
Arguments Missing {A}.
Arguments Unreadable {A}.
Arguments Contents {A} entries.

Record Store := mkStore {
  credentials : JsMap.t StoredCredential.t;
  connections : JsMap.t SavedConnectionInfo.t;
  credentialsFile : File StoredCredential.t;
  connectionsFile : File SavedConnectionInfo.t;
  fsWritable : bool;
  console : list string;
  rngCalls : nat;
  dateCalls : nat }.

Definition setCredentials (m : JsMap.t StoredCredential.t) (s : Store) :=
  mkStore m (connections s) (credentialsFile s) (connectionsFile s)
          (fsWritable s) (console s) (rngCalls s) (dateCalls s).
Definition setConnections (m : JsMap.t SavedConnectionInfo.t) (s : Store) :=
  mkStore (credentials s) m (credentialsFile s) (connectionsFile s)
          (fsWritable s) (console s) (rngCalls s) (dateCalls s).
Definition setCredentialsFile (f : File StoredCredential.t) (s : Store) :=
  mkStore (credentials s) (connections s) f (connectionsFile s)
          (fsWritable s) (console s) (rngCalls s) (dateCalls s).
Definition setConnectionsFile (f : File SavedConnectionInfo.t) (s : Store) :=
  mkStore (credentials s) (connections s) (credentialsFile s) f
          (fsWritable s) (console s) (rngCalls s) (dateCalls s).
Definition setConsole (l : list string) (s : Store) :=
  mkStore (credentials s) (connections s) (credentialsFile s)
          (connectionsFile s) (fsWritable s) l (rngCalls s) (dateCalls s).
Definition setRngCalls (n : nat) (s : Store) :=
  mkStore (credentials s) (connections s) (credentialsFile s)
          (connectionsFile s) (fsWritable s) (console s) n (dateCalls s).
Definition setDateCalls (n : nat) (s : Store) :=
  mkStore (credentials s) (connections s) (credentialsFile s)
          (connectionsFile s) (fsWritable s) (console s) (rngCalls s) n.

(** *** The state monad of the store's methods *)

Definition M (A : Type) : Type := Store -> A * Store.

#[export] Instance M_ret : MRet M := fun A a s => (a, s).

#[export] Instance M_bind : MBind M :=
  fun A B k m s => let (a, s') := m s in k a s'.

Definition gets {A} (f : Store -> A) : M A := fun s => (f s, s).
Definition modify (f : Store -> Store) : M unit := fun s => (tt, f s).

Definition consoleLog (msg : string) : M unit :=
  modify (fun s => setConsole (console s ++ [msg]) s).

(** How a call that may throw ends. *)
Inductive Outcome (A : Type) :=
| Returned (a : A)
| Thrown.
Arguments Returned {A} a.
Arguments Thrown {A}.

(** [new Map(JSON.parse(text))] for the text of a file. *)
Definition parsed {A} `{Json A} (entries : list (string * A)) : JsMap.t A :=
  JsMap.ofEntries (prod_map id reparse <$> entries).

(** [for (const x of xs) body], threading a local variable. *)
Fixpoint forOf {A B} (xs : list A) (body : A -> B -> M B) (b : B) : M B :=
  match xs with
  | [] => mret b
  | x :: xs' => b' ← body x b; forOf xs' body b'
  end.

Section Methods.
Variable env : Env.

(** [crypto.randomBytes(16)] *)
Definition randomBytes16 : M Hex.Buffer :=
  fun s => (randomBytes env (rngCalls s), setRngCalls (S (rngCalls s)) s).

(** [new Date().toISOString()] *)
Definition newDate : M string :=
  fun s => (dateNow env (dateCalls s), setDateCalls (S (dateCalls s)) s).

Record Sealed := { encrypted : string; ivHex : string; tag : string }.

(** [createCipheriv] and [createDecipheriv] take a key of 32 bytes. *)
Definition keyFits : bool := (length (encryptionKey env) =? 32)%nat.

(** [encrypt]: the vector is drawn first; [createCipheriv] then throws
    on a key of the wrong length. *)
Definition encrypt (text : string) : M (Outcome Sealed) :=
  iv ← randomBytes16;
  if keyFits then
    let (data, authTag) :=
      gcmSeal (cipher env) (encryptionKey env) iv (Js.utf8Encode text) in
    mret (Returned {| encrypted := Hex.toString data;
                      ivHex := Hex.toString iv;
                      tag := Hex.toString authTag |})
  else mret Thrown.

(** [None] stands for an exception thrown by [createDecipheriv] or by
    the decipher. *)
Definition decrypt (encrypted ivHex : string) (tagHex : option string)
  : option string :=
  let iv := Hex.from ivHex in
  let authTag :=
    match tagHex with
    | Some t => if Js.truthy t then Some (Hex.from t) else None
    | None => None
    end in
  if keyFits then
    Js.utf8Decode <$>
      gcmOpen (cipher env) (encryptionKey env) iv (Hex.from encrypted) authTag
  else None.

(** [persist]: the write is attempted inside [try]; a failure is
    only reported on the console. *)
Definition persist : M unit :=
  fun s =>
    if fsWritable s
    then (tt, setCredentialsFile (Contents (JsMap.entries (credentials s))) s)
    else consoleLog "Failed to persist credentials:" s.

Definition persistConnections : M unit :=
  fun s =>
    if fsWritable s
    then (tt, setConnectionsFile (Contents (JsMap.entries (connections s))) s)
    else consoleLog "Failed to persist connections:" s.

(** One secret of [save]: [if (config.f) { ... `${iv}:${encrypted}:${tag}` }] *)
Definition encryptField (field : option string) : M (Outcome (option string)) :=
  match field with
  | Some text =>
      if Js.truthy text then
        sealed ← encrypt text;
        match sealed with
        | Returned e =>
            mret (Returned
                    (Some (ivHex e +:+ ":" +:+ encrypted e +:+ ":" +:+ tag e)))
        | Thrown => mret Thrown
        end
      else mret (Returned None)
  | None => mret (Returned None)
  end.

(** [save]; an exception of [encrypt] leaves it before the
    credential is put into the map. *)
Definition save (id : string) (config : Config.t) : M (Outcome unit) :=
  created ← newDate;
  used ← newDate;
  password ← encryptField (Config.password config);
  match password with
  | Thrown => mret Thrown
  | Returned encryptedPassword =>
      privateKey ← encryptField (Config.privateKey config);
      match privateKey with
      | Thrown => mret Thrown
      | Returned encryptedPrivateKey =>
          passphrase ← encryptField (Config.passphrase config);
          match passphrase with
          | Thrown => mret Thrown
          | Returned encryptedPassphrase =>
              let credential :=
                StoredCredential.mk id (Config.host config) (Config.port config)
                  (Config.username config) (Config.authType config)
                  encryptedPassword encryptedPrivateKey encryptedPassphrase
                  "" created used in
              modify (fun s =>
                setCredentials (JsMap.set id credential (credentials s)) s) ;;
              persist ;;
              mret (Returned tt)
          end
      end
  end.

(** One stored secret of [get]: the new format [iv:encrypted:tag], or
    the old one [encrypted:tag] under the credential's own [iv]. *)
Definition decryptBlob (credentialIv blob : string) : option string :=
  match Js.split ":" blob with
  | [iv; encrypted; tag] => decrypt encrypted iv (Some tag)
  | encrypted :: rest => decrypt encrypted credentialIv (head rest)
  | [] => None
  end.

(** [if (credential.f) { result.f = ... }]; the outer [None] is an
    exception, the inner one a property left unset. *)
Definition decryptField (credentialIv : string) (field : option string)
  : option (option string) :=
  match field with
  | Some blob =>
      if Js.truthy blob then Some <$> decryptBlob credentialIv blob
      else Some None
  | None => Some None
  end.

(** The body of the [try] block of [get]. *)
Definition decryptAll (c : StoredCredential.t) : option Credential.t :=
  password ← decryptField (StoredCredential.iv c)
               (StoredCredential.encryptedPassword c);
  privateKey ← decryptField (StoredCredential.iv c)
                 (StoredCredential.encryptedPrivateKey c);
  passphrase ← decryptField (StoredCredential.iv c)
                 (StoredCredential.encryptedPassphrase c);
  Some (Credential.mk (StoredCredential.host c) (StoredCredential.port c)
          (StoredCredential.username c) (StoredCredential.authType c)
          password privateKey passphrase).

Definition get (id : string) : M (option Credential.t) :=
  found ← gets (fun s => JsMap.get id (credentials s));
  match found with
  | None => mret None
  | Some credential =>
      now ← newDate;
      modify (fun s =>
        setCredentials
          (JsMap.set id (StoredCredential.setLastUsedAt now credential)
             (credentials s)) s) ;;
      persist ;;
      match decryptAll credential with
      | Some result => mret (Some result)
      | None => consoleLog "Failed to decrypt credential:" ;; mret None
      end
  end.

Definition has (id : string) : M bool :=
  gets (fun s => JsMap.has id (credentials s)).

Definition delete (id : string) : M bool :=
  result ← (fun s =>
    let (m, existed) := JsMap.delete id (credentials s) in
    (existed, setCredentials m s)) : M bool;
  (if result : bool then persist else mret tt) ;;
  mret result.

Record ListEntry := {
  le_id : string; le_host : string; le_username : string;
  le_authType : AuthType; le_lastUsedAt : string }.

(** [list()] *)
Definition list_ : M (list ListEntry) :=
  gets (fun s =>
    map (fun c => {| le_id := StoredCredential.id c;
                     le_host := StoredCredential.host c;
                     le_username := StoredCredential.username c;
                     le_authType := StoredCredential.authType c;
                     le_lastUsedAt := StoredCredential.lastUsedAt c |})
        (JsMap.values (credentials s))).

Definition load : M unit :=
  fun s =>
    match credentialsFile s with
    | Missing => (tt, s)
    | Unreadable => consoleLog "Failed to load credentials:" s
    | Contents entries => (tt, setCredentials (parsed entries) s)
    end.

(** *** The list of connections *)

Definition saveConnection (connection : SavedConnectionInfo.t) : M unit :=
  modify (fun s =>
    setConnections
      (JsMap.set (SavedConnectionInfo.id connection) connection
         (connections s)) s) ;;
  persistConnections.

Definition getConnections : M (list SavedConnectionInfo.t) :=
  gets (fun s => JsMap.values (connections s)).

Definition getConnection (id : string) : M (option SavedConnectionInfo.t) :=
  gets (fun s => JsMap.get id (connections s)).

(** [Object.assign(connection, updates)]: every property that
    [updates] has is copied, whatever its name and also when its value
    is [undefined]. *)
Definition assign (c : SavedConnectionInfo.t) (u : Updates.t)
  : SavedConnectionInfo.t :=
  SavedConnectionInfo.mk
    (default (SavedConnectionInfo.id c) (Updates.id u))
    (default (SavedConnectionInfo.name c) (Updates.name u))
    (default (SavedConnectionInfo.host c) (Updates.host u))
    (default (SavedConnectionInfo.port c) (Updates.port u))
    (default (SavedConnectionInfo.username c) (Updates.username u))
    (default (SavedConnectionInfo.authType c) (Updates.authType u))
    (default (SavedConnectionInfo.hasStoredCredentials c)
       (Updates.hasStoredCredentials u))
    (default (SavedConnectionInfo.createdAt c) (Updates.createdAt u))
    (default (SavedConnectionInfo.lastUsedAt c) (Updates.lastUsedAt u)).

Definition updateConnection (id : string) (updates : Updates.t) : M bool :=
  found ← gets (fun s => JsMap.get id (connections s));
  match found with
  | None => mret false
  | Some connection =>
      modify (fun s =>
        setConnections
          (JsMap.set id (assign connection updates) (connections s)) s) ;;
      persistConnections ;;
      mret true
  end.

Definition deleteConnection (id : string) : M bool :=
  result ← (fun s =>
    let (m, existed) := JsMap.delete id (connections s) in
    (existed, setConnections m s)) : M bool;
  (if result : bool then (delete id ;; persistConnections) else mret tt) ;;
  mret result.

(** The connection made up for a credential that has none. *)
Definition synthesized (id : string) (credential : StoredCredential.t)
  : SavedConnectionInfo.t :=
  SavedConnectionInfo.mk id
    (Some (StoredCredential.username credential +:+ "@" +:+
           StoredCredential.host credential))
    (Some (StoredCredential.host credential))
    (Some (StoredCredential.port credential))
    (Some (StoredCredential.username credential))
    (Some (StoredCredential.authType credential))
    (Some true)
    (StoredCredential.createdAt credential)
    (Some (StoredCredential.lastUsedAt credential)).

(** The body of the loop of [migrateFromCredentials]. *)
Definition migrateOne (entry : string * StoredCredential.t) (migrated : bool)
  : M bool :=
  let (id, credential) := entry in
  known ← gets (fun s => JsMap.has id (connections s));
  if known : bool then mret migrated
  else
    let connection := synthesized id credential in
    modify (fun s =>
      setConnections (JsMap.set id connection (connections s)) s) ;;
    consoleLog ("Migrated connection: " +:+
                default "undefined" (SavedConnectionInfo.name connection)) ;;
    mret true.

Definition migrateFromCredentials : M unit :=
  entries ← gets (fun s => JsMap.entries (credentials s));
  migrated ← forOf entries migrateOne false;
  if migrated : bool then persistConnections else mret tt.

Definition loadConnections : M unit :=
  (fun s =>
     match connectionsFile s with
     | Missing => (tt, s)
     | Unreadable => consoleLog "Failed to load connections:" s
     | Contents entries => (tt, setConnections (parsed entries) s)
     end) ;;
  migrateFromCredentials.

(** The part of the constructor that follows the choice of the key. *)
Definition construct : M unit :=
  load ;; loadConnections.

End Methods.

(** *** The store as its callers drive it *)

Inductive Call :=
| Save (id : string) (config : Config.t)
| Get (id : string)
| Has (id : string)
| Delete (id : string)
| List
| SaveConnection (connection : SavedConnectionInfo.t)
| GetConnections
| GetConnection (id : string)
| UpdateConnection (id : string) (updates : Updates.t)
| DeleteConnection (id : string).

(** The store after one call. *)
Definition call (env : Env) (c : Call) (s : Store) : Store :=
  match c with
  | Save id config => (save env id config s).2
  | Get id => (get env id s).2
  | Has id => (has id s).2
  | Delete id => (delete id s).2
  | List => (list_ s).2
  | SaveConnection connection => (saveConnection connection s).2
  | GetConnections => (getConnections s).2
  | GetConnection id => (getConnection id s).2
  | UpdateConnection id updates => (updateConnection id updates s).2
  | DeleteConnection id => (deleteConnection id s).2
  end.

Definition calls (env : Env) (cs : list Call) (s : Store) : Store :=
  fold_left (fun s c => call env c s) cs s.

(** The store object before its constructor has loaded anything. *)
Definition fresh (credentialsFile : File StoredCredential.t)
    (connectionsFile : File SavedConnectionInfo.t) (fsWritable : bool)
  : Store :=
  mkStore JsMap.empty JsMap.empty credentialsFile connectionsFile
          fsWritable [] 0 0.

End Vault.

(** ** A small cipher to run the store on

    An executable stand-in with the interface of [Vault.Aead]: the data is
    the text reversed and the tag is a 16-byte digest of data, vector and
    key that [gcmOpen] checks.  It is used to evaluate the store on
    concrete inputs. *)

Module Toy.

Fixpoint bufferEqb (a b : Hex.Buffer) : bool :=
  match a, b with
  | [], [] => true
  | x :: a', y :: b' => Byte.eqb x y && bufferEqb a' b'
  | _, _ => false
  end.

Definition tagOf (key iv data : Hex.Buffer) : Hex.Buffer :=
  take 16 (data ++ iv ++ key ++ replicate 16 x00).

Definition seal (key iv text : Hex.Buffer) : Hex.Buffer * Hex.Buffer :=
  let data := rev text in (data, tagOf key iv data).

Definition open (key iv data : Hex.Buffer) (tag : option Hex.Buffer)
  : option Hex.Buffer :=
  match tag with
  | Some t => if bufferEqb t (tagOf key iv data) then Some (rev data) else None
  | None => None
  end.

Definition aead : Vault.Aead :=
  {| Vault.gcmSeal := seal; Vault.gcmOpen := open |}.

(** The [n]-th block of entropy: fifteen zero bytes and [n] modulo 256. *)
Definition entropy (n : nat) : Hex.Buffer :=
  replicate 15 x00 ++ [default x00 (Byte.of_N (N.of_nat n mod 256))].

(** The [n]-th reading of the clock. *)
Definition clock (n : nat) : string :=
  "2024-01-01T00:00:0" +:+ String (Hex.digit (N.of_nat n mod 10)) "Z".

Definition env : Vault.Env :=
  {| Vault.cipher := aead;
     Vault.encryptionKey := replicate 32 x2a;
     Vault.randomBytes := entropy;
     Vault.dateNow := clock |}.

Definition empty : Vault.Store := Vault.fresh Vault.Missing Vault.Missing true.

Definition config (password privateKey passphrase : option string)
  : Vault.Config.t :=
  Vault.Config.mk "example.org" 22 "root" Vault.Password
    password privateKey passphrase.

(** The word café in UTF-8; a string with an unpaired surrogate: the
    letter a, U+D800 and the letter b; and the same with U+FFFD in the
    place of the surrogate. *)
Definition accented : string :=
  String "c" (String "a" (String "f" (String "195" (String "169" "")))).
Definition unpaired : string :=
  String "a" (String "237" (String "160" (String "128" "b"))).
Definition replaced : string :=
  String "a" (String "239" (String "191" (String "189" "b"))).

(** A credential whose stored tag has its last byte changed:
    ["secret"] was saved under block 0 and the final [00] of the tag
    became [ff]. *)
Definition forged : Vault.StoredCredential.t :=
  Vault.StoredCredential.mk "c1" "example.org" 22 "root" Vault.Password
    (Some "00000000000000000000000000000000:746572636573:746572636573000000000000000000ff")
    None None "" "2024-01-01T00:00:00Z" "2024-01-01T00:00:01Z".

(** A store that holds just that credential. *)
Definition tampered : Vault.Store :=
  Vault.mkStore [("c1", forged)] [] Vault.Missing Vault.Missing true [] 1 2.

(** A connection for the credential filed under ["c2"]. *)
Definition connection : Vault.SavedConnectionInfo.t :=
  Vault.SavedConnectionInfo.mk "c2" (Some "lab") (Some "example.org")
    (Some (Js.Finite 22)) (Some "root") (Some Vault.Password) (Some true)
    "2024-01-01T00:00:00Z" (Some "2024-01-01T00:00:00Z").

(** A store with that connection and its credential. *)
Definition linked : Vault.Store :=
  Vault.calls env
    [Vault.Save "c2" (config (Some "secret") None None);
     Vault.SaveConnection connection] empty.

End Toy.

(** ** The websocket relay *)

Module Relay.

(** A value read from a parsed frame.  Arrays and objects only matter
    through their truthiness; a number is kept as an integer, the relay
    only tests it against zero and passes it on. *)
Inductive JsValue :=
| Undefined
| Null
| Bool (b : bool)
| Number (n : Z)
| Str (s : string)
| Object.

Definition truthy (v : JsValue) : bool :=
  match v with
  | Undefined | Null => false
  | Bool b => b
  | Number n => negb (n =? 0)%Z
  | Str s => Js.truthy s
  | Object => true
  end.

(** [v === name] for a string literal [name]. *)
Definition strictEq (name : string) (v : JsValue) : bool :=
  match v with Str s => String.eqb s name | _ => false end.

Module ClientMessage.
Record t := mk {
  type : JsValue;
  sessionId : JsValue;
  data : JsValue;
  cols : JsValue;
  rows : JsValue }.
End ClientMessage.

(** What [JSON.parse(data.toString())] does with an incoming frame:
    it throws, or it returns [null], or it returns a value whose
    properties read as in the message. *)
Inductive Frame :=
| SyntaxError
| ParsedNull
| Parsed (message : ClientMessage.t).

Inductive ServerMessage :=
| Output (sessionId : string) (data : string)
| Error (sessionId : JsValue) (error : string)
| Disconnect (sessionId : string)
| Pong (sessionId : JsValue).

Inductive ReadyState := CONNECTING | OPEN | CLOSING | CLOSED.

(** What the relay has done to a socket, oldest first. *)
Inductive Wire :=
| Sent (message : ServerMessage)
| Ping
| Terminate.

Module Socket.
Record t := mk {
  readyState : ReadyState;
  sessionId : option string;
  isAlive : bool;
  wire : list Wire }.

Definition isOpen (ws : t) : bool :=
  match readyState ws with OPEN => true | _ => false end.
Definition push (w : Wire) (ws : t) : t :=
  mk (readyState ws) (sessionId ws) (isAlive ws) (wire ws ++ [w]).
Definition setSessionId (sid : string) (ws : t) : t :=
  mk (readyState ws) (Some sid) (isAlive ws) (wire ws).
Definition setIsAlive (b : bool) (ws : t) : t :=
  mk (readyState ws) (sessionId ws) b (wire ws).
Definition setReadyState (r : ReadyState) (ws : t) : t :=
  mk r (sessionId ws) (isAlive ws) (wire ws).
End Socket.

Module Shell.
(** Modelled from the spec: the shell channel of [sshManager]
    (services/ssh-manager), of which the relay only has the import.  A
    channel records the listeners wired to it, what was written to it,
    its dimensions and whether it accepts writes. *)
Record t := mk {
  listeners : nat;
  written : list JsValue;
  size : option (JsValue * JsValue);
  writable : bool }.
Definition addListener (sh : t) : t :=
  mk (S (listeners sh)) (written sh) (size sh) (writable sh).
Definition write (d : JsValue) (sh : t) : t :=
  mk (listeners sh) (written sh ++ [d]) (size sh) (writable sh).
Definition resize (c r : JsValue) (sh : t) : t :=
  mk (listeners sh) (written sh) (Some (c, r)) (writable sh).
Definition setWritable (b : bool) (sh : t) : t :=
  mk (listeners sh) (written sh) (size sh) b.
End Shell.

Module Session.
(** Modelled from the spec: a session of [sshManager], which owns at
    most one shell channel. *)
Record t := mk { shell : option Shell.t }.
End Session.

(** A handler suspended at [await sshManager.createShell(...)]. *)
Inductive Pending :=
| InputPending (ws : nat) (sessionId : string) (data : JsValue)
| ResizePending (ws : nat) (sessionId : string) (cols rows : JsValue).

Record State := mkState {
  sockets : gmap nat Socket.t;
  clients : gset nat;
  sessionToWs : gmap string nat;
  shellOutputSetup : gset string;
  sessions : gmap string Session.t;
  pending : list Pending;
  console : list string }.

Definition setSockets (x : gmap nat Socket.t) (st : State) : State :=
  mkState x (clients st) (sessionToWs st) (shellOutputSetup st)
          (sessions st) (pending st) (console st).
Definition setClients (x : gset nat) (st : State) : State :=
  mkState (sockets st) x (sessionToWs st) (shellOutputSetup st)
          (sessions st) (pending st) (console st).
Definition setSessionToWs (x : gmap string nat) (st : State) : State :=
  mkState (sockets st) (clients st) x (shellOutputSetup st)
          (sessions st) (pending st) (console st).
Definition setShellOutputSetup (x : gset string) (st : State) : State :=
  mkState (sockets st) (clients st) (sessionToWs st) x
          (sessions st) (pending st) (console st).
Definition setSessions (x : gmap string Session.t) (st : State) : State :=
  mkState (sockets st) (clients st) (sessionToWs st) (shellOutputSetup st)
          x (pending st) (console st).
Definition setPending (x : list Pending) (st : State) : State :=
  mkState (sockets st) (clients st) (sessionToWs st) (shellOutputSetup st)
          (sessions st) x (console st).
Definition setConsole (x : list string) (st : State) : State :=
  mkState (sockets st) (clients st) (sessionToWs st) (shellOutputSetup st)
          (sessions st) (pending st) x.

Definition initial : State := mkState ∅ ∅ ∅ ∅ ∅ [] [].

(** *** [sshManager], modelled from the spec *)

(** Modelled from the spec: [getSession(id)] is a pure lookup. *)
Definition getSession (sessionId : string) (st : State) : option Session.t :=
  sessions st !! sessionId.

(** Modelled from the spec: [createShell(id, cols?, rows?)] once the
    underlying connection has answered.  A session that already has a
    channel keeps it; otherwise the channel is opened when the
    connection accepted the request ([accepted]), and the call fails,
    leaving the session without a shell, when it did not. The result
    tells whether the call succeeded. *)
Definition createShell (sessionId : string) (dims : option (JsValue * JsValue))
    (accepted : bool) (st : State) : bool * State :=
  match sessions st !! sessionId with
  | None => (false, st)
  | Some session =>
      match Session.shell session with
      | Some _ => (true, st)
      | None =>
          if accepted then
            (true, setSessions
                     (<[sessionId := Session.mk (Some (Shell.mk 0 [] dims true))]>
                        (sessions st)) st)
          else (false, st)
      end
  end.

(** Modelled from the spec: [sendInput(id, bytes)] writes to the
    session's channel if present and writable and returns [false]
    otherwise. *)
Definition sendInput (sessionId : string) (data : JsValue) (st : State)
  : bool * State :=
  match sessions st !! sessionId with
  | Some (Session.mk (Some sh)) =>
      if Shell.writable sh then
        (true, setSessions
                 (<[sessionId := Session.mk (Some (Shell.write data sh))]>
                    (sessions st)) st)
      else (false, st)
  | _ => (false, st)
  end.

(** Modelled from the spec: [resizeTerminal(id, cols, rows)] forwards
    the size to an existing channel and does nothing without one. *)
Definition resizeTerminal (sessionId : string) (cols rows : JsValue)
    (st : State) : State :=
  match sessions st !! sessionId with
  | Some (Session.mk (Some sh)) =>
      setSessions
        (<[sessionId := Session.mk (Some (Shell.resize cols rows sh))]>
           (sessions st)) st
  | _ => st
  end.

(** *** [WebSocketHandler] *)

Definition sendMessage (ws : nat) (message : ServerMessage) (st : State)
  : State :=
  match sockets st !! ws with
  | Some sock =>
      if Socket.isOpen sock
      then setSockets (<[ws := Socket.push (Sent message) sock]> (sockets st)) st
      else st
  | None => st
  end.

Definition sendError (ws : nat) (error : string) (sessionId : JsValue)
    (st : State) : State :=
  sendMessage ws (Error sessionId error) st.

(** [ws.sessionId = sessionId; this.sessionToWs.set(sessionId, ws)] *)
Definition bindSocket (ws : nat) (sessionId : string) (st : State) : State :=
  setSessionToWs (<[sessionId := ws]> (sessionToWs st))
    (setSockets (alter (Socket.setSessionId sessionId) ws (sockets st)) st).

(** The ['data'] listener that [setupShellOutput] installs. *)
Definition onShellData (sessionId data : string) (st : State) : State :=
  match sessionToWs st !! sessionId with
  | Some ws =>
      match sockets st !! ws with
      | Some sock =>
          if Socket.isOpen sock
          then sendMessage ws (Output sessionId data) st
          else st
      | None => st
      end
  | None => st
  end.

(** The ['close'] listener that [setupShellOutput] installs. *)
Definition onShellClose (sessionId : string) (st : State) : State :=
  let st1 :=
    match sessionToWs st !! sessionId with
    | Some ws =>
        match sockets st !! ws with
        | Some sock =>
            if Socket.isOpen sock
            then sendMessage ws (Disconnect sessionId) st
            else st
        | None => st
        end
    | None => st
    end in
  setSessionToWs (delete sessionId (sessionToWs st1))
    (setShellOutputSetup (shellOutputSetup st1 ∖ {[sessionId]}) st1).

Definition setupShellOutput (sessionId : string) (st : State) : State :=
  if decide (sessionId ∈ shellOutputSetup st) then st
  else
    match getSession sessionId st with
    | Some (Session.mk (Some sh)) =>
        setSessions
          (<[sessionId := Session.mk (Some (Shell.addListener sh))]>
             (sessions st))
          (setShellOutputSetup ({[sessionId]} ∪ shellOutputSetup st) st)
    | _ => st
    end.

(** [handleInput] after its [await]: the promise of [createShell]
    has settled. *)
Definition resumeInput (ws : nat) (sessionId : string) (data : JsValue)
    (accepted : bool) (st : State) : State :=
  let (created, st1) := createShell sessionId None accepted st in
  if created then
    let st2 := setupShellOutput sessionId st1 in
    let (success, st3) := sendInput sessionId data st2 in
    if success then st3
    else sendError ws "Failed to send input" (Str sessionId) st3
  else sendError ws "Failed to create shell" (Str sessionId) st1.

(** [handleInput] up to its [await]. *)
Definition handleInput (ws : nat) (message : ClientMessage.t) (st : State)
  : State :=
  let sessionId := ClientMessage.sessionId message in
  let data := ClientMessage.data message in
  if negb (truthy sessionId) || negb (truthy data) then
    sendError ws "Missing sessionId or data" (Str "") st
  else
    match sessionId with
    | Str sid =>
        match getSession sid st with
        | None => sendError ws "Session not found" sessionId st
        | Some session =>
            let st1 := bindSocket ws sid st in
            match Session.shell session with
            | None => setPending (pending st1 ++ [InputPending ws sid data]) st1
            | Some _ =>
                let (success, st2) := sendInput sid data st1 in
                if success then st2
                else sendError ws "Failed to send input" sessionId st2
            end
        end
    | _ => sendError ws "Session not found" sessionId st
    end.

(** [handleResize] after its [await]. *)
Definition resumeResize (sessionId : string) (cols rows : JsValue)
    (accepted : bool) (st : State) : State :=
  let (created, st1) := createShell sessionId (Some (cols, rows)) accepted st in
  if created then setupShellOutput sessionId st1
  else setConsole
         (console st1 ++
            ["Failed to create shell for session " +:+ sessionId +:+
             ", will retry later"]) st1.

(** [handleResize] up to its [await]. *)
Definition handleResize (ws : nat) (message : ClientMessage.t) (st : State)
  : State :=
  let sessionId := ClientMessage.sessionId message in
  let cols := ClientMessage.cols message in
  let rows := ClientMessage.rows message in
  if negb (truthy sessionId) || negb (truthy cols) || negb (truthy rows) then st
  else
    match sessionId with
    | Str sid =>
        match getSession sid st with
        | None => st
        | Some session =>
            let st1 := bindSocket ws sid st in
            match Session.shell session with
            | Some _ => resizeTerminal sid cols rows st1
            | None =>
                setPending (pending st1 ++ [ResizePending ws sid cols rows]) st1
            end
        end
    | _ => st
    end.

Definition handleMessage (ws : nat) (message : ClientMessage.t) (st : State)
  : State :=
  let type := ClientMessage.type message in
  if strictEq "input" type then handleInput ws message st
  else if strictEq "resize" type then handleResize ws message st
  else if strictEq "ping" type then
    sendMessage ws (Pong (ClientMessage.sessionId message)) st
  else sendError ws "Unknown message type" (Str "") st.

(** The ['message'] handler: a frame that does not parse, or parses
    to [null], ends in the [catch]. *)
Definition onMessage (ws : nat) (frame : Frame) (st : State) : State :=
  match frame with
  | SyntaxError | ParsedNull => sendError ws "Invalid message format" (Str "") st
  | Parsed message => handleMessage ws message st
  end.

(** The ['connection'] handler, for a socket the server has just
    accepted. *)
Definition onConnection (ws : nat) (st : State) : State :=
  setClients ({[ws]} ∪ clients st)
    (setSockets (<[ws := Socket.mk OPEN None true []]> (sockets st)) st).

(** The ['pong'] handler. *)
Definition onPong (ws : nat) (st : State) : State :=
  setSockets (alter (Socket.setIsAlive true) ws (sockets st)) st.

(** The ['close'] handler; the server drops the socket from
    [wss.clients] when it closes. *)
Definition onClose (ws : nat) (st : State) : State :=
  let st1 :=
    setClients (clients st ∖ {[ws]})
      (setSockets (alter (Socket.setReadyState CLOSED) ws (sockets st)) st) in
  match sockets st !! ws with
  | Some sock =>
      match Socket.sessionId sock with
      | Some sid =>
          if Js.truthy sid && bool_decide (sessionToWs st !! sid = Some ws)
          then setSessionToWs (delete sid (sessionToWs st1)) st1
          else st1
      | None => st1
      end
  | None => st1
  end.

(** [ws.terminate()]: the connection is destroyed at once. *)
Definition terminate (sock : Socket.t) : Socket.t :=
  match Socket.readyState sock with
  | CLOSED => sock
  | _ => Socket.setReadyState CLOSING (Socket.push Terminate sock)
  end.

(** [ws.ping()]: a ping frame goes out on an open socket. *)
Definition ping (sock : Socket.t) : Socket.t :=
  if Socket.isOpen sock then Socket.push Ping sock else sock.

(** The body of the sweep for one client. *)
Definition sweep (sock : Socket.t) : Socket.t :=
  if negb (Socket.isAlive sock) then terminate sock
  else ping (Socket.setIsAlive false sock).

(** The callback of [startPingInterval], run every 30000 ms. *)
Definition onInterval (st : State) : State :=
  setSockets
    (map_imap (fun ws sock =>
                 Some (if decide (ws ∈ clients st) then sweep sock else sock))
              (sockets st)) st.

(** *** The relay as a transition system

    One event is one run of a handler up to the point where it returns
    or awaits.  A connection event brings a socket that did not exist
    before.  The last four events are what the shell channels and
    [sshManager] do on their own: a channel emits data or closes, starts
    or stops accepting writes, a session is opened or ended. *)

Inductive Event :=
| Connection (ws : nat)
| Message (ws : nat) (frame : Frame)
| PongReceived (ws : nat)
| Close (ws : nat)
| Interval
| CreateShellSettled (task : nat) (accepted : bool)
| ShellData (sessionId data : string)
| ShellClose (sessionId : string)
| ShellWritable (sessionId : string) (writable : bool)
| SessionOpened (sessionId : string)
| SessionEnded (sessionId : string).

(** A shell emits an event to each of its listeners. *)
Definition emit (sessionId : string) (listener : State -> State) (st : State)
  : State :=
  match getSession sessionId st with
  | Some (Session.mk (Some sh)) => Nat.iter (Shell.listeners sh) listener st
  | _ => st
  end.

Definition step (st : State) (e : Event) : State :=
  match e with
  | Connection ws =>
      match sockets st !! ws with
      | None => onConnection ws st
      | Some _ => st
      end
  | Message ws frame =>
      match sockets st !! ws with
      | Some _ => onMessage ws frame st
      | None => st
      end
  | PongReceived ws => onPong ws st
  | Close ws => onClose ws st
  | Interval => onInterval st
  | CreateShellSettled task accepted =>
      let rest := delete task (pending st) in
      match pending st !! task with
      | None => st
      | Some (InputPending ws sid data) =>
          resumeInput ws sid data accepted (setPending rest st)
      | Some (ResizePending ws sid cols rows) =>
          resumeResize sid cols rows accepted (setPending rest st)
      end
  | ShellData sid data => emit sid (onShellData sid data) st
  | ShellClose sid =>
      let st1 := emit sid (onShellClose sid) st in
      match getSession sid st1 with
      | Some _ => setSessions (<[sid := Session.mk None]> (sessions st1)) st1
      | None => st1
      end
  | ShellWritable sid b =>
      match getSession sid st with
      | Some (Session.mk (Some sh)) =>
          setSessions
            (<[sid := Session.mk (Some (Shell.setWritable b sh))]> (sessions st))
            st
      | _ => st
      end
  | SessionOpened sid =>
      match getSession sid st with
      | None => setSessions (<[sid := Session.mk None]> (sessions st)) st
      | Some _ => st
      end
  | SessionEnded sid => setSessions (delete sid (sessions st)) st
  end.

Definition run (st : State) (events : list Event) : State :=
  fold_left step events st.

End Relay.

(** ** Vocabulary of the properties *)

Module Props.
Import Vault.

(** [sep] does not occur in [s]. *)
Fixpoint free (sep : ascii) (s : string) : bool :=
  match s with
  | EmptyString => true
  | String c rest => negb (Ascii.eqb c sep) && free sep rest
  end.

(** The cipher behaves as AES-256-GCM does under the store's key,
    which has the 32 bytes the cipher takes, and the entropy comes in
    blocks of sixteen bytes: under a 16-byte vector, a sealed text has a
    16-byte tag and opens to itself. *)
Definition Sound (env : Env) : Prop :=
  length (encryptionKey env) = 32 ∧
  (∀ n, length (randomBytes env n) = 16) ∧
  ∀ iv text,
    length iv = 16 →
    length (gcmSeal (cipher env) (encryptionKey env) iv text).2 = 16 ∧
    gcmOpen (cipher env) (encryptionKey env) iv
      (gcmSeal (cipher env) (encryptionKey env) iv text).1
      (Some (gcmSeal (cipher env) (encryptionKey env) iv text).2)
    = Some text.

(** The stored string of a text sealed under the vector [iv]: the
    vector, what the cipher made of the UTF-8 of the text under that
    vector, and the tag, in hex and joined by colons. *)
Definition sealedUnder (env : Env) (iv : Hex.Buffer) (text : string) : string :=
  let sealed := gcmSeal (cipher env) (encryptionKey env) iv (Js.utf8Encode text) in
  Hex.toString iv +:+ ":" +:+ Hex.toString sealed.1 +:+ ":" +:+
  Hex.toString sealed.2.

(** The string [save] stores for [text] when [encrypt] draws the
    [n]-th block of entropy. *)
Definition blob (env : Env) (n : nat) (text : string) : string :=
  sealedUnder env (randomBytes env n) text.

(** A secret that [save] encrypts: present and not empty. *)
Definition given (field : option string) : nat :=
  if Js.present field then 1 else 0.

(** The stored field for a secret of [save] under the [n]-th block. *)
Definition stored (env : Env) (n : nat) (field : option string)
  : option string :=
  match field with
  | Some text => if Js.truthy text then Some (blob env n text) else None
  | None => None
  end.

(** The credential [save] files under [id], from the blocks of
    entropy and the clock readings that follow those of [s]. *)
Definition saved (env : Env) (s : Store) (id : string) (config : Config.t)
  : StoredCredential.t :=
  let n := rngCalls s in
  let n1 := n + given (Config.password config) in
  let n2 := n1 + given (Config.privateKey config) in
  StoredCredential.mk id (Config.host config) (Config.port config)
    (Config.username config) (Config.authType config)
    (stored env n (Config.password config))
    (stored env n1 (Config.privateKey config))
    (stored env n2 (Config.passphrase config))
    "" (dateNow env (dateCalls s)) (dateNow env (S (dateCalls s))).

(** The blocks of entropy [save] draws when it starts at block [n]:
    one for each secret it encrypts. *)
Definition draws (n : nat) (config : Config.t) : list nat :=
  let n1 := n + given (Config.password config) in
  let n2 := n1 + given (Config.privateKey config) in
  (if Js.present (Config.password config) then [n] else []) ++
  (if Js.present (Config.privateKey config) then [n1] else []) ++
  (if Js.present (Config.passphrase config) then [n2] else []).

(** The secret [get] hands back for a secret of [save]. *)
Definition kept (field : option string) : option string :=
  match field with
  | Some text => if Js.truthy text then Some text else None
  | None => None
  end.

(** The secrets [save] encrypts, in the order in which it takes
    them. *)
Definition secrets (config : Config.t) : list string :=
  omap kept [Config.password config; Config.privateKey config;
             Config.passphrase config].

(** The secret [get] hands back for a secret of [save], after its
    trip through UTF-8. *)
Definition returned (field : option string) : option string :=
  Js.toWellFormed <$> kept field.

(** The secrets of [config] that [save] encrypts are well-formed
    strings. *)
Definition wellFormed (config : Config.t) : Prop :=
  ∀ text,
    text ∈ secrets config → Js.isWellFormed text = true.

(** [save] is left by an exception: the key does not fit and there is
    a secret to encrypt. *)
Definition throws (env : Env) (config : Config.t) : bool :=
  negb (keyFits env)
  && (Js.present (Config.password config)
      || Js.present (Config.privateKey config)
      || Js.present (Config.passphrase config)).

(** [config] with its empty secrets left out. *)
Definition omitEmpty (config : Config.t) : Config.t :=
  Config.mk (Config.host config) (Config.port config)
    (Config.username config) (Config.authType config)
    (kept (Config.password config)) (kept (Config.privateKey config))
    (kept (Config.passphrase config)).

(** The encrypted strings a credential holds. *)
Definition blobs (c : StoredCredential.t) : list string :=
  omap (fun field => field ≫= fun b => if Js.truthy b then Some b else None)
    [StoredCredential.encryptedPassword c;
     StoredCredential.encryptedPrivateKey c;
     StoredCredential.encryptedPassphrase c].

(** The initialization vector a stored string carries. *)
Definition ivOf (b : string) : string := default "" (head (Js.split ":" b)).

(** Some encrypted field of [c] cannot be decrypted. *)
Definition Undecryptable (env : Env) (c : StoredCredential.t) : Prop :=
  ∃ b, b ∈ blobs c ∧ decryptBlob env (StoredCredential.iv c) b = None.

(** Every connection is filed under its own id. *)
Definition Keyed (m : JsMap.t SavedConnectionInfo.t) : Prop :=
  ∀ k c, (k, c) ∈ m → SavedConnectionInfo.id c = k.

(** A call that the compiler accepts: the updates of
    [updateConnection] carry no [id]. *)
Definition declared (c : Call) : Prop :=
  match c with
  | UpdateConnection _ updates => Updates.id updates = None
  | _ => True
  end.

(** The map a constructor loads from a file. *)
Definition loaded {A} `{Json A} (f : File A) : JsMap.t A :=
  match f with
  | Contents entries => parsed entries
  | _ => JsMap.empty
  end.

(** What the reconciliation does to the connections, one credential
    at a time. *)
Definition reconcile (entries : list (string * StoredCredential.t))
    (m : JsMap.t SavedConnectionInfo.t) : JsMap.t SavedConnectionInfo.t :=
  fold_left (fun m e =>
               if JsMap.has e.1 m then m
               else JsMap.set e.1 (synthesized e.1 e.2) m) entries m.

Definition lacking (entries : list (string * StoredCredential.t))
    (m : JsMap.t SavedConnectionInfo.t) : bool :=
  existsb (fun e => negb (JsMap.has e.1 m)) entries.

End Props.

Module RelayProps.
Import Relay.

(** The frames the relay answers with an error, and the error. *)
Definition rejected (frame : Frame) : option string :=
  match frame with
  | SyntaxError | ParsedNull => Some "Invalid message format"
  | Parsed m =>
      if strictEq "input" (ClientMessage.type m) then
        if negb (truthy (ClientMessage.sessionId m))
           || negb (truthy (ClientMessage.data m))
        then Some "Missing sessionId or data" else None
      else if strictEq "resize" (ClientMessage.type m) then None
      else if strictEq "ping" (ClientMessage.type m) then None
      else Some "Unknown message type"
  end.

(** A resize frame that lacks its session id or a dimension. *)
Definition incompleteResize (frame : Frame) : bool :=
  match frame with
  | Parsed m =>
      strictEq "resize" (ClientMessage.type m)
      && (negb (truthy (ClientMessage.sessionId m))
          || negb (truthy (ClientMessage.cols m))
          || negb (truthy (ClientMessage.rows m)))
  | _ => false
  end.

(** A ping frame, with or without a session id. *)
Definition pingOf (frame : Frame) : option JsValue :=
  match frame with
  | Parsed m =>
      if strictEq "input" (ClientMessage.type m) then None
      else if strictEq "resize" (ClientMessage.type m) then None
      else if strictEq "ping" (ClientMessage.type m)
      then Some (ClientMessage.sessionId m) else None
  | _ => None
  end.

(** No connection was opened or closed between [st] and [st']. *)
Definition SameConnections (st st' : State) : Prop :=
  clients st' = clients st ∧
  ∀ ws, Socket.readyState <$> sockets st' !! ws
        = Socket.readyState <$> sockets st !! ws.

(** The state of a connection and of its liveness flag. *)
Definition vitals (sock : Socket.t) : ReadyState * bool :=
  (Socket.readyState sock, Socket.isAlive sock).

(** Between [st] and [st'] no socket was added, dropped, closed or
    marked. *)
Definition Steady (st st' : State) : Prop :=
  clients st' = clients st ∧
  ∀ ws, vitals <$> sockets st' !! ws = vitals <$> sockets st !! ws.

(** The events that are neither a sweep nor the arrival, answer or
    departure of a socket. *)
Definition traffic (e : Event) : bool :=
  match e with
  | Connection _ | PongReceived _ | Close _ | Interval => false
  | _ => true
  end.

(** Where socket [ws] stands after [k] sweeps without a pong: still a
    client while open, then also marked, then no longer open. *)
Definition Phase (k : nat) (ws : nat) (st : State) : Prop :=
  ∃ sock,
    sockets st !! ws = Some sock ∧
    match k with
    | 0 => Socket.isOpen sock = true → ws ∈ clients st
    | 1 => Socket.isOpen sock = true →
           ws ∈ clients st ∧ Socket.isAlive sock = false
    | _ => Socket.isOpen sock = false
    end.







(** The listeners wired to the shell of session [sid]. *)
Definition listenersOf (sid : string) (st : State) : nat :=
  match sessions st !! sid with
  | Some (Session.mk (Some sh)) => Shell.listeners sh
  | _ => 0
  end.



(** The number of sweeps among the events. *)
Fixpoint ticks (events : list Event) : nat :=
  match events with
  | [] => 0
  | Interval :: rest => S (ticks rest)
  | _ :: rest => ticks rest
  end.

(** The event is not a pong of socket [ws]. *)
Definition silent (ws : nat) (e : Event) : bool :=
  match e with
  | PongReceived ws' => negb (ws' =? ws)%nat
  | _ => true
  end.

End RelayProps.

(** ** A small scene to run the relay on *)

Module ToyRelay.
Import Relay.


Definition resize (sid : string) (cols rows : Z) : Frame :=
  Parsed (ClientMessage.mk (Str "resize") (Str sid) Undefined
            (Number cols) (Number rows)).

(** A resize frame that names its session and nothing else. *)
Definition resizeOnly (sid : string) : Frame :=
  Parsed (ClientMessage.mk (Str "resize") (Str sid) Undefined
            Undefined Undefined).

(** A frame with only a type. *)
Definition bare (type : string) : Frame :=
  Parsed (ClientMessage.mk (Str type) Undefined Undefined Undefined
            Undefined).

(** A socket as the connection handler leaves it. *)
Definition newcomer : Socket.t := Socket.mk OPEN None true [].

(** One session and two sockets, nothing said yet. *)
Definition lobby : State :=
  run initial [SessionOpened "s1"; Connection 1; Connection 2].

End ToyRelay.


(** ** [String.prototype.trim] *)

Module Text.

(** White space and line terminators of one byte: TAB, LF, VT, FF, CR
    and the space. *)
Definition white1 (a : ascii) : bool :=
  let x := N_of_ascii a in
  ((9 <=? x) && (x <=? 13) || (x =? 32))%N.

(** U+00A0 in UTF-8. *)
Definition white2 (a b : ascii) : bool :=
  ((N_of_ascii a =? 194) && (N_of_ascii b =? 160))%N.

(** U+1680, U+2000 to U+200A, U+2028, U+2029, U+202F, U+205F, U+3000
    and U+FEFF in UTF-8. *)
Definition white3 (a b c : ascii) : bool :=
  let x := N_of_ascii a in
  let y := N_of_ascii b in
  let z := N_of_ascii c in
  ((x =? 225) && (y =? 154) && (z =? 128)
   || (x =? 226) && (y =? 128)
      && ((128 <=? z) && (z <=? 138) || (z =? 168) || (z =? 169) || (z =? 175))
   || (x =? 226) && (y =? 129) && (z =? 159)
   || (x =? 227) && (y =? 128) && (z =? 128)
   || (x =? 239) && (y =? 187) && (z =? 191))%N.

Fixpoint trimStart (s : string) : string :=
  match s with
  | EmptyString => EmptyString
  | String a r1 =>
      if white1 a then trimStart r1
      else
        match r1 with
        | EmptyString => s
        | String b r2 =>
            if white2 a b then trimStart r2
            else
              match r2 with
              | EmptyString => s
              | String c r3 => if white3 a b c then trimStart r3 else s
              end
        end
  end.

(** The text is white space from end to end. *)
Fixpoint allWhite (s : string) : bool :=
  match s with
  | EmptyString => true
  | String a r1 =>
      if white1 a then allWhite r1
      else
        match r1 with
        | EmptyString => false
        | String b r2 =>
            if white2 a b then allWhite r2
            else
              match r2 with
              | EmptyString => false
              | String c r3 => white3 a b c && allWhite r3
              end
        end
  end.

Fixpoint trimEnd (s : string) : string :=
  match s with
  | EmptyString => EmptyString
  | String a r => if allWhite s then EmptyString else String a (trimEnd r)
  end.

(** [s.trim()] *)
Definition trim (s : string) : string := trimEnd (trimStart s).

(** A string with its ASCII capitals in lower case. *)
Fixpoint lower (s : string) : string :=
  match s with
  | EmptyString => EmptyString
  | String a r =>
      let x := N_of_ascii a in
      String (if ((65 <=? x) && (x <=? 90))%N then ascii_of_N (x + 32) else a)
             (lower r)
  end.

End Text.

(** ** The choice of the encryption key

    The first part of the constructor of [CredentialStore]: the key
    comes from the environment, or from the key file, or is generated
    and written to the key file. *)

Module Startup.

(** The key file: absent, there but failing to be read, or there with
    its content and permission bits. *)
Inductive KeyFile :=
| Absent
| Unreadable
| Present (content : string) (mode : N).

(** What the constructor finds and leaves behind: the key file, whether
    the directory and the file can be created, the console, and the
    number of calls of [crypto.randomBytes(32)] so far. *)
Record Host := mkHost {
  keyFile : KeyFile;
  writable : bool;
  console : list string;
  draws : nat }.

(** [process.env.CREDENTIAL_KEY] and the successive results of
    [crypto.randomBytes(32)]. *)
Record Settings := {
  CREDENTIAL_KEY : option string;
  randomBytes32 : nat -> Hex.Buffer }.

Definition log (msg : string) (h : Host) : Host :=
  mkHost (keyFile h) (writable h) (console h ++ [msg]) (draws h).

Definition draw (h : Host) : Host :=
  mkHost (keyFile h) (writable h) (console h) (S (draws h)).

Definition setKeyFile (f : KeyFile) (h : Host) : Host :=
  mkHost f (writable h) (console h) (draws h).

(** The [catch] branch: a random key that is kept in memory only. *)
Definition fallback (cfg : Settings) (h : Host) : Hex.Buffer * Host :=
  let h1 := log "Failed to load/save encryption key, using random key:" h in
  (randomBytes32 cfg (draws h1), draw h1).

(** The key the constructor settles on. [0o600] is 384. *)
Definition provision (cfg : Settings) (h : Host) : Hex.Buffer * Host :=
  if Js.present (CREDENTIAL_KEY cfg) then
    (Hex.from (default EmptyString (CREDENTIAL_KEY cfg)),
     log "Using encryption key from environment variable" h)
  else
    match keyFile h with
    | Present content _ =>
        (Hex.from (Text.trim content), log "Loaded encryption key from file" h)
    | Unreadable => fallback cfg h
    | Absent =>
        let key := randomBytes32 cfg (draws h) in
        let h1 := draw h in
        if writable h1 then
          (key,
           log "Generated and saved new encryption key"
             (setKeyFile (Present (Hex.toString key) 384) h1))
        else fallback cfg h1
    end.

End Startup.

(** ** The routes of the credential API (routes/credentials) *)

Module Routes.

Inductive Code := INVALID_REQUEST | CONNECTION_NOT_FOUND | CREDENTIAL_NOT_FOUND.

(** [ApiError] *)
Record ApiError := { code : Code; message : string }.

(** What a handler answers with: the value it gives to [res.json],
    read as the client reads it, that is after [JSON.stringify] and
    [JSON.parse]; [Unhandled] is [next(err)], which leaves the answer
    to the error handler of the application. *)
Inductive Body :=
| ErrorBody (error : ApiError)
| ConnectionsBody (connections : list Vault.SavedConnectionInfo.t)
| CreatedConnection (connection : Vault.SavedConnectionInfo.t)
| Success
| CreatedCredential (id : string)
| CredentialBody (credential : Vault.Credential.t)
| Exists (found : bool)
| CredentialsBody (credentials : list Vault.ListEntry)
| NoContent
| Unhandled
| NoRoute.

Record Response := { status : nat; body : Body }.

Definition invalidRequest : Response :=
  {| status := 400;
     body := ErrorBody {| code := INVALID_REQUEST; message := "缺少必填字段" |} |}.

Definition connectionNotFound : Response :=
  {| status := 404;
     body := ErrorBody {| code := CONNECTION_NOT_FOUND; message := "连接不存在" |} |}.

Definition credentialNotFound : Response :=
  {| status := 404;
     body := ErrorBody {| code := CREDENTIAL_NOT_FOUND; message := "凭据不存在" |} |}.

(** [next(err)]: express answers 500 unless the application says
    otherwise. *)
Definition serverError : Response := {| status := 500; body := Unhandled |}.

(** No route of this router takes the request. *)
Definition notRouted : Response := {| status := 404; body := NoRoute |}.

(** [req.body]: the parsed JSON of the request.  Nothing checks it;
    the model keeps the properties the handlers and the store read,
    each one absent or with a value of the type its reader declares
    (JSON has no [undefined], so a property that is there has a
    value).  Other properties, which [PUT /connections/:id] copies onto
    the connection as well, are not kept: nothing reads them. *)
Module Payload.
Record t := mk {
  id : option string;
  name : option string;
  host : option string;
  port : option Js.Num;
  username : option string;
  authType : option Vault.AuthType;
  hasStoredCredentials : option bool;
  password : option string;
  privateKey : option string;
  passphrase : option string;
  createdAt : option string;
  lastUsedAt : option string }.

(** The empty object. *)
Definition empty : t :=
  mk None None None None None None None None None None None None.

(** The body as [Object.assign] sees it. *)
Definition updates (p : t) : Vault.Updates.t :=
  Vault.Updates.mk (Some <$> name p) (Some <$> host p) (Some <$> port p)
    (Some <$> username p) (Some <$> authType p)
    (Some <$> hasStoredCredentials p) (Some <$> lastUsedAt p)
    (id p) (createdAt p).
End Payload.

(** Truthiness of an optional number: absent, zero, [NaN] and [null]
    are falsy. *)
Definition nonzero (n : option Js.Num) : bool :=
  match n with Some x => Js.truthyNum x | None => false end.

Definition isSome {A} (o : option A) : bool :=
  match o with Some _ => true | None => false end.

#[local] Existing Instance Vault.M_ret.
#[local] Existing Instance Vault.M_bind.

Section Handlers.
Variable env : Vault.Env.

(** [GET /connections] *)
Definition getConnections : Vault.M Response :=
  connections ← Vault.getConnections;
  mret {| status := 200; body := ConnectionsBody (reparse <$> connections) |}.

(** [POST /connections] *)
Definition postConnection (rq : Payload.t) : Vault.M Response :=
  if negb (Js.present (Payload.id rq))
     || negb (Js.present (Payload.name rq))
     || negb (Js.present (Payload.host rq))
     || negb (nonzero (Payload.port rq))
     || negb (Js.present (Payload.username rq))
     || negb (isSome (Payload.authType rq))
  then mret invalidRequest
  else
    created ← Vault.newDate env;
    used ← Vault.newDate env;
    let connection :=
      Vault.SavedConnectionInfo.mk
        (default EmptyString (Payload.id rq))
        (Payload.name rq) (Payload.host rq) (Payload.port rq)
        (Payload.username rq) (Payload.authType rq)
        (Some (default false (Payload.hasStoredCredentials rq)))
        created (Some used) in
    Vault.saveConnection connection ;;
    mret {| status := 201; body := CreatedConnection (reparse connection) |}.

(** [{...updates, lastUsedAt: now}] *)
Definition stamped (now : string) (u : Vault.Updates.t) : Vault.Updates.t :=
  Vault.Updates.mk (Vault.Updates.name u) (Vault.Updates.host u)
    (Vault.Updates.port u) (Vault.Updates.username u)
    (Vault.Updates.authType u) (Vault.Updates.hasStoredCredentials u)
    (Some (Some now)) (Vault.Updates.id u) (Vault.Updates.createdAt u).

(** [PUT /connections/:id] *)
Definition putConnection (id : string) (updates : Vault.Updates.t)
  : Vault.M Response :=
  now ← Vault.newDate env;
  success ← Vault.updateConnection id (stamped now updates);
  if success : bool then mret {| status := 200; body := Success |}
  else mret connectionNotFound.

(** [DELETE /connections/:id] *)
Definition deleteConnection (id : string) : Vault.M Response :=
  success ← Vault.deleteConnection id;
  if success : bool then mret {| status := 204; body := NoContent |}
  else mret connectionNotFound.

(** [POST /] *)
Definition postCredential (rq : Payload.t) : Vault.M Response :=
  if negb (Js.present (Payload.id rq))
     || negb (Js.present (Payload.host rq))
     || negb (nonzero (Payload.port rq))
     || negb (Js.present (Payload.username rq))
     || negb (isSome (Payload.authType rq))
  then mret invalidRequest
  else
    let id := default EmptyString (Payload.id rq) in
    outcome ← Vault.save env id
      (Vault.Config.mk
         (default EmptyString (Payload.host rq))
         (default (Js.Finite 0) (Payload.port rq))
         (default EmptyString (Payload.username rq))
         (default Vault.Password (Payload.authType rq))
         (Payload.password rq)
         (Payload.privateKey rq)
         (Payload.passphrase rq));
    match outcome with
    | Vault.Returned _ => mret {| status := 201; body := CreatedCredential id |}
    | Vault.Thrown => mret serverError
    end.

(** [GET /:id] *)
Definition getCredential (id : string) : Vault.M Response :=
  credential ← Vault.get env id;
  match credential with
  | None => mret credentialNotFound
  | Some c => mret {| status := 200; body := CredentialBody (reparse c) |}
  end.

(** [GET /:id/exists] *)
Definition getExists (id : string) : Vault.M Response :=
  found ← Vault.has id;
  mret {| status := 200; body := Exists found |}.

(** [DELETE /:id] *)
Definition deleteCredential (id : string) : Vault.M Response :=
  success ← Vault.delete id;
  if success : bool then mret {| status := 204; body := NoContent |}
  else mret credentialNotFound.

(** [GET /] *)
Definition getList : Vault.M Response :=
  entries ← Vault.list_;
  mret {| status := 200; body := CredentialsBody entries |}.

(** *** The router

    The routes are tried in the order of their registration and the
    first whose method and path fit takes the request.  The path is
    the list of its segments below the mount point.  A literal of a
    route is compared with the segment as the request line spells it,
    without regard to the case of ASCII letters, as the router does by
    default; a parameter takes any segment and hands it on decoded.
    How a spelling decodes is left to the request: a segment comes
    with both. *)

Inductive Method := GET | POST | PUT | DELETE.

Definition sameMethod (a b : Method) : bool :=
  match a, b with
  | GET, GET | POST, POST | PUT, PUT | DELETE, DELETE => true
  | _, _ => false
  end.

(** A segment of the path of a request: as the request line spells
    it, and what [decodeURIComponent] makes of that. *)
Record Piece := { raw : string; decoded : string }.

(** A segment that is spelled as it reads. *)
Definition plain (s : string) : Piece := {| raw := s; decoded := s |}.

Inductive Segment := Lit (s : string) | Par.

(** The parameters of a path that fits the pattern. *)
Fixpoint fit (pattern : list Segment) (path : list Piece)
  : option (list string) :=
  match pattern, path with
  | [], [] => Some []
  | Lit s :: pattern', x :: path' =>
      if String.eqb (Text.lower (raw x)) s then fit pattern' path' else None
  | Par :: pattern', x :: path' => cons (decoded x) <$> fit pattern' path'
  | _, _ => None
  end.

Definition Handler : Type := list string -> Payload.t -> Vault.M Response.

(** [req.params.id] *)
Definition param (params : list string) : string :=
  default EmptyString (head params).

(** The routes, as the file registers them. *)
Definition routes : list (Method * list Segment * Handler) :=
  [ (GET, [Lit "connections"], fun _ _ => getConnections);
    (POST, [Lit "connections"], fun _ rq => postConnection rq);
    (PUT, [Lit "connections"; Par],
       fun ps rq => putConnection (param ps) (Payload.updates rq));
    (DELETE, [Lit "connections"; Par], fun ps _ => deleteConnection (param ps));
    (POST, [], fun _ rq => postCredential rq);
    (GET, [Par], fun ps _ => getCredential (param ps));
    (GET, [Par; Lit "exists"], fun ps _ => getExists (param ps));
    (DELETE, [Par], fun ps _ => deleteCredential (param ps));
    (GET, [], fun _ _ => getList) ].

Fixpoint dispatch (table : list (Method * list Segment * Handler))
    (method : Method) (path : list Piece) (rq : Payload.t)
  : Vault.M Response :=
  match table with
  | [] => mret notRouted
  | (m, pattern, handler) :: table' =>
      if sameMethod m method then
        match fit pattern path with
        | Some params => handler params rq
        | None => dispatch table' method path rq
        end
      else dispatch table' method path rq
  end.

(** An HTTP request to the router. *)
Definition handle (method : Method) (path : list Piece) (rq : Payload.t)
  : Vault.M Response :=
  dispatch routes method path rq.

(** The store after a run of requests. *)
Definition serve (requests : list (Method * list Piece * Payload.t))
    (s : Vault.Store) : Vault.Store :=
  fold_left (fun s r => (handle r.1.1 r.1.2 r.2 s).2) requests s.

End Handlers.

End Routes.

(** ** The rest of [WebSocketHandler] *)

Module RelayServer.
Import Relay.

(** [broadcast(message)]: to every client that is open. *)
Definition broadcast (message : ServerMessage) (st : State) : State :=
  setSockets
    (map_imap (fun ws sock =>
                 Some (if decide (ws ∈ clients st)
                       then if Socket.isOpen sock
                            then Socket.push (Sent message) sock
                            else sock
                       else sock))
              (sockets st)) st.

End RelayServer.

(** ** Further vocabulary *)

Module MoreProps.
Import Vault.

(** A stored field in the old layout, [encrypted:tag], sealed under the
    vector the credential records in its own [iv]. *)
Definition legacyBlob (env : Env) (iv : Hex.Buffer) (text : string) : string :=
  let sealed := gcmSeal (cipher env) (encryptionKey env) iv (Js.utf8Encode text) in
  Hex.toString sealed.1 +:+ ":" +:+ Hex.toString sealed.2.

(** No key occurs twice. *)
Definition Unique {V} (m : JsMap.t V) : Prop := NoDup (JsMap.keys m).

(** The entries as they read after [JSON.stringify] and
    [JSON.parse]. *)
Definition rendered {A} `{Json A} (m : JsMap.t A) : JsMap.t A :=
  prod_map id reparse <$> m.

(** Every value of the map is one that JSON can hold: it reads back
    as it was written. *)
Definition Stable {A} `{Json A} (m : JsMap.t A) : Prop :=
  ∀ k v, (k, v) ∈ m → reparse v = v.

(** The same store on a file system that rejects every write. *)
Definition offline (s : Store) : Store :=
  mkStore (credentials s) (connections s) (credentialsFile s)
          (connectionsFile s) false (console s) (rngCalls s) (dateCalls s).

(** The keys after [m.set(k, _)]. *)
Definition keysAfterSet {V} (k : string) (m : JsMap.t V) : list string :=
  if JsMap.has k m then JsMap.keys m else JsMap.keys m ++ [k].

(** The credentials after one call. *)
Definition credentialsAfter (env : Env) (c : Call) (s : Store)
  : JsMap.t StoredCredential.t :=
  match c with
  | Save id config =>
      if Props.throws env config then credentials s
      else JsMap.set id (Props.saved env s id config) (credentials s)
  | Get id =>
      match JsMap.get id (credentials s) with
      | Some credential =>
          JsMap.set id
            (StoredCredential.setLastUsedAt (dateNow env (dateCalls s)) credential)
            (credentials s)
      | None => credentials s
      end
  | Delete id => JsMap.remove id (credentials s)
  | DeleteConnection id =>
      if JsMap.has id (connections s) then JsMap.remove id (credentials s)
      else credentials s
  | _ => credentials s
  end.

(** The connections after one call. *)
Definition connectionsAfter (c : Call) (s : Store)
  : JsMap.t SavedConnectionInfo.t :=
  match c with
  | SaveConnection connection =>
      JsMap.set (SavedConnectionInfo.id connection) connection (connections s)
  | UpdateConnection id updates =>
      match JsMap.get id (connections s) with
      | Some connection => JsMap.set id (assign connection updates) (connections s)
      | None => connections s
      end
  | DeleteConnection id => JsMap.remove id (connections s)
  | _ => connections s
  end.

(** The call reaches [persist]. *)
Definition writesCredentials (env : Env) (c : Call) (s : Store) : bool :=
  match c with
  | Save _ config => negb (Props.throws env config)
  | Get id | Delete id => JsMap.has id (credentials s)
  | DeleteConnection id =>
      JsMap.has id (connections s) && JsMap.has id (credentials s)
  | _ => false
  end.

(** The call reaches [persistConnections]. *)
Definition writesConnections (c : Call) (s : Store) : bool :=
  match c with
  | SaveConnection _ => true
  | UpdateConnection id _ | DeleteConnection id => JsMap.has id (connections s)
  | _ => false
  end.

End MoreProps.

(** ** Vocabulary of the relay's wiring *)

Module Wiring.
Import Relay RelayProps.

(** The frames among what was done to a socket, oldest first. *)
Definition frames (sock : Socket.t) : list ServerMessage :=
  omap (fun w => match w with Sent m => Some m | _ => None end)
       (Socket.wire sock).

(** The frames socket [ws] has been sent. *)
Definition framesTo (ws : nat) (st : State) : list ServerMessage :=
  from_option frames [] (sockets st !! ws).

(** Every shell has no listener, or one and its session is marked in
    [shellOutputSetup]. *)
Definition Wired (st : State) : Prop :=
  ∀ sid, listenersOf sid st = 0
         ∨ (listenersOf sid st = 1 ∧ sid ∈ shellOutputSetup st).

(** What the handlers do to a socket they hold: send it a frame or a
    ping while it is open, note a session on it, mark it, close or
    terminate it. *)
Inductive Touch : Socket.t → Socket.t → Prop :=
| Touch_refl sock : Touch sock sock
| Touch_trans a b c : Touch a b → Touch b c → Touch a c
| Touch_send message sock :
    Socket.isOpen sock = true → Touch sock (Socket.push (Sent message) sock)
| Touch_ping sock :
    Socket.isOpen sock = true → Touch sock (Socket.push Ping sock)
| Touch_session sid sock : Touch sock (Socket.setSessionId sid sock)
| Touch_alive b sock : Touch sock (Socket.setIsAlive b sock)
| Touch_closed sock : Touch sock (Socket.setReadyState CLOSED sock)
| Touch_terminate sock : Touch sock (terminate sock).

(** Every socket of [st] is still there in [st'], touched. *)
Definition Touched (st st' : State) : Prop :=
  ∀ ws sock, sockets st !! ws = Some sock →
             ∃ sock', sockets st' !! ws = Some sock' ∧ Touch sock sock'.

(** An input frame. *)
Definition inputFrame (sid : string) (data cols rows : JsValue) : Frame :=
  Parsed (ClientMessage.mk (Str "input") (Str sid) data cols rows).

(** A frame that names the session [sid]. *)
Definition names (sid : string) (frame : Frame) : bool :=
  match frame with
  | Parsed m => strictEq sid (ClientMessage.sessionId m)
  | _ => false
  end.

(** The input events of a list of keystrokes, each with the socket it
    came from. *)
Definition typed (sid : string) (keys : list (nat * JsValue)) : list Event :=
  map (fun key => Message key.1 (inputFrame sid key.2 Undefined Undefined)) keys.

(** Whether socket [ws] is open. *)
Definition isOpenAt (ws : nat) (st : State) : bool :=
  from_option Socket.isOpen false (sockets st !! ws).

(** Every open socket is among the clients of the server. *)
Definition Listed (st : State) : Prop :=
  ∀ ws sock, sockets st !! ws = Some sock → Socket.isOpen sock = true →
             ws ∈ clients st.

End Wiring.

(** ** Vocabulary of the routes *)

Module RouteProps.
Import Routes.

(** The body of [POST /] has every required field. *)
Definition complete (rq : Payload.t) : bool :=
  Js.present (Payload.id rq)
  && Js.present (Payload.host rq)
  && nonzero (Payload.port rq)
  && Js.present (Payload.username rq)
  && isSome (Payload.authType rq).

(** What [POST /] hands to [save] from a body that has every required
    field. *)
Definition configOf (rq : Payload.t) : Vault.Config.t :=
  Vault.Config.mk
    (default EmptyString (Payload.host rq))
    (default (Js.Finite 0) (Payload.port rq))
    (default EmptyString (Payload.username rq))
    (default Vault.Password (Payload.authType rq))
    (Payload.password rq) (Payload.privateKey rq) (Payload.passphrase rq).

(** A segment that [GET /connections] takes before [GET /:id] is
    tried: it is spelled [connections], in whatever case. *)
Definition reserved (segment : Piece) : bool :=
  String.eqb (Text.lower (raw segment)) "connections".

(** The store after a reading of the clock. *)
Definition tick (s : Vault.Store) : Vault.Store :=
  Vault.setDateCalls (S (Vault.dateCalls s)) s.

End RouteProps.

(** ** More of the small scene *)

Module Samples.
Import Relay.

(** A credential in the old layout: the password ["secret"] sealed
    under the vector the credential records. *)
Definition legacy : Vault.StoredCredential.t :=
  Vault.StoredCredential.mk "old" "example.org" 22 "root" Vault.Password
    (Some (MoreProps.legacyBlob Toy.env (Toy.entropy 0) "secret")) None None
    (Hex.toString (Toy.entropy 0))
    "2023-01-01T00:00:00Z" "2023-01-01T00:00:00Z".

(** A store that holds just that credential. *)
Definition archive : Vault.Store :=
  Vault.mkStore [("old", legacy)] [] Vault.Missing Vault.Missing true [] 0 0.

(** The [n]-th block of 32 random bytes. *)
Definition entropy32 (n : nat) : Hex.Buffer :=
  replicate 31 x00 ++ [default x00 (Byte.of_N (N.of_nat n mod 256))].

(** No key in the environment. *)
Definition settings : Startup.Settings :=
  {| Startup.CREDENTIAL_KEY := None; Startup.randomBytes32 := entropy32 |}.

(** The key of [Toy.env] in the environment. *)
Definition keyed : Startup.Settings :=
  {| Startup.CREDENTIAL_KEY := Some (Hex.toString (replicate 32 x2a));
     Startup.randomBytes32 := entropy32 |}.

(** A machine on its first start, and one whose data directory cannot
    be written. *)
Definition firstStart : Startup.Host := Startup.mkHost Startup.Absent true [] 0.
Definition readOnly : Startup.Host := Startup.mkHost Startup.Absent false [] 0.

(** A key file with a line break at its end. *)
Definition edited : Startup.Host :=
  Startup.mkHost
    (Startup.Present (Hex.toString (replicate 32 x2a) +:+ String "010" "") 420)
    true [] 0.

(** The body of a request that describes a connection, with a
    password. *)
Definition described (id : string) : Routes.Payload.t :=
  Routes.Payload.mk (Some id) (Some "box") (Some "example.org")
    (Some (Js.Finite 22)) (Some "root") (Some Vault.Password) (Some true)
    (Some "secret") None None None None.

(** The body of a request that saves a credential under the id
    [Connections], and one whose port is [1e999]. *)
Definition shadowed : Routes.Payload.t :=
  Routes.Payload.mk (Some "Connections") None (Some "example.org")
    (Some (Js.Finite 22)) (Some "root") (Some Vault.Password) None
    (Some "secret") None None None None.
Definition huge : Routes.Payload.t :=
  Routes.Payload.mk (Some "c1") None (Some "example.org")
    (Some Js.Infinity) (Some "root") (Some Vault.Password) None
    (Some "secret") None None None None.

(** A body with an [id] and nothing else. *)
Definition onlyId (id : string) : Routes.Payload.t :=
  Routes.Payload.mk (Some id) None None None None None None None None None
    None None.

(** A client saves the connections [a] and [b] with their credentials
    and then sends [PUT /connections/b] with the body [{"id": "a"}]. *)
Definition crossed : Vault.Store :=
  Routes.serve Toy.env
    [ (Routes.POST, [Routes.plain "connections"], described "a");
      (Routes.POST, [Routes.plain "connections"], described "b");
      (Routes.POST, [], described "a");
      (Routes.POST, [], described "b");
      (Routes.PUT, [Routes.plain "connections"; Routes.plain "b"],
       onlyId "a") ]
    Toy.empty.

(** The process started anew on the files [crossed] has left. *)
Definition restarted : Vault.Store :=
  (Vault.construct
     (Vault.fresh (Vault.credentialsFile crossed)
        (Vault.connectionsFile crossed) true)).2.

(** The lobby after socket 1 has typed [ls] and the shell has opened. *)
Definition busy : State :=
  run ToyRelay.lobby
    [Message 1 (Wiring.inputFrame "s1" (Str "ls") Undefined Undefined);
     CreateShellSettled 0 true].

(** The shell that [busy] has opened for the session. *)
Definition shell : Shell.t := Shell.mk 1 [Str "ls"] None true.

(** Socket 1 once it has named the session. *)
Definition caller : Socket.t := Socket.mk OPEN (Some "s1") true [].

(** The same after the shell has closed. *)
Definition ended : State := step busy (ShellClose "s1").

(** The same after socket 1 has closed. *)
Definition hungUp : State := step busy (Close 1).

(** The lobby with an input and a resize waiting for the shell. *)
Definition waiting : State :=
  run ToyRelay.lobby
    [Message 1 (Wiring.inputFrame "s1" (Str "ls") Undefined Undefined);
     Message 2 (ToyRelay.resize "s1" 80 24)].

(** A complete body for [POST /]. *)
Definition request : Routes.Payload.t :=
  Routes.Payload.mk (Some "c1") None (Some "example.org")
    (Some (Js.Finite 22)) (Some "root") (Some Vault.Password) None
    (Some "secret") None (Some "") None None.

End Samples.
(** * Properties *)

Ltac run :=
  unfold mbind, Vault.M_bind, mret, Vault.M_ret, Vault.gets, Vault.modify,
    Vault.consoleLog; cbn.

(** ** Hex strings *)

Section HexFacts.

Lemma from_ofByte b rest : Hex.from (Hex.ofByte b rest) = b :: Hex.from rest.
Proof. destruct b; reflexivity. Qed.

Lemma from_toString buf : Hex.from (Hex.toString buf) = buf.
Proof.
  induction buf as [|b buf IH]; [reflexivity|].
  change (Hex.toString (b :: buf)) with (Hex.ofByte b (Hex.toString buf)).
  by rewrite from_ofByte, IH.
Qed.

Lemma toString_inj a b : Hex.toString a = Hex.toString b → a = b.
Proof. intros E. by rewrite <- (from_toString a), E, from_toString. Qed.

Lemma digit_free n : Ascii.eqb (Hex.digit n) ":" = false.
Proof.
  unfold Hex.digit.
  destruct n as [|p]; [reflexivity|].
  do 5 (try destruct p as [p|p|]; try reflexivity).
Qed.

Lemma toString_free buf : Props.free ":" (Hex.toString buf) = true.
Proof.
  induction buf as [|b buf IH]; [reflexivity|].
  change (Hex.toString (b :: buf)) with (Hex.ofByte b (Hex.toString buf)).
  unfold Hex.ofByte. cbn [Props.free]. by rewrite !digit_free, IH.
Qed.

Lemma toString_truthy buf : buf ≠ [] → Js.truthy (Hex.toString buf) = true.
Proof. by destruct buf. Qed.

End HexFacts.

(** ** Splitting *)

Section SplitFacts.
Variable sep : ascii.

Lemma split_free s : Props.free sep s = true → Js.split sep s = [s].
Proof.
  induction s as [|c s IH]; [reflexivity|].
  cbn [Props.free Js.split]. intros [Hc Hs]%andb_prop.
  apply negb_true_iff in Hc. by rewrite Hc, (IH Hs).
Qed.

Lemma split_app a b :
  Props.free sep a = true →
  Js.split sep (a +:+ String sep b) = a :: Js.split sep b.
Proof.
  induction a as [|c a IH].
  - intros _. change ("" +:+ String sep b) with (String sep b).
    cbn [Js.split]. by rewrite Ascii.eqb_refl.
  - change (String c a +:+ String sep b) with (String c (a +:+ String sep b)).
    cbn [Props.free Js.split]. intros [Hc Ha]%andb_prop.
    apply negb_true_iff in Hc. by rewrite Hc, (IH Ha).
Qed.

End SplitFacts.

(** ** UTF-8 *)

Section Utf8Facts.

Lemma between_false lo hi lo' hi' b :
  Js.between lo hi b = true → (hi < lo' ∨ hi' < lo)%N → Js.between lo' hi' b = false.
Proof.
  unfold Js.between. intros [H1 H2]%andb_prop Hd.
  apply N.leb_le in H1, H2. apply andb_false_iff.
  destruct Hd; [left|right]; apply N.leb_gt; lia.
Qed.

Lemma second3_not_surrogate b c :
  Js.second3 b c = true → Js.between 237 237 b && Js.between 160 191 c = false.
Proof.
  unfold Js.second3. destruct (Js.between 237 237 b); [|done].
  intros H. cbn. apply (between_false _ _ _ _ _ H). left. lia.
Qed.

Lemma second3_plain b c : Js.second3 b c = true → Js.between 237 237 c = false.
Proof.
  unfold Js.second3. intros H. apply (between_false _ _ _ _ _ H). left.
  destruct (Js.between 237 237 b); lia.
Qed.

Lemma second4_plain b c : Js.second4 b c = true → Js.between 237 237 c = false.
Proof.
  unfold Js.second4. intros H. apply (between_false _ _ _ _ _ H). left.
  destruct (Js.between 244 244 b); lia.
Qed.

Lemma scrub_cons b rest :
  Js.between 237 237 b = false → Js.scrub (b :: rest) = b :: Js.scrub rest.
Proof.
  intros H. cbn [Js.scrub]. rewrite H. cbn. by destruct rest as [|c [|d rest]].
Qed.

Lemma scrub_cons2 b c rest :
  Js.between 237 237 b && Js.between 160 191 c = false →
  Js.scrub (b :: c :: rest) = b :: Js.scrub (c :: rest).
Proof.
  intros H. cbn [Js.scrub]. destruct rest as [|d rest]; [done|]. by rewrite H.
Qed.

Lemma continuation_plain c :
  Js.continuation c = true → Js.between 237 237 c = false.
Proof. intros H. apply (between_false _ _ _ _ _ H). left. lia. Qed.

Lemma valid_sanitize_scrub n : ∀ bs,
  (length bs ≤ n)%nat → Js.valid bs = true →
  Js.sanitize bs = bs ∧ Js.scrub bs = bs.
Proof.
  induction n as [|n IH]; intros bs Hn Hv.
  { destruct bs; [done|cbn in Hn; lia]. }
  destruct bs as [|b rest]; [done|]. cbn [length] in Hn.
  cbn [Js.valid Js.sanitize] in *.
  destruct (Js.between 0 127 b) eqn:H1.
  { destruct (IH rest) as [-> Hs]; [lia|done|]. split; [done|].
    rewrite scrub_cons, Hs; [done|].
    apply (between_false _ _ _ _ _ H1). left. lia. }
  destruct (Js.between 194 223 b) eqn:H2.
  { destruct rest as [|c rest1]; [done|]. cbn [length] in Hn.
    apply andb_prop in Hv as [Hc Hv]. rewrite Hc.
    destruct (IH rest1) as [-> Hs]; [lia|done|]. split; [done|].
    rewrite scrub_cons, scrub_cons, Hs; [done|by apply continuation_plain|].
    apply (between_false _ _ _ _ _ H2). left. lia. }
  destruct (Js.between 224 239 b) eqn:H3.
  { destruct rest as [|c [|d rest2]]; [done..|]. cbn [length] in Hn.
    apply andb_prop in Hv as [[Hc Hd]%andb_prop Hv]. rewrite Hc, Hd.
    destruct (IH rest2) as [-> Hs]; [lia|done|]. split; [done|].
    rewrite scrub_cons2 by (by apply second3_not_surrogate).
    rewrite scrub_cons, scrub_cons, Hs; try done;
      [by apply continuation_plain|by apply (second3_plain b)]. }
  destruct (Js.between 240 244 b) eqn:H4; [|done].
  destruct rest as [|c [|d [|e rest3]]]; [done..|]. cbn [length] in Hn.
  apply andb_prop in Hv as [[[Hc Hd]%andb_prop He]%andb_prop Hv].
  rewrite Hc, Hd, He.
  destruct (IH rest3) as [-> Hs]; [lia|done|]. split; [done|].
  rewrite !scrub_cons, Hs; try done; try (by apply continuation_plain).
  - by apply (second4_plain b).
  - apply (between_false _ _ _ _ _ H4). right. lia.
Qed.

Lemma utf8_roundtrip s : Js.isWellFormed s = true → Js.toWellFormed s = s.
Proof.
  unfold Js.isWellFormed, Js.toWellFormed, Js.utf8Decode, Js.utf8Encode.
  intros H.
  destruct (valid_sanitize_scrub _ _ (le_n _) H) as [Hd He].
  by rewrite He, Hd, String.string_of_list_byte_of_string.
Qed.

End Utf8Facts.

(** ** Insertion-ordered maps *)

Section JsMapFacts.
Context {V : Type}.
Implicit Types (m : JsMap.t V) (k : string) (v : V).

Lemma get_set_eq k v m : JsMap.get k (JsMap.set k v m) = Some v.
Proof.
  induction m as [|[k' v'] m IH]; cbn.
  - by rewrite String.eqb_refl.
  - destruct (String.eqb_spec k k') as [->|Hne]; cbn.
    + by rewrite String.eqb_refl.
    + by apply String.eqb_neq in Hne as ->.
Qed.

Lemma get_set_ne k k' v m :
  k' ≠ k → JsMap.get k' (JsMap.set k v m) = JsMap.get k' m.
Proof.
  intros Hne. induction m as [|[k0 v0] m IH]; cbn.
  - by apply String.eqb_neq in Hne as ->.
  - destruct (String.eqb_spec k k0) as [->|Hk]; cbn.
    + by apply String.eqb_neq in Hne as ->.
    + by rewrite IH.
Qed.

Lemma get_remove_eq k m : JsMap.get k (JsMap.remove k m) = None.
Proof.
  induction m as [|[k' v'] m IH]; [done|]. cbn.
  destruct (String.eqb_spec k k') as [->|Hne]; [done|]. cbn.
  by apply String.eqb_neq in Hne as ->.
Qed.

Lemma get_remove_ne k k' m :
  k' ≠ k → JsMap.get k' (JsMap.remove k m) = JsMap.get k' m.
Proof.
  intros Hne. induction m as [|[k0 v0] m IH]; [done|]. cbn.
  destruct (String.eqb_spec k k0) as [->|Hk]; cbn.
  - by apply String.eqb_neq in Hne as ->.
  - by rewrite IH.
Qed.

Lemma has_set_eq k v m : JsMap.has k (JsMap.set k v m) = true.
Proof. unfold JsMap.has. by rewrite get_set_eq. Qed.

Lemma has_remove_eq k m : JsMap.has k (JsMap.remove k m) = false.
Proof. unfold JsMap.has. by rewrite get_remove_eq. Qed.

Lemma get_elem_of k v m : JsMap.get k m = Some v → (k, v) ∈ m.
Proof.
  induction m as [|[k' v'] m IH]; [done|]. cbn.
  destruct (String.eqb_spec k k') as [->|Hne].
  - intros [= ->]. apply list_elem_of_here.
  - intros H. apply list_elem_of_further, IH, H.
Qed.

Lemma get_values k v m : JsMap.get k m = Some v → v ∈ JsMap.values m.
Proof.
  intros H%get_elem_of. unfold JsMap.values.
  apply (list_elem_of_fmap_2 snd) in H. exact H.
Qed.

Lemma elem_of_remove k k' v m :
  (k', v) ∈ JsMap.remove k m → k' ≠ k ∧ (k', v) ∈ m.
Proof.
  induction m as [|[k0 v0] m IH]; cbn; [by intros ?%elem_of_nil|].
  destruct (String.eqb_spec k k0) as [->|Hne].
  - intros [? ?]%IH. split; [done|]. by apply list_elem_of_further.
  - intros [[= -> ->]|H]%elem_of_cons.
    + split; [done|]. apply list_elem_of_here.
    + destruct (IH H). split; [done|]. by apply list_elem_of_further.
Qed.

Lemma elem_of_remove_2 k k' v m :
  k' ≠ k → (k', v) ∈ m → (k', v) ∈ JsMap.remove k m.
Proof.
  intros Hk. induction m as [|[k0 v0] m IH]; cbn; [done|].
  destruct (String.eqb_spec k k0) as [->|Hne].
  - intros [[= -> ->]|H]%elem_of_cons; [done|]. by apply IH.
  - intros [[= -> ->]|H]%elem_of_cons; [apply list_elem_of_here|].
    by apply list_elem_of_further, IH.
Qed.

Lemma elem_of_set k k' v v' m :
  (k', v') ∈ JsMap.set k v m → (k', v') = (k, v) ∨ (k', v') ∈ m.
Proof.
  induction m as [|[k0 v0] m IH]; cbn.
  - intros ?%list_elem_of_singleton. by left.
  - destruct (String.eqb_spec k k0) as [->|Hne].
    + intros [->|H]%elem_of_cons; [by left|].
      right. by apply list_elem_of_further.
    + intros [->|H]%elem_of_cons.
      * right. apply list_elem_of_here.
      * destruct (IH H) as [?|?]; [by left|].
        right. by apply list_elem_of_further.
Qed.

End JsMapFacts.

(** ** Running the store's methods *)

Section VaultFacts.
Import Vault Props.
Variable env : Env.

Lemma encryptField_run field s :
  encryptField env field s
  = if keyFits env || negb (Js.present field)
    then (Returned (stored env (rngCalls s) field),
          setRngCalls (rngCalls s + given field) s)
    else (Thrown, setRngCalls (S (rngCalls s)) s).
Proof.
  destruct s as [creds conns cfile nfile writable log rng dates].
  unfold encryptField, stored, given, Js.present.
  destruct field as [text|]; [destruct (Js.truthy text) eqn:Ht|].
  - unfold encrypt, randomBytes16, blob, sealedUnder. run.
    destruct (keyFits env); cbn; [|done].
    destruct (gcmSeal _ _ _ _) as [data authTag] eqn:E. cbn.
    do 2 f_equal. unfold setRngCalls. cbn. f_equal. lia.
  - rewrite orb_true_r. run. unfold setRngCalls. cbn. do 2 f_equal. lia.
  - rewrite orb_true_r. run. unfold setRngCalls. cbn. do 2 f_equal. lia.
Qed.

Lemma keyFits_sound : Sound env → keyFits env = true.
Proof. intros [Hk _]. unfold keyFits. by rewrite Hk. Qed.

Lemma persist_run s :
  persist s
  = (tt, if fsWritable s
         then setCredentialsFile (Contents (JsMap.entries (credentials s))) s
         else setConsole (console s ++ ["Failed to persist credentials:"]) s).
Proof. unfold persist. by destruct (fsWritable s). Qed.

Lemma persistConnections_run s :
  persistConnections s
  = (tt, if fsWritable s
         then setConnectionsFile (Contents (JsMap.entries (connections s))) s
         else setConsole (console s ++ ["Failed to persist connections:"]) s).
Proof. unfold persistConnections. by destruct (fsWritable s). Qed.

Lemma save_run id config s :
  save env id config s
  = if throws env config
    then (Thrown,
          setRngCalls (S (rngCalls s)) (setDateCalls (S (S (dateCalls s))) s))
    else (Returned tt,
          (persist
             (setCredentials
                (JsMap.set id (saved env s id config) (credentials s))
                (setRngCalls
                   (rngCalls s + given (Config.password config)
                    + given (Config.privateKey config)
                    + given (Config.passphrase config))
                   (setDateCalls (S (S (dateCalls s))) s)))).2).
Proof.
  unfold save, newDate, throws, saved. run.
  destruct (keyFits env) eqn:Hk,
    (Js.present (Config.password config)) eqn:E1,
    (Js.present (Config.privateKey config)) eqn:E2,
    (Js.present (Config.passphrase config)) eqn:E3;
    cbn [negb andb orb];
    repeat (rewrite encryptField_run; rewrite ?Hk, ?E1, ?E2, ?E3;
            cbn [negb orb]; cbv beta iota);
    unfold given; rewrite ?E1, ?E2, ?E3.
  all: try (destruct (persist _) as [[] s'] eqn:E; cbn; f_equal; rewrite <- E).
  all: destruct s; unfold setRngCalls, setDateCalls, setCredentials; cbn;
    repeat f_equal; lia.
Qed.

Lemma throws_sound config : Sound env → throws env config = false.
Proof. intros H. unfold throws. by rewrite keyFits_sound. Qed.

Lemma save_credentials id config s :
  throws env config = false →
  credentials (save env id config s).2
  = JsMap.set id (saved env s id config) (credentials s).
Proof.
  intros H. rewrite save_run, H, persist_run. by destruct s as [? ? ? ? []].
Qed.

Lemma save_connections id config s :
  connections (save env id config s).2 = connections s.
Proof.
  rewrite save_run, persist_run. destruct (throws env config); [done|].
  by destruct s as [? ? ? ? []].
Qed.

Lemma save_rngCalls id config s :
  throws env config = false →
  rngCalls (save env id config s).2
  = rngCalls s + given (Config.password config)
    + given (Config.privateKey config) + given (Config.passphrase config).
Proof.
  intros H. rewrite save_run, H, persist_run. by destruct s as [? ? ? ? []].
Qed.

Lemma save_rngCalls_le id config s :
  (rngCalls s ≤ rngCalls (save env id config s).2)%nat.
Proof.
  rewrite save_run, persist_run. destruct (throws env config); cbn; [lia|].
  destruct s as [? ? ? ? []]; cbn; lia.
Qed.

Lemma get_run id s :
  get env id s
  = match JsMap.get id (credentials s) with
    | None => (None, s)
    | Some c =>
        let now := dateNow env (dateCalls s) in
        let s1 :=
          (persist
             (setCredentials
                (JsMap.set id (StoredCredential.setLastUsedAt now c)
                   (credentials s))
                (setDateCalls (S (dateCalls s)) s))).2 in
        match decryptAll env c with
        | Some result => (Some result, s1)
        | None =>
            (None, setConsole (console s1 ++ ["Failed to decrypt credential:"]) s1)
        end
    end.
Proof.
  unfold get, newDate. run.
  destruct (JsMap.get id (credentials s)) as [c|]; [|done].
  cbn. rewrite persist_run. cbn.
  by destruct (decryptAll env c).
Qed.

Lemma decryptBlob_sealed credentialIv iv text :
  Sound env → length iv = 16 →
  decryptBlob env credentialIv (sealedUnder env iv text)
  = Some (Js.toWellFormed text).
Proof.
  intros Hs Hiv. pose proof (keyFits_sound Hs) as Hk.
  destruct Hs as (_ & _ & Hopen). unfold decryptBlob, sealedUnder.
  set (sealed := gcmSeal _ _ _ _).
  change (":" +:+ ?x) with (String ":" x).
  rewrite split_app by apply toString_free.
  change (":" +:+ ?x) with (String ":" x).
  rewrite split_app by apply toString_free.
  rewrite split_free by apply toString_free.
  unfold decrypt. rewrite Hk.
  destruct (Hopen iv (Js.utf8Encode text) Hiv) as [Htag Hok].
  fold sealed in Htag, Hok.
  rewrite toString_truthy by (by destruct sealed.2).
  by rewrite !from_toString, Hok.
Qed.

Lemma decryptBlob_blob credentialIv n text :
  Sound env →
  decryptBlob env credentialIv (blob env n text) = Some (Js.toWellFormed text).
Proof. intros Hs. apply decryptBlob_sealed; [done|]. apply Hs. Qed.

Lemma decryptField_stored credentialIv n field :
  Sound env →
  decryptField env credentialIv (stored env n field) = Some (returned field).
Proof.
  intros Hs. unfold decryptField, stored, returned, kept.
  destruct field as [text|]; [|done].
  destruct (Js.truthy text) eqn:Ht; [|done].
  assert (Js.truthy (blob env n text) = true) as ->.
  { unfold blob, sealedUnder. destruct Hs as (_ & Hlen & _). specialize (Hlen n).
    by destruct (randomBytes env n). }
  by rewrite decryptBlob_blob.
Qed.

Lemma decryptAll_saved s id config :
  Sound env →
  decryptAll env (saved env s id config)
  = Some (Credential.mk (Config.host config) (Config.port config)
            (Config.username config) (Config.authType config)
            (returned (Config.password config))
            (returned (Config.privateKey config))
            (returned (Config.passphrase config))).
Proof.
  intros Hs. unfold decryptAll, saved. cbn.
  by rewrite !decryptField_stored.
Qed.

Lemma get_after_save id config s :
  Sound env →
  (get env id (save env id config s).2).1
  = Some (Credential.mk (Config.host config) (Config.port config)
            (Config.username config) (Config.authType config)
            (returned (Config.password config))
            (returned (Config.privateKey config))
            (returned (Config.passphrase config))).
Proof.
  intros Hs. rewrite get_run, save_credentials, get_set_eq by (by apply throws_sound).
  cbn zeta. by rewrite decryptAll_saved.
Qed.

Lemma returned_wellFormed field :
  (∀ text, kept field = Some text → Js.isWellFormed text = true) →
  returned field = kept field.
Proof.
  unfold returned. destruct (kept field) as [text|]; [|done].
  intros H. cbn. by rewrite utf8_roundtrip by (by apply H).
Qed.

Lemma returned_config config :
  wellFormed config →
  returned (Config.password config) = kept (Config.password config) ∧
  returned (Config.privateKey config) = kept (Config.privateKey config) ∧
  returned (Config.passphrase config) = kept (Config.passphrase config).
Proof.
  intros H. repeat split; apply returned_wellFormed; intros text Ht;
    apply H; apply list_elem_of_omap; eexists; (split; [|exact Ht]);
    set_solver.
Qed.

End VaultFacts.

Section ToyFacts.
Import Vault Props.

Lemma bufferEqb_refl b : Toy.bufferEqb b b = true.
Proof.
  induction b as [|x b IH]; [done|]. cbn.
  rewrite IH, andb_true_r. by apply Byte.byte_dec_lb.
Qed.

Lemma toy_sound : Sound Toy.env.
Proof.
  split; [reflexivity|]. split; [reflexivity|].
  intros iv text Hiv. cbn. split.
  - unfold Toy.tagOf. rewrite length_take, !length_app, length_replicate. lia.
  - by rewrite bufferEqb_refl, rev_involutive.
Qed.

End ToyFacts.

Section VaultReads.
Import Vault Props.

(** C1 as stated does not hold: a password with an unpaired surrogate,
    here U+D800 between the letters a and b, is saved and read back
    under a sound cipher, and what [get] returns has U+FFFD in the place
    of the surrogate. *)
Lemma surrogate_is_not_kept :
  Sound Toy.env ∧
  Toy.unpaired ≠ "" ∧
  (get Toy.env "c1"
     (save Toy.env "c1" (Toy.config (Some Toy.unpaired) None None)
        Toy.empty).2).1
  = Some (Credential.mk "example.org" 22 "root" Password (Some Toy.replaced)
            None None) ∧
  Toy.replaced ≠ Toy.unpaired.
Proof.
  split; [exact toy_sound|]. split; [discriminate|].
  split; [reflexivity|discriminate].
Qed.

(** C1, amended. Vault round trip: whatever the store held before,
    after [save(id, config)] the call [get(id)] returns a credential;
    each secret of [config] that is present and not empty (password,
    private key, passphrase) comes back as the string that its UTF-8
    decodes to, which is the secret itself when it is a well-formed
    string, and otherwise the secret with U+FFFD for each unpaired
    surrogate. *)
Theorem vault_roundtrip env s id config :
  Sound env →
  ∃ result,
    (get env id (save env id config s).2).1 = Some result ∧
    (∀ p, Config.password config = Some p → p ≠ "" →
          Credential.password result = Some (Js.toWellFormed p) ∧
          (Js.isWellFormed p = true → Credential.password result = Some p)) ∧
    (∀ p, Config.privateKey config = Some p → p ≠ "" →
          Credential.privateKey result = Some (Js.toWellFormed p) ∧
          (Js.isWellFormed p = true → Credential.privateKey result = Some p)) ∧
    (∀ p, Config.passphrase config = Some p → p ≠ "" →
          Credential.passphrase result = Some (Js.toWellFormed p) ∧
          (Js.isWellFormed p = true → Credential.passphrase result = Some p)).
Proof.
  intros Hs. eexists. split; [by apply get_after_save|].
  cbn. unfold returned.
  assert (∀ field p, field = Some p → p ≠ "" →
            Js.toWellFormed <$> kept field = Some (Js.toWellFormed p) ∧
            (Js.isWellFormed p = true →
             Js.toWellFormed <$> kept field = Some p)) as H.
  { intros field p -> Hp. destruct p as [|a p]; [done|].
    change (kept (Some (String a p))) with (Some (String a p)).
    split; [done|]. intros Hw. by rewrite <- (utf8_roundtrip _ Hw) at 2. }
  split; [|split]; intros q; apply H.
Qed.

Lemma vault_roundtrip_witness :
  Sound Toy.env ∧
  ∃ result,
    (get Toy.env "c1"
       (save Toy.env "c1" (Toy.config (Some "secret") None (Some "pass"))
          Toy.empty).2).1 = Some result ∧
    (∀ p, Some "secret" = Some p → p ≠ "" →
          Credential.password result = Some (Js.toWellFormed p) ∧
          (Js.isWellFormed p = true → Credential.password result = Some p)) ∧
    (∀ p, @None string = Some p → p ≠ "" →
          Credential.privateKey result = Some (Js.toWellFormed p) ∧
          (Js.isWellFormed p = true → Credential.privateKey result = Some p)) ∧
    (∀ p, Some "pass" = Some p → p ≠ "" →
          Credential.passphrase result = Some (Js.toWellFormed p) ∧
          (Js.isWellFormed p = true → Credential.passphrase result = Some p)).
Proof.
  split; [exact toy_sound|].
  exact (vault_roundtrip Toy.env Toy.empty "c1"
           (Toy.config (Some "secret") None (Some "pass")) toy_sound).
Defined.

Lemma undecryptable_decryptAll env c :
  Undecryptable env c → decryptAll env c = None.
Proof.
  intros (b & Hb & Hfail). unfold blobs in Hb.
  apply list_elem_of_omap in Hb as (field & Hin & Hf).
  destruct field as [b'|]; [|done]. cbn in Hf.
  destruct (Js.truthy b') eqn:Ht; [|done]. injection Hf as ->.
  unfold decryptAll.
  repeat (apply elem_of_cons in Hin as [Hin|Hin]); [| | |by apply elem_of_nil in Hin].
  - rewrite <- Hin. cbn. by rewrite Ht, Hfail.
  - destruct (decryptField env _ (StoredCredential.encryptedPassword c)); [|done].
    cbn. rewrite <- Hin. cbn. by rewrite Ht, Hfail.
  - destruct (decryptField env _ (StoredCredential.encryptedPassword c)); [|done].
    cbn.
    destruct (decryptField env _ (StoredCredential.encryptedPrivateKey c)); [|done].
    cbn. rewrite <- Hin. cbn. by rewrite Ht, Hfail.
Qed.

(** C2. Fail-closed decryption: when some encrypted field of the
    stored credential cannot be decrypted, [get(id)] returns [null],
    hence no field at all, decrypted or not, and the decryption error
    is the last line reported on the console. *)
Theorem get_fail_closed env s id c :
  JsMap.get id (credentials s) = Some c →
  Undecryptable env c →
  (get env id s).1 = None ∧
  last (console (get env id s).2) = Some "Failed to decrypt credential:".
Proof.
  intros Hc Hu. rewrite get_run, Hc. cbn zeta.
  rewrite (undecryptable_decryptAll _ _ Hu). cbn.
  split; [done|]. by rewrite last_snoc.
Qed.


Lemma forged_undecryptable : Undecryptable Toy.env Toy.forged.
Proof.
  exists "00000000000000000000000000000000:746572636573:746572636573000000000000000000ff".
  split; [apply list_elem_of_here | reflexivity].
Qed.

Lemma get_fail_closed_witness :
  JsMap.get "c1" (credentials Toy.tampered) = Some Toy.forged ∧
  Undecryptable Toy.env Toy.forged ∧
  (get Toy.env "c1" Toy.tampered).1 = None ∧
  last (console (get Toy.env "c1" Toy.tampered).2)
  = Some "Failed to decrypt credential:".
Proof.
  split; [reflexivity|]. split; [exact forged_undecryptable|].
  exact (get_fail_closed Toy.env Toy.tampered "c1" Toy.forged
           eq_refl forged_undecryptable).
Defined.

(** C3 as stated does not hold: on the store [Toy.tampered] the read
    of ["c1"] fails, its credential cannot be decrypted, and yet the
    credential's last-used time has moved from the second to the
    third reading of the clock and the changed collection was written
    to the file. *)
Lemma failed_get_touches_store :
  (get Toy.env "c1" Toy.tampered).1 = None ∧
  decryptAll Toy.env Toy.forged = None ∧
  credentials (get Toy.env "c1" Toy.tampered).2 ≠ credentials Toy.tampered ∧
  (StoredCredential.lastUsedAt <$>
     JsMap.get "c1" (credentials (get Toy.env "c1" Toy.tampered).2))
  = Some "2024-01-01T00:00:02Z" ∧
  (StoredCredential.lastUsedAt <$> JsMap.get "c1" (credentials Toy.tampered))
  = Some "2024-01-01T00:00:01Z" ∧
  credentialsFile (get Toy.env "c1" Toy.tampered).2
  = Contents (credentials (get Toy.env "c1" Toy.tampered).2).
Proof.
  repeat split; try reflexivity.
  intros H.
  apply (f_equal (fun m => StoredCredential.lastUsedAt <$> JsMap.get "c1" m)) in H.
  vm_compute in H. discriminate H.
Qed.

(** C3, amended. A read of an unknown id changes nothing.  A read
    of a known id stamps the credential with the current time and
    persists the collection before it decrypts anything, whether or
    not the decryption then succeeds: the credentials are as before
    but for that one time stamp, the connections are untouched, and
    the result is that of the decryption. *)
Theorem get_touches_then_decrypts env s id :
  match JsMap.get id (credentials s) with
  | None => get env id s = (None, s)
  | Some c =>
      let s' := (get env id s).2 in
      (get env id s).1 = decryptAll env c ∧
      credentials s'
      = JsMap.set id
          (StoredCredential.setLastUsedAt (dateNow env (dateCalls s)) c)
          (credentials s) ∧
      connections s' = connections s ∧
      (fsWritable s = true →
       credentialsFile s' = Contents (JsMap.entries (credentials s')))
  end.
Proof.
  rewrite get_run. destruct (JsMap.get id (credentials s)) as [c|]; [|done].
  cbn zeta. rewrite persist_run. cbn.
  destruct (decryptAll env c), (fsWritable s); cbn; repeat split; done.
Qed.

Lemma encryptField_kept env field :
  encryptField env (kept field) = encryptField env field.
Proof. by destruct field as [[|a text]|]. Qed.

Lemma save_omitEmpty env id config s :
  save env id (omitEmpty config) s = save env id config s.
Proof.
  unfold save, omitEmpty. cbn. by rewrite !encryptField_kept.
Qed.

(** C10. Empty secrets are absent: [save] does the same with a
    configuration as with the one that leaves its empty secrets out;
    the stored credential has no encrypted field for a secret given as
    the empty string, and the following [get(id)] returns a credential
    without it. *)
Theorem empty_secret_is_absent env s id config :
  Sound env →
  save env id config s = save env id (omitEmpty config) s ∧
  ∃ c result,
    JsMap.get id (credentials (save env id config s).2) = Some c ∧
    (get env id (save env id config s).2).1 = Some result ∧
    (Config.password config = Some "" →
     StoredCredential.encryptedPassword c = None ∧
     Credential.password result = None) ∧
    (Config.privateKey config = Some "" →
     StoredCredential.encryptedPrivateKey c = None ∧
     Credential.privateKey result = None) ∧
    (Config.passphrase config = Some "" →
     StoredCredential.encryptedPassphrase c = None ∧
     Credential.passphrase result = None).
Proof.
  intros Hs. split; [by rewrite save_omitEmpty|].
  eexists _, _.
  split; [by rewrite save_credentials, get_set_eq by (by apply throws_sound)|].
  split; [by apply get_after_save|].
  cbn. unfold returned. repeat split; by rewrite H.
Qed.

End VaultReads.

Section VaultFrames.
Import Vault Props.
Variable env : Env.

Lemma delete_run id s :
  delete id s
  = let s1 := setCredentials (JsMap.remove id (credentials s)) s in
    if JsMap.has id (credentials s) then (true, (persist s1).2)
    else (false, s1).
Proof.
  unfold delete, JsMap.delete. run.
  destruct (JsMap.has id (credentials s)); [|done].
  by rewrite persist_run.
Qed.

Lemma deleteConnection_run id s :
  deleteConnection id s
  = let s1 := setConnections (JsMap.remove id (connections s)) s in
    if JsMap.has id (connections s)
    then (true, (persistConnections (delete id s1).2).2)
    else (false, s1).
Proof.
  unfold deleteConnection, JsMap.delete. run.
  destruct (JsMap.has id (connections s)); [|done].
  destruct (delete id _) as [b s2]. cbn.
  by rewrite persistConnections_run.
Qed.

Lemma persist_rngCalls s : rngCalls (persist s).2 = rngCalls s.
Proof. rewrite persist_run. by destruct (fsWritable s). Qed.

Lemma persistConnections_rngCalls s :
  rngCalls (persistConnections s).2 = rngCalls s.
Proof. rewrite persistConnections_run. by destruct (fsWritable s). Qed.

Lemma delete_rngCalls id s : rngCalls (delete id s).2 = rngCalls s.
Proof.
  rewrite delete_run. cbn zeta.
  destruct (JsMap.has id (credentials s)); [|done].
  cbn [snd]. by rewrite persist_rngCalls.
Qed.

Lemma call_rngCalls c s : (rngCalls s ≤ rngCalls (call env c s))%nat.
Proof.
  destruct c; cbn [call]; try done.
  - apply save_rngCalls_le.
  - rewrite get_run. destruct (JsMap.get id (credentials s)) as [c|]; [|done].
    cbn zeta. destruct (decryptAll env c); cbn; by rewrite persist_rngCalls.
  - by rewrite delete_rngCalls.
  - unfold saveConnection. run. by rewrite persistConnections_rngCalls.
  - unfold updateConnection. run.
    destruct (JsMap.get id (connections s)); [|done].
    cbn. rewrite persistConnections_run. cbn. by destruct (fsWritable s).
  - rewrite deleteConnection_run. cbn zeta.
    destruct (JsMap.has id (connections s)); [|done].
    cbn [snd]. by rewrite persistConnections_rngCalls, delete_rngCalls.
Qed.

Lemma calls_rngCalls cs s : (rngCalls s ≤ rngCalls (calls env cs s))%nat.
Proof.
  revert s. induction cs as [|c cs IH]; intros s; [done|].
  cbn. etrans; [apply (call_rngCalls c)|apply IH].
Qed.

(** *** The vectors of a saved credential *)

Lemma truthy_sealedUnder iv text : Js.truthy (sealedUnder env iv text) = true.
Proof. unfold sealedUnder. by destruct (Hex.toString iv). Qed.

Lemma ivOf_sealedUnder iv text :
  ivOf (sealedUnder env iv text) = Hex.toString iv.
Proof.
  unfold ivOf, sealedUnder. change (":" +:+ ?x) with (String ":" x).
  by rewrite split_app by apply toString_free.
Qed.

Lemma blobs_saved s id config :
  blobs (saved env s id config)
  = zip_with (sealedUnder env)
      (randomBytes env <$> draws (rngCalls s) config) (secrets config).
Proof.
  unfold blobs, saved, draws, secrets, stored, given, kept, Js.present, blob.
  cbn.
  destruct (Config.password config) as [pw|];
    [destruct (Js.truthy pw) eqn:E1|];
  (destruct (Config.privateKey config) as [pk|];
    [destruct (Js.truthy pk) eqn:E2|]);
  (destruct (Config.passphrase config) as [pp|];
    [destruct (Js.truthy pp) eqn:E3|]);
  cbn; rewrite ?E1, ?E2, ?E3; cbn; by rewrite ?truthy_sealedUnder.
Qed.

Lemma draws_range n config k :
  k ∈ draws n config →
  (n ≤ k < n + given (Config.password config)
           + given (Config.privateKey config)
           + given (Config.passphrase config))%nat.
Proof.
  unfold draws, given.
  destruct (Js.present (Config.password config)),
           (Js.present (Config.privateKey config)),
           (Js.present (Config.passphrase config)); cbn;
    rewrite ?elem_of_cons, ?elem_of_nil; lia.
Qed.

Lemma draws_NoDup n config : NoDup (draws n config).
Proof.
  unfold draws, given.
  destruct (Js.present (Config.password config)),
           (Js.present (Config.privateKey config)),
           (Js.present (Config.passphrase config)); cbn;
    repeat (apply NoDup_cons; split; [rewrite ?elem_of_cons, ?elem_of_nil; lia|]);
    apply NoDup_nil_2.
Qed.

Lemma draws_length n config : length (draws n config) = length (secrets config).
Proof.
  unfold draws, secrets, kept, Js.present.
  destruct (Config.password config) as [pw|];
    [destruct (Js.truthy pw) eqn:E1|];
  (destruct (Config.privateKey config) as [pk|];
    [destruct (Js.truthy pk) eqn:E2|]);
  (destruct (Config.passphrase config) as [pp|];
    [destruct (Js.truthy pp) eqn:E3|]);
  cbn; by rewrite ?E1, ?E2, ?E3.
Qed.

Lemma elem_of_zip_sealed b ivs texts :
  b ∈ zip_with (sealedUnder env) ivs texts →
  ∃ iv, iv ∈ ivs ∧ ivOf b = Hex.toString iv.
Proof.
  revert texts. induction ivs as [|iv ivs IH]; intros [|text texts];
    cbn; try (by intros ?%elem_of_nil).
  intros [->|H]%elem_of_cons.
  - exists iv. split; [apply list_elem_of_here|apply ivOf_sealedUnder].
  - destruct (IH _ H) as (iv' & Hin & Hiv). exists iv'.
    split; [by apply list_elem_of_further|done].
Qed.

End VaultFrames.

Section VaultVectors.
Import Vault Props.

(** C4. Fresh vectors: take two saves under a sound cipher, with any
    calls in between, and suppose the blocks of entropy drawn up to the
    end of the second are pairwise distinct.  Each save draws one block
    for each secret it is given and stores that secret as the string of
    the secret sealed under this very block; the blocks the two saves
    seal under are pairwise distinct, within one save and across the
    two; none of them was drawn before its save began; and no stored
    string of the first save equals one of the second, also for equal
    plaintexts. *)
Theorem fresh_vectors env s id config between id' config' :
  Sound env →
  let s1 := (save env id config s).2 in
  let s2 := calls env between s1 in
  let s3 := (save env id' config' s2).2 in
  (∀ i j, (i < j < rngCalls s3)%nat → randomBytes env i ≠ randomBytes env j) →
  ∃ c c',
    JsMap.get id (credentials s1) = Some c ∧
    JsMap.get id' (credentials s3) = Some c' ∧
    length (draws (rngCalls s) config) = length (secrets config) ∧
    length (draws (rngCalls s2) config') = length (secrets config') ∧
    blobs c
    = zip_with (sealedUnder env)
        (randomBytes env <$> draws (rngCalls s) config) (secrets config) ∧
    blobs c'
    = zip_with (sealedUnder env)
        (randomBytes env <$> draws (rngCalls s2) config') (secrets config') ∧
    NoDup (randomBytes env <$>
             (draws (rngCalls s) config ++ draws (rngCalls s2) config')) ∧
    (∀ k, (k < rngCalls s)%nat →
          randomBytes env k ∉ randomBytes env <$> draws (rngCalls s) config) ∧
    (∀ k, (k < rngCalls s2)%nat →
          randomBytes env k ∉ randomBytes env <$> draws (rngCalls s2) config') ∧
    (∀ b b', b ∈ blobs c → b' ∈ blobs c' → b ≠ b').
Proof.
  intros Hs s1 s2 s3 Hrng.
  pose proof (throws_sound env config Hs) as Ht.
  pose proof (throws_sound env config' Hs) as Ht'.
  exists (saved env s id config), (saved env s2 id' config').
  assert (rngCalls s1
          = rngCalls s + given (Config.password config)
            + given (Config.privateKey config)
            + given (Config.passphrase config))%nat as E1
    by (by apply save_rngCalls).
  assert (rngCalls s3
          = rngCalls s2 + given (Config.password config')
            + given (Config.privateKey config')
            + given (Config.passphrase config'))%nat as E3
    by (by apply save_rngCalls).
  assert (rngCalls s1 ≤ rngCalls s2)%nat as E2 by apply calls_rngCalls.
  assert (∀ x y, (x < rngCalls s3)%nat → (y < rngCalls s3)%nat →
                 randomBytes env x = randomBytes env y → x = y) as Hinj.
  { intros x y Hx Hy Hxy.
    destruct (Nat.lt_trichotomy x y) as [Hlt|[->|Hlt]]; [|done|].
    - by destruct (Hrng x y).
    - by destruct (Hrng y x). }
  assert (NoDup (randomBytes env <$>
                   (draws (rngCalls s) config ++ draws (rngCalls s2) config')))
    as Hnd.
  { apply NoDup_fmap_2_strong.
    - intros x y Hx Hy. apply Hinj.
      + apply elem_of_app in Hx as [Hx%draws_range|Hx%draws_range]; lia.
      + apply elem_of_app in Hy as [Hy%draws_range|Hy%draws_range]; lia.
    - apply NoDup_app. split; [apply draws_NoDup|]. split; [|apply draws_NoDup].
      intros x Hx%draws_range Hx'%draws_range. lia. }
  split; [unfold s1; by rewrite save_credentials, get_set_eq|].
  split; [unfold s3; by rewrite save_credentials, get_set_eq|].
  split; [apply draws_length|]. split; [apply draws_length|].
  split; [apply blobs_saved|]. split; [apply blobs_saved|].
  split; [exact Hnd|]. split; [|split].
  - intros k Hk (k' & Hkk' & Hk'%draws_range)%list_elem_of_fmap.
    apply Hinj in Hkk'; lia.
  - intros k Hk (k' & Hkk' & Hk'%draws_range)%list_elem_of_fmap.
    apply Hinj in Hkk'; lia.
  - intros b b' Hb Hb' <-. rewrite blobs_saved in Hb, Hb'.
    apply elem_of_zip_sealed in Hb as (iv & Hin & Hiv).
    apply elem_of_zip_sealed in Hb' as (iv' & Hin' & Hiv').
    rewrite Hiv in Hiv'. apply toString_inj in Hiv'. subst iv'.
    rewrite fmap_app in Hnd. apply NoDup_app in Hnd as (_ & Hdisj & _).
    by apply (Hdisj iv).
Qed.

Lemma toy_entropy_distinct i j : (i < j < 6)%nat → Toy.entropy i ≠ Toy.entropy j.
Proof.
  intros Hij.
  do 6 (destruct i as [|i];
        [do 6 (destruct j as [|j]; [try lia; discriminate|]); lia|]).
  lia.
Qed.

Lemma fresh_vectors_witness :
  let config := Toy.config (Some "secret") (Some "key") (Some "secret") in
  let s1 := (save Toy.env "c1" config Toy.empty).2 in
  let s2 := calls Toy.env [Get "c1"] s1 in
  let s3 := (save Toy.env "c2" config s2).2 in
  Sound Toy.env ∧
  (∀ i j, (i < j < rngCalls s3)%nat → Toy.entropy i ≠ Toy.entropy j) ∧
  ∃ c c',
    JsMap.get "c1" (credentials s1) = Some c ∧
    JsMap.get "c2" (credentials s3) = Some c' ∧
    length (draws (rngCalls Toy.empty) config) = length (secrets config) ∧
    length (draws (rngCalls s2) config) = length (secrets config) ∧
    blobs c
    = zip_with (sealedUnder Toy.env)
        (Toy.entropy <$> draws (rngCalls Toy.empty) config) (secrets config) ∧
    blobs c'
    = zip_with (sealedUnder Toy.env)
        (Toy.entropy <$> draws (rngCalls s2) config) (secrets config) ∧
    NoDup (Toy.entropy <$>
             (draws (rngCalls Toy.empty) config ++ draws (rngCalls s2) config)) ∧
    (∀ k, (k < rngCalls Toy.empty)%nat →
          Toy.entropy k ∉ Toy.entropy <$> draws (rngCalls Toy.empty) config) ∧
    (∀ k, (k < rngCalls s2)%nat →
          Toy.entropy k ∉ Toy.entropy <$> draws (rngCalls s2) config) ∧
    (∀ b b', b ∈ blobs c → b' ∈ blobs c' → b ≠ b').
Proof.
  split; [exact toy_sound|]. split; [exact toy_entropy_distinct|].
  exact (fresh_vectors Toy.env Toy.empty "c1"
           (Toy.config (Some "secret") (Some "key") (Some "secret"))
           [Get "c1"] "c2"
           (Toy.config (Some "secret") (Some "key") (Some "secret"))
           toy_sound toy_entropy_distinct).
Defined.

End VaultVectors.

Section Reconcile.
Import Vault Props.

Lemma get_reconcile id entries m :
  JsMap.get id (reconcile entries m)
  = match JsMap.get id m with
    | Some connection => Some connection
    | None => synthesized id <$> JsMap.get id entries
    end.
Proof.
  revert m. induction entries as [|[k c] entries IH]; intros m.
  { cbn. by destruct (JsMap.get id m). }
  cbn [reconcile fold_left fst snd]. fold (reconcile entries).
  rewrite IH. cbn [JsMap.get].
  destruct (String.eqb_spec id k) as [->|Hne].
  - unfold JsMap.has. destruct (JsMap.get k m) eqn:Hk.
    + by rewrite Hk.
    + by rewrite get_set_eq.
  - destruct (JsMap.has k m); [done|]. by rewrite get_set_ne.
Qed.

Lemma lacking_cons k c entries m :
  negb (JsMap.has k m)
  || lacking entries
       (if JsMap.has k m then m else JsMap.set k (synthesized k c) m)
  = lacking ((k, c) :: entries) m.
Proof. cbn. by destruct (JsMap.has k m). Qed.

Lemma migrateOne_run k c b s :
  migrateOne (k, c) b s
  = if JsMap.has k (connections s) then (b, s)
    else (true,
          setConsole
            (console s ++ ["Migrated connection: " +:+
                           StoredCredential.username c +:+ "@" +:+
                           StoredCredential.host c])
            (setConnections (JsMap.set k (synthesized k c) (connections s)) s)).
Proof. unfold migrateOne. run. by destruct (JsMap.has k (connections s)). Qed.

Lemma forOf_cons {A B} (x : A) xs (body : A → B → M B) b s :
  forOf (x :: xs) body b s
  = forOf xs body (body x b s).1 (body x b s).2.
Proof. cbn. unfold mbind, M_bind. by destruct (body x b s). Qed.

Lemma migrate_loop entries b s :
  (forOf entries migrateOne b s).1 = b || lacking entries (connections s) ∧
  connections (forOf entries migrateOne b s).2
  = reconcile entries (connections s) ∧
  credentials (forOf entries migrateOne b s).2 = credentials s ∧
  fsWritable (forOf entries migrateOne b s).2 = fsWritable s ∧
  connectionsFile (forOf entries migrateOne b s).2 = connectionsFile s.
Proof.
  revert b s. induction entries as [|[k c] entries IH]; intros b s.
  { cbn. by rewrite orb_false_r. }
  rewrite <- lacking_cons.
  cbn [reconcile fold_left fst snd]. fold (reconcile entries).
  rewrite forOf_cons, migrateOne_run.
  destruct (JsMap.has k (connections s)) eqn:Hk.
  - apply IH.
  - cbv iota. cbn [fst snd].
    destruct (IH true
      (setConsole
         (console s ++ ["Migrated connection: " +:+
                        StoredCredential.username c +:+ "@" +:+
                        StoredCredential.host c])
         (setConnections (JsMap.set k (synthesized k c) (connections s)) s)))
      as (-> & -> & -> & -> & ->).
    by rewrite orb_true_r.
Qed.

Lemma migrate_run s :
  let s' := (migrateFromCredentials s).2 in
  connections s' = reconcile (credentials s) (connections s) ∧
  credentials s' = credentials s ∧
  (lacking (credentials s) (connections s) = true → fsWritable s = true →
   connectionsFile s' = Contents (JsMap.entries (connections s'))).
Proof.
  unfold migrateFromCredentials. run.
  pose proof (migrate_loop (JsMap.entries (credentials s)) false s) as H.
  destruct (forOf _ _ _ _) as [migrated s1].
  cbn in H. destruct H as (-> & Hc & Hcr & Hw & Hf).
  unfold JsMap.entries in *.
  destruct (lacking (credentials s) (connections s)).
  - rewrite persistConnections_run, Hw. destruct (fsWritable s); cbn; by rewrite ?Hc.
  - cbn. by rewrite Hc.
Qed.

End Reconcile.

Section VaultConnections.
Import Vault Props.

Lemma construct_run cf nf w :
  let s := (construct (fresh cf nf w)).2 in
  credentials s = loaded cf ∧
  connections s = reconcile (loaded cf) (loaded nf) ∧
  (lacking (loaded cf) (loaded nf) = true → w = true →
   connectionsFile s = Contents (JsMap.entries (connections s))).
Proof.
  unfold construct, load, loadConnections, fresh. run.
  destruct cf as [| |ces], nf as [| |nes]; cbn;
    match goal with
    | |- context [migrateFromCredentials ?s0] =>
        destruct (migrate_run s0) as (Hc & Hcr & Hf);
        destruct (migrateFromCredentials s0) as [[] s1]
    end; cbn in *; (split; [exact Hcr | split; [exact Hc | exact Hf]]).
Qed.

(** C6 as stated does not hold: a client has saved the connection [b] and
    its credential and has then sent [PUT /connections/b] with the body
    [{"id": "a"}].  On the files this leaves, the constructor loads the
    credential [b], finds an entry under the key [b] and synthesizes
    nothing: [getConnections()] has no entry whose id is [b]. *)
Lemma renamed_connection_is_not_restored :
  JsMap.has "b" (credentials Samples.restarted) = true ∧
  (getConnections Samples.restarted).1 ≠ [] ∧
  ∀ c, c ∈ (getConnections Samples.restarted).1 →
       SavedConnectionInfo.id c = "a" ∧
       SavedConnectionInfo.name c = Some "box".
Proof.
  split; [by vm_compute|]. split; [by vm_compute|].
  apply Forall_forall. vm_compute. repeat constructor.
Qed.

(** C6, amended. Startup reconciliation: the constructor
    loads the credentials of the credentials file, and for every
    credential of that file there is afterwards a connection filed
    under the credential's id, which [getConnections()] lists.  Where
    the connections file had an entry under that id it is that entry,
    whatever [id] it carries inside; where it had none, it is the
    synthesized one, carrying the credential's id, named
    [username@host] and flagged as having stored credentials.  So when
    the connections file holds every connection under its own id, the
    entry carries the id of the credential.  When some credential
    lacked a connection, the connections were persisted (the file
    system accepting the write). *)
Theorem construct_reconciles cf nf w :
  let s := (construct (fresh cf nf w)).2 in
  credentials s = loaded cf ∧
  (∀ id c,
     JsMap.get id (loaded cf) = Some c →
     ∃ connection,
       JsMap.get id (connections s) = Some connection ∧
       connection ∈ (getConnections s).1 ∧
       (∀ filed, JsMap.get id (loaded nf) = Some filed → connection = filed) ∧
       (JsMap.has id (loaded nf) = false →
        connection = synthesized id c ∧
        SavedConnectionInfo.id connection = id ∧
        SavedConnectionInfo.name connection
        = Some (StoredCredential.username c +:+ "@" +:+
                StoredCredential.host c) ∧
        SavedConnectionInfo.hasStoredCredentials connection = Some true) ∧
       (Keyed (loaded nf) → SavedConnectionInfo.id connection = id)) ∧
  (lacking (loaded cf) (loaded nf) = true → w = true →
   connectionsFile s = Contents (JsMap.entries (connections s))).
Proof.
  intros s. destruct (construct_run cf nf w) as (Hc & Hn & Hf).
  fold s in Hc, Hn, Hf. split; [done|]. split; [|done].
  intros id c Hid.
  assert (∃ connection,
            JsMap.get id (connections s) = Some connection ∧
            (∀ filed, JsMap.get id (loaded nf) = Some filed →
                      connection = filed) ∧
            (JsMap.has id (loaded nf) = false → connection = synthesized id c))
    as (connection & Hget & Hfiled & Hsyn).
  { rewrite Hn, get_reconcile. unfold JsMap.has.
    destruct (JsMap.get id (loaded nf)) as [x|].
    - exists x. split; [done|]. split; [by intros ? [= ->]|done].
    - rewrite Hid. by eexists. }
  exists connection. split; [done|]. split; [|split; [done|split]].
  - unfold getConnections, gets. cbn. by eapply get_values.
  - intros ->%Hsyn. done.
  - intros Hk. unfold JsMap.has in Hsyn.
    destruct (JsMap.get id (loaded nf)) as [x|] eqn:Hx.
    + rewrite (Hfiled x eq_refl). apply Hk. by apply get_elem_of.
    + by rewrite (Hsyn eq_refl).
Qed.

Lemma deleteConnection_result id s :
  (deleteConnection id s).1 = JsMap.has id (connections s).
Proof.
  rewrite deleteConnection_run. cbn zeta.
  by destruct (JsMap.has id (connections s)).
Qed.

(** C5 as stated does not hold: a client has saved the connections [a] and
    [b] with their credentials and has then sent [PUT /connections/b]
    with the body [{"id": "a"}].  [deleteConnection("a")] returns
    [true] and deletes the credential, and [getConnections()] still
    has an entry whose id is [a]. *)
Lemma renamed_connection_survives :
  JsMap.has "a" (credentials Samples.crossed) = true ∧
  (deleteConnection "a" Samples.crossed).1 = true ∧
  let s' := (deleteConnection "a" Samples.crossed).2 in
  (has "a" s').1 = false ∧
  ∃ c, c ∈ (getConnections s').1 ∧ SavedConnectionInfo.id c = "a".
Proof.
  split; [by vm_compute|]. split; [by vm_compute|]. split; [by vm_compute|].
  vm_compute. eexists. split; [apply list_elem_of_here|done].
Qed.

(** C5, amended. Cascade delete: when
    [deleteConnection(id)] returns [true] on a connection that has
    stored credentials, then afterwards [has(id)] is false and the
    credential filed under the id is gone, the others being as they
    were; the connection filed under the id is gone, and
    [getConnections()] lists exactly the connections filed under the
    other keys; so when every connection was filed under its own id,
    [getConnections()] has no entry with that id.  Both collections
    were persisted (the file system accepting the writes). *)
Theorem deleteConnection_cascades s id :
  JsMap.has id (credentials s) = true →
  (deleteConnection id s).1 = true →
  let s' := (deleteConnection id s).2 in
  (has id s').1 = false ∧
  credentials s' = JsMap.remove id (credentials s) ∧
  JsMap.get id (credentials s') = None ∧
  (getConnection id s').1 = None ∧
  (getConnections s').1 = JsMap.values (JsMap.remove id (connections s)) ∧
  (∀ c, c ∈ (getConnections s').1 ↔
        ∃ k, k ≠ id ∧ (k, c) ∈ connections s) ∧
  (Keyed (connections s) →
   ∀ c, c ∈ (getConnections s').1 → SavedConnectionInfo.id c ≠ id) ∧
  (fsWritable s = true →
   credentialsFile s' = Contents (JsMap.entries (credentials s')) ∧
   connectionsFile s' = Contents (JsMap.entries (connections s'))).
Proof.
  intros Hcred Hres s'.
  rewrite deleteConnection_result in Hres.
  assert (credentials s' = JsMap.remove id (credentials s) ∧
          connections s' = JsMap.remove id (connections s) ∧
          (fsWritable s = true →
           credentialsFile s' = Contents (JsMap.remove id (credentials s)) ∧
           connectionsFile s' = Contents (JsMap.remove id (connections s))))
    as (Hc & Hn & Hf).
  { unfold s'. rewrite deleteConnection_run. cbn zeta. rewrite Hres.
    rewrite delete_run. cbn. rewrite Hcred.
    rewrite persist_run, persistConnections_run.
    destruct (fsWritable s) eqn:Hw; cbn; rewrite !Hw; cbn; rewrite ?Hw; cbn;
      repeat split; done. }
  unfold has, getConnection, getConnections, gets. cbn.
  rewrite Hc, Hn. split; [apply has_remove_eq|]. split; [done|].
  split; [apply get_remove_eq|]. split; [apply get_remove_eq|].
  split; [done|]. split; [|split; [|done]].
  - intros c. unfold JsMap.values. rewrite list_elem_of_fmap. split.
    + intros ([k c'] & -> & Hin). apply elem_of_remove in Hin as [Hk Hin].
      by exists k.
    + intros (k & Hk & Hin). exists (k, c). split; [done|].
      by apply elem_of_remove_2.
  - intros Hkeyed c Hin Hid. unfold JsMap.values in Hin.
    apply list_elem_of_fmap in Hin as ([k c'] & -> & Hin).
    apply elem_of_remove in Hin as [Hk Hin]. cbn in Hid.
    by rewrite (Hkeyed _ _ Hin) in Hid.
Qed.

End VaultConnections.

(** ** Connections stay filed under their own id *)

Section KeyedFacts.
Import Vault Props.
Variable env : Env.

Lemma Keyed_empty : Keyed JsMap.empty.
Proof. intros k c H. by apply elem_of_nil in H. Qed.

Lemma Keyed_set k c m :
  SavedConnectionInfo.id c = k → Keyed m → Keyed (JsMap.set k c m).
Proof.
  intros Hid Hm k' c' [[= -> ->]|H]%elem_of_set; [done|]. by apply Hm.
Qed.

Lemma Keyed_remove k m : Keyed m → Keyed (JsMap.remove k m).
Proof. intros Hm k' c' [_ H]%elem_of_remove. by apply Hm. Qed.

Lemma Keyed_fold entries m :
  Keyed entries → Keyed m →
  Keyed (fold_left (fun m e => JsMap.set e.1 e.2 m) entries m).
Proof.
  revert m. induction entries as [|[k c] entries IH]; intros m Hes Hm; [done|].
  cbn. apply IH.
  - intros k' c' Hin. apply Hes. by apply list_elem_of_further.
  - apply Keyed_set; [|done]. apply Hes, list_elem_of_here.
Qed.

Lemma Keyed_reparse (entries : list (string * SavedConnectionInfo.t)) :
  Keyed entries → Keyed (prod_map id reparse <$> entries).
Proof.
  intros H k c ([k' c'] & [= -> ->] & Hin)%list_elem_of_fmap.
  cbn. by apply H.
Qed.

Lemma Keyed_loaded f :
  (∀ entries, f = Contents entries → Keyed entries) → Keyed (loaded f).
Proof.
  destruct f as [| |entries]; intros H; try apply Keyed_empty.
  apply Keyed_fold; [by apply Keyed_reparse, H|apply Keyed_empty].
Qed.

Lemma Keyed_reconcile entries m : Keyed m → Keyed (reconcile entries m).
Proof.
  revert m. induction entries as [|[k c] entries IH]; intros m Hm; [done|].
  cbn. apply IH. destruct (JsMap.has k m); [done|]. by apply Keyed_set.
Qed.

Lemma construct_Keyed cf nf w :
  (∀ entries, nf = Contents entries → Keyed entries) →
  Keyed (connections (construct (fresh cf nf w)).2).
Proof.
  intros H. destruct (construct_run cf nf w) as (_ & -> & _).
  by apply Keyed_reconcile, Keyed_loaded.
Qed.

Lemma persist_connections s : connections (persist s).2 = connections s.
Proof. rewrite persist_run. by destruct (fsWritable s). Qed.

Lemma persistConnections_connections s :
  connections (persistConnections s).2 = connections s.
Proof. rewrite persistConnections_run. by destruct (fsWritable s). Qed.

Lemma delete_connections id s : connections (delete id s).2 = connections s.
Proof.
  rewrite delete_run. cbn zeta.
  destruct (JsMap.has id (credentials s)); [|done].
  cbn [snd]. by rewrite persist_connections.
Qed.

Lemma call_Keyed c s :
  declared c → Keyed (connections s) → Keyed (connections (call env c s)).
Proof.
  intros Hd Hk. destruct c; cbn [call]; try done.
  - by rewrite save_connections.
  - rewrite get_run. destruct (JsMap.get id (credentials s)) as [c|]; [|done].
    cbn zeta. destruct (decryptAll env c); cbn; by rewrite persist_connections.
  - by rewrite delete_connections.
  - unfold saveConnection. run. rewrite persistConnections_connections. cbn.
    by apply Keyed_set.
  - unfold updateConnection. run.
    destruct (JsMap.get id (connections s)) as [c|] eqn:Hc; [|done].
    cbn. rewrite persistConnections_run. cbn.
    assert (Keyed (JsMap.set id (assign c updates) (connections s))).
    { apply Keyed_set; [|done]. cbn in Hd |- *. rewrite Hd. cbn.
      by apply Hk, get_elem_of. }
    by destruct (fsWritable s).
  - rewrite deleteConnection_run. cbn zeta.
    destruct (JsMap.has id (connections s)); cbn [snd].
    + rewrite persistConnections_connections, delete_connections. cbn.
      by apply Keyed_remove.
    + cbn. by apply Keyed_remove.
Qed.

Lemma calls_Keyed cs s :
  Forall declared cs →
  Keyed (connections s) → Keyed (connections (calls env cs s)).
Proof.
  revert s. induction cs as [|c cs IH]; intros s Hd Hk; [done|].
  apply Forall_cons in Hd as [Hc Hd]. cbn. by apply IH, call_Keyed.
Qed.

End KeyedFacts.

(** ** The relay: what leaves the connections alone *)

Section RelaySteady.
Import Relay RelayProps.

Lemma Steady_refl st : Steady st st.
Proof. by split. Qed.

Lemma Steady_trans st1 st2 st3 :
  Steady st1 st2 → Steady st2 st3 → Steady st1 st3.
Proof.
  intros [Hc1 Hr1] [Hc2 Hr2]. split; [congruence|].
  intros ws. by rewrite Hr2, Hr1.
Qed.

Lemma Steady_sockets st st' :
  sockets st' = sockets st → clients st' = clients st → Steady st st'.
Proof. intros Hs Hc. split; [done|]. intros ws. by rewrite Hs. Qed.

Lemma Steady_same st st' : Steady st st' → SameConnections st st'.
Proof.
  intros [Hc Hv]. split; [done|]. intros ws. specialize (Hv ws).
  unfold vitals in Hv.
  destruct (sockets st' !! ws), (sockets st !! ws); cbn in *; congruence.
Qed.

Lemma Steady_iter n (f : State → State) st :
  (∀ st, Steady st (f st)) → Steady st (Nat.iter n f st).
Proof.
  intros Hf. induction n as [|n IH]; [apply Steady_refl|].
  cbn. eapply Steady_trans; [exact IH|apply Hf].
Qed.

Lemma sendMessage_open ws message st sock :
  sockets st !! ws = Some sock → Socket.isOpen sock = true →
  sendMessage ws message st
  = setSockets (<[ws := Socket.push (Sent message) sock]> (sockets st)) st.
Proof. intros Hs Ho. unfold sendMessage. by rewrite Hs, Ho. Qed.

Lemma sendMessage_steady ws message st : Steady st (sendMessage ws message st).
Proof.
  unfold sendMessage. destruct (sockets st !! ws) as [sock|] eqn:Hs;
    [|apply Steady_refl].
  destruct (Socket.isOpen sock); [|apply Steady_refl].
  split; [done|]. intros ws'. cbn. rewrite lookup_insert.
  case_decide as Hws; [|done]. subst ws'. by rewrite Hs.
Qed.

Lemma bindSocket_steady ws sid st : Steady st (bindSocket ws sid st).
Proof.
  split; [done|]. intros ws'. cbn. rewrite lookup_alter.
  case_decide as Hws; [|done]. subst. by destruct (sockets st !! _).
Qed.

Lemma sendInput_steady sid data st : Steady st (sendInput sid data st).2.
Proof.
  unfold sendInput. destruct (sessions st !! sid) as [[[sh|]]|];
    try apply Steady_refl.
  destruct (Shell.writable sh); by split.
Qed.

Lemma resizeTerminal_steady sid cols rows st :
  Steady st (resizeTerminal sid cols rows st).
Proof.
  unfold resizeTerminal. by destruct (sessions st !! sid) as [[[sh|]]|].
Qed.

Lemma createShell_steady sid dims accepted st :
  Steady st (createShell sid dims accepted st).2.
Proof.
  unfold createShell. destruct (sessions st !! sid) as [[[sh|]]|];
    try apply Steady_refl.
  by destruct accepted.
Qed.

Lemma setupShellOutput_steady sid st : Steady st (setupShellOutput sid st).
Proof.
  unfold setupShellOutput. case_decide; [apply Steady_refl|].
  by destruct (getSession sid st) as [[[sh|]]|].
Qed.

Lemma handleInput_steady ws message st : Steady st (handleInput ws message st).
Proof.
  unfold handleInput, sendError.
  destruct (negb _ || negb _); [apply sendMessage_steady|].
  destruct (ClientMessage.sessionId message) as [| | | |sid|];
    try apply sendMessage_steady.
  destruct (getSession sid st) as [session|]; [|apply sendMessage_steady].
  eapply Steady_trans; [apply (bindSocket_steady ws sid)|].
  destruct (Session.shell session); [|by split].
  pose proof (sendInput_steady sid (ClientMessage.data message)
                (bindSocket ws sid st)) as H.
  destruct (sendInput _ _ _) as [[] st2]; [done|].
  eapply Steady_trans; [exact H|apply sendMessage_steady].
Qed.

Lemma handleResize_steady ws message st :
  Steady st (handleResize ws message st).
Proof.
  unfold handleResize.
  destruct (negb _ || negb _ || negb _); [apply Steady_refl|].
  destruct (ClientMessage.sessionId message) as [| | | |sid|];
    try apply Steady_refl.
  destruct (getSession sid st) as [session|]; [|apply Steady_refl].
  eapply Steady_trans; [apply (bindSocket_steady ws sid)|].
  destruct (Session.shell session); [apply resizeTerminal_steady|by split].
Qed.

Lemma onMessage_steady ws frame st : Steady st (onMessage ws frame st).
Proof.
  destruct frame as [| |m]; cbn; try apply sendMessage_steady.
  unfold handleMessage.
  destruct (strictEq "input" _); [apply handleInput_steady|].
  destruct (strictEq "resize" _); [apply handleResize_steady|].
  destruct (strictEq "ping" _); apply sendMessage_steady.
Qed.

Lemma resumeInput_steady ws sid data accepted st :
  Steady st (resumeInput ws sid data accepted st).
Proof.
  unfold resumeInput, sendError.
  pose proof (createShell_steady sid None accepted st) as H1.
  destruct (createShell _ _ _ _) as [[] st1]; cbn in H1.
  - pose proof (sendInput_steady sid data (setupShellOutput sid st1)) as H2.
    destruct (sendInput _ _ _) as [[] st3]; cbn in H2.
    + eauto using Steady_trans, setupShellOutput_steady.
    + eauto using Steady_trans, setupShellOutput_steady, sendMessage_steady.
  - eauto using Steady_trans, sendMessage_steady.
Qed.

Lemma resumeResize_steady sid cols rows accepted st :
  Steady st (resumeResize sid cols rows accepted st).
Proof.
  unfold resumeResize.
  pose proof (createShell_steady sid (Some (cols, rows)) accepted st) as H1.
  destruct (createShell _ _ _ _) as [[] st1]; cbn in H1.
  - eauto using Steady_trans, setupShellOutput_steady.
  - eapply Steady_trans; [exact H1|by split].
Qed.

Lemma onShellData_steady sid data st : Steady st (onShellData sid data st).
Proof.
  unfold onShellData. destruct (sessionToWs st !! sid) as [ws|];
    [|apply Steady_refl].
  destruct (sockets st !! ws) as [sock|]; [|apply Steady_refl].
  destruct (Socket.isOpen sock); [apply sendMessage_steady|apply Steady_refl].
Qed.

Lemma onShellClose_steady sid st : Steady st (onShellClose sid st).
Proof.
  unfold onShellClose. cbv zeta.
  match goal with |- Steady _ (setSessionToWs _ (setShellOutputSetup _ ?x)) =>
    set (st1 := x) end.
  apply (Steady_trans _ st1); [|by apply Steady_sockets].
  unfold st1.
  destruct (sessionToWs st !! sid) as [ws|]; [|apply Steady_refl].
  destruct (sockets st !! ws) as [sock|]; [|apply Steady_refl].
  destruct (Socket.isOpen sock); [apply sendMessage_steady|apply Steady_refl].
Qed.

Lemma emit_steady sid f st :
  (∀ st, Steady st (f st)) → Steady st (emit sid f st).
Proof.
  intros Hf. unfold emit.
  destruct (getSession sid st) as [[[sh|]]|]; try apply Steady_refl.
  by apply Steady_iter.
Qed.

Lemma step_steady st e : traffic e = true → Steady st (step st e).
Proof.
  destruct e; cbn [traffic]; intros Ht; try discriminate Ht; cbn [step].
  - destruct (sockets st !! ws); [apply onMessage_steady|apply Steady_refl].
  - destruct (pending st !! task) as [[ws sid data|ws sid cols rows]|].
    + eapply Steady_trans; [|apply resumeInput_steady]. by split.
    + eapply Steady_trans; [|apply resumeResize_steady]. by split.
    + apply Steady_refl.
  - apply emit_steady, onShellData_steady.
  - eapply Steady_trans; [apply emit_steady, onShellClose_steady|].
    destruct (getSession _ _); by split.
  - by destruct (getSession sessionId st) as [[[sh|]]|].
  - by destruct (getSession sessionId st).
  - by split.
Qed.

End RelaySteady.

Section RelayFrames.
Import Relay RelayProps.

(** C7 as stated does not hold: a resize frame without its
    dimensions, sent on an open socket, leaves the relay exactly as
    it was; no error frame is sent. *)
Lemma resize_without_size_gets_no_reply :
  sockets ToyRelay.lobby !! 1%nat = Some ToyRelay.newcomer ∧
  Socket.isOpen ToyRelay.newcomer = true ∧
  incompleteResize (ToyRelay.resizeOnly "s1") = true ∧
  step ToyRelay.lobby (Message 1 (ToyRelay.resizeOnly "s1")) = ToyRelay.lobby.
Proof. by vm_compute. Qed.

(** C7, amended. On an open socket, a frame that does not parse, a
    frame of unknown type and an input frame without session id or
    data are each answered with one error frame and change nothing
    else; a resize frame without session id or dimensions is ignored
    without a reply; a ping frame is answered with a pong, with or
    without a session id; and no frame at all opens, closes or drops
    a connection. *)
Theorem malformed_frames st ws sock frame :
  sockets st !! ws = Some sock →
  Socket.isOpen sock = true →
  let st' := step st (Message ws frame) in
  (∀ error, rejected frame = Some error →
     st' = setSockets
             (<[ws := Socket.push (Sent (Error (Str "") error)) sock]>
                (sockets st)) st) ∧
  (incompleteResize frame = true → st' = st) ∧
  (∀ sessionId, pingOf frame = Some sessionId →
     st' = setSockets
             (<[ws := Socket.push (Sent (Pong sessionId)) sock]>
                (sockets st)) st) ∧
  SameConnections st st'.
Proof.
  intros Hs Ho st'. unfold st'. cbn [step]. rewrite Hs.
  split; [|split; [|split]]; [| | |apply Steady_same, onMessage_steady].
  - intros error. destruct frame as [| |m]; cbn.
    + intros [= <-]. by apply sendMessage_open.
    + intros [= <-]. by apply sendMessage_open.
    + unfold handleMessage, handleInput.
      destruct (strictEq "input" _).
      * destruct (negb _ || negb _); [|done].
        intros [= <-]. by apply sendMessage_open.
      * destruct (strictEq "resize" _); [done|].
        destruct (strictEq "ping" _); [done|].
        intros [= <-]. by apply sendMessage_open.
  - destruct frame as [| |m]; cbn; try done.
    intros [Ht Hm]%andb_prop. unfold handleMessage, handleResize.
    destruct (strictEq "input" _) eqn:Hi.
    { destruct (ClientMessage.type m) as [| | | |t|]; try done. cbn in Ht, Hi.
      apply String.eqb_eq in Ht, Hi. congruence. }
    by rewrite Ht, Hm.
  - intros sessionId. destruct frame as [| |m]; cbn; try done.
    unfold handleMessage.
    destruct (strictEq "input" _); [done|].
    destruct (strictEq "resize" _); [done|].
    destruct (strictEq "ping" _); [|done].
    intros [= <-]. by apply sendMessage_open.
Qed.

End RelayFrames.

Section RelayLiveness.
Import Relay RelayProps.

Lemma isOpen_vitals sock sock' :
  vitals sock' = vitals sock →
  Socket.isOpen sock' = Socket.isOpen sock ∧
  Socket.isAlive sock' = Socket.isAlive sock.
Proof. unfold vitals, Socket.isOpen. intros [= -> ->]. done. Qed.

Lemma Phase_steady k ws st st' : Steady st st' → Phase k ws st → Phase k ws st'.
Proof.
  intros [Hc Hv] (sock & Hs & Hk). specialize (Hv ws). rewrite Hs in Hv.
  destruct (sockets st' !! ws) as [sock'|] eqn:Hs'; [|done].
  assert (vitals sock' = vitals sock) as [Ho Ha]%isOpen_vitals
    by (cbn in Hv; congruence).
  exists sock'. split; [done|]. rewrite Hc, Ho, Ha. exact Hk.
Qed.

Lemma sweep_closed sock :
  Socket.isOpen sock = false → Socket.isOpen (sweep sock) = false.
Proof.
  unfold sweep, terminate, ping, Socket.isOpen.
  destruct sock as [[] sid [] wire]; cbn; done.
Qed.

Lemma sweep_marked sock :
  Socket.isAlive sock = false → Socket.isOpen (sweep sock) = false.
Proof.
  unfold sweep, terminate, Socket.isOpen.
  destruct sock as [[] sid [] wire]; cbn; done.
Qed.

Lemma sweep_alive sock :
  Socket.isAlive sock = true → Socket.isOpen sock = true →
  sweep sock = Socket.push Ping (Socket.setIsAlive false sock).
Proof.
  unfold sweep, ping, Socket.isOpen.
  destruct sock as [[] sid [] wire]; cbn; done.
Qed.

Lemma sweep_isAlive sock :
  Socket.isOpen (sweep sock) = true → Socket.isAlive (sweep sock) = false.
Proof.
  unfold sweep, terminate, ping, Socket.isOpen.
  destruct sock as [[] sid [] wire]; cbn; done.
Qed.

Lemma onInterval_lookup ws st :
  sockets (onInterval st) !! ws
  = (fun sock => if decide (ws ∈ clients st) then sweep sock else sock)
      <$> sockets st !! ws.
Proof.
  unfold onInterval. cbn. rewrite map_lookup_imap.
  by destruct (sockets st !! ws).
Qed.

Lemma Phase_interval k ws st : Phase k ws st → Phase (S k) ws (onInterval st).
Proof.
  intros (sock & Hs & Hk).
  exists (if decide (ws ∈ clients st) then sweep sock else sock).
  split; [by rewrite onInterval_lookup, Hs|].
  change (clients (onInterval st)) with (clients st).
  destruct k as [|[|k]].
  - case_decide as Hin.
    + intros Ho. split; [done|]. by apply sweep_isAlive.
    + intros Ho. destruct Hin. by apply Hk.
  - case_decide as Hin.
    + destruct (Socket.isOpen sock) eqn:Ho; [|by apply sweep_closed].
      apply sweep_marked. by destruct Hk.
    + destruct (Socket.isOpen sock) eqn:Ho; [|done]. destruct Hin. by apply Hk.
  - case_decide; [by apply sweep_closed|done].
Qed.

Lemma Phase_silent k ws st e :
  silent ws e = true → Phase k ws st → Phase (k + ticks [e]) ws (step st e).
Proof.
  intros Hq Hp. destruct (traffic e) eqn:Ht.
  { replace (k + ticks [e])%nat with k by (destruct e; cbn in *; (done || lia)).
    by eapply Phase_steady; [apply step_steady|]. }
  destruct e as [ws'| |ws'|ws'| | | | | | |]; try discriminate Ht; cbn [step ticks].
  - rewrite Nat.add_0_r. destruct (sockets st !! ws') eqn:Hws'; [done|].
    destruct Hp as (sock & Hs & Hk). exists sock.
    assert (ws ≠ ws') by congruence.
    split; [cbn; by rewrite lookup_insert_ne|].
    cbn. destruct k as [|[|k]]; [| |done]; intros Ho;
      [|split; [|by apply Hk]]; apply elem_of_union_r; by apply Hk.
  - rewrite Nat.add_0_r. cbn in Hq. apply negb_true_iff, Nat.eqb_neq in Hq.
    destruct Hp as (sock & Hs & Hk). exists sock.
    split; [cbn; by rewrite lookup_alter_ne|]. done.
  - rewrite Nat.add_0_r. destruct Hp as (sock & Hs & Hk).
    assert (∃ sock',
      sockets (onClose ws' st) !! ws = Some sock' ∧
      clients (onClose ws' st) = clients st ∖ {[ws']} ∧
      (if decide (ws' = ws) then Socket.isOpen sock' = false
       else sock' = sock)) as (sock' & Hs' & Hc' & Hcase).
    { unfold onClose.
      assert (∃ sock',
        alter (Socket.setReadyState CLOSED) ws' (sockets st) !! ws = Some sock' ∧
        (if decide (ws' = ws) then Socket.isOpen sock' = false
         else sock' = sock)) as (sock' & Hl & Hcase).
      { rewrite lookup_alter. case_decide as E; [subst ws'|]; rewrite Hs;
          by eexists. }
      exists sock'.
      destruct (sockets st !! ws') as [s0|]; [|done].
      destruct (Socket.sessionId s0) as [sid|]; [|done].
      by destruct (Js.truthy sid && _). }
    exists sock'. split; [done|]. rewrite Hc'.
    case_decide as Hws; [subst; destruct k as [|[|k]]; congruence|].
    subst sock'. destruct k as [|[|k]]; [| |done]; intros Ho;
      [|split; [|by apply Hk]];
      (apply elem_of_difference; split;
       [by apply Hk|by intros ->%elem_of_singleton]).
  - replace (k + 1)%nat with (S k) by lia. by apply Phase_interval.
Qed.

Lemma Phase_run k ws events st :
  forallb (silent ws) events = true →
  Phase k ws st → Phase (k + ticks events) ws (run st events).
Proof.
  revert k st. induction events as [|e events IH]; intros k st Hq Hp.
  { by rewrite Nat.add_0_r. }
  cbn in Hq. apply andb_prop in Hq as [He Hq].
  replace (k + ticks (e :: events))%nat
    with ((k + ticks [e]) + ticks events)%nat by (destruct e; cbn; lia).
  cbn [run fold_left]. apply IH; [done|]. by apply Phase_silent.
Qed.

(** C9. Liveness sweep: at each interval a client socket undergoes the
    sweep; a socket marked as not alive, one that has not answered the
    previous ping, is terminated and no longer open, an open socket
    that is alive is pinged and marked.  A socket that never sends a
    pong is no longer open once two sweeps have run, whatever else
    happens; a pong received before the next sweep spares an open
    socket, which is pinged again. *)
Theorem liveness_sweep st ws sock :
  sockets st !! ws = Some sock →
  ws ∈ clients st →
  sockets (step st Interval) !! ws = Some (sweep sock) ∧
  (Socket.isAlive sock = false → Socket.isOpen (sweep sock) = false) ∧
  (Socket.isAlive sock = false → Socket.readyState sock ≠ CLOSED →
   last (Socket.wire (sweep sock)) = Some Terminate) ∧
  (Socket.isAlive sock = true → Socket.isOpen sock = true →
   sweep sock = Socket.push Ping (Socket.setIsAlive false sock)) ∧
  (∀ events,
     forallb (silent ws) events = true →
     (2 ≤ ticks events)%nat →
     ∃ sock',
       sockets (run st events) !! ws = Some sock' ∧
       Socket.isOpen sock' = false) ∧
  (Socket.isOpen sock = true →
   ∃ sock',
     sockets (run st [PongReceived ws; Interval]) !! ws = Some sock' ∧
     Socket.isOpen sock' = true ∧
     last (Socket.wire sock') = Some Ping).
Proof.
  intros Hs Hin. split; [|split; [|split; [|split; [|split]]]].
  - cbn [step]. rewrite onInterval_lookup, Hs. cbn. by rewrite decide_True.
  - apply sweep_marked.
  - intros Ha Hr. unfold sweep, terminate. rewrite Ha. cbn.
    destruct (Socket.readyState sock); try done; cbn; by rewrite last_snoc.
  - apply sweep_alive.
  - intros events Hq Ht.
    assert (Phase 0 ws st) as Hp by (exists sock; done).
    apply (Phase_run 0 ws events st Hq) in Hp as (sock' & Hs' & Hk).
    exists sock'. split; [done|].
    cbn [Nat.add] in Hk. destruct (ticks events) as [|[|n]]; [lia|lia|done].
  - intros Ho. cbn [run fold_left step].
    rewrite onInterval_lookup. cbn. rewrite lookup_alter_eq, Hs. cbn.
    rewrite decide_True by done. eexists. split; [reflexivity|].
    unfold ping, Socket.isOpen in *.
    destruct sock as [[] sid alive wire]; cbn in *; try done.
    split; [done|by rewrite last_snoc].
Qed.

End RelayLiveness.

(** ** The relay: who is sent the output of a session *)

Section RelayBinding.
Import Relay RelayProps.
Variables (sid : string) (B : nat).
























End RelayBinding.

Section RelayBindingLaw.
Import Relay RelayProps.

Lemma sendMessage_sessionToWs ws message st :
  sessionToWs (sendMessage ws message st) = sessionToWs st.
Proof.
  unfold sendMessage. destruct (sockets st !! ws) as [sock|]; [|done].
  by destruct (Socket.isOpen sock).
Qed.

Lemma sendInput_sessionToWs sid data st :
  sessionToWs (sendInput sid data st).2 = sessionToWs st.
Proof.
  unfold sendInput. destruct (sessions st !! sid) as [[[sh|]]|]; try done.
  by destruct (Shell.writable sh).
Qed.

Lemma resizeTerminal_sessionToWs sid cols rows st :
  sessionToWs (resizeTerminal sid cols rows st) = sessionToWs st.
Proof.
  unfold resizeTerminal. by destruct (sessions st !! sid) as [[[sh|]]|].
Qed.











End RelayBindingLaw.

Section Instances.
Import Vault Props Relay RelayProps.

Lemma empty_secret_is_absent_witness :
  Sound Toy.env ∧
  let config := Toy.config (Some "") (Some "key") (Some "") in
  save Toy.env "c1" config Toy.empty
  = save Toy.env "c1" (omitEmpty config) Toy.empty ∧
  ∃ c result,
    JsMap.get "c1" (credentials (save Toy.env "c1" config Toy.empty).2)
    = Some c ∧
    (get Toy.env "c1" (save Toy.env "c1" config Toy.empty).2).1
    = Some result ∧
    (Config.password config = Some "" →
     StoredCredential.encryptedPassword c = None ∧
     Credential.password result = None) ∧
    (Config.privateKey config = Some "" →
     StoredCredential.encryptedPrivateKey c = None ∧
     Credential.privateKey result = None) ∧
    (Config.passphrase config = Some "" →
     StoredCredential.encryptedPassphrase c = None ∧
     Credential.passphrase result = None).
Proof.
  split; [exact toy_sound|].
  exact (empty_secret_is_absent Toy.env Toy.empty "c1"
           (Toy.config (Some "") (Some "key") (Some "")) toy_sound).
Defined.

Lemma linked_keyed : Keyed (connections Toy.linked).
Proof.
  apply calls_Keyed; [|apply Keyed_empty]. by repeat constructor.
Qed.

Lemma deleteConnection_cascades_witness :
  JsMap.has "c2" (credentials Toy.linked) = true ∧
  (deleteConnection "c2" Toy.linked).1 = true ∧
  let s' := (deleteConnection "c2" Toy.linked).2 in
  (has "c2" s').1 = false ∧
  credentials s' = JsMap.remove "c2" (credentials Toy.linked) ∧
  JsMap.get "c2" (credentials s') = None ∧
  (getConnection "c2" s').1 = None ∧
  (getConnections s').1
  = JsMap.values (JsMap.remove "c2" (connections Toy.linked)) ∧
  (∀ c, c ∈ (getConnections s').1 ↔
        ∃ k, k ≠ "c2" ∧ (k, c) ∈ connections Toy.linked) ∧
  (Keyed (connections Toy.linked) →
   ∀ c, c ∈ (getConnections s').1 → SavedConnectionInfo.id c ≠ "c2") ∧
  (fsWritable Toy.linked = true →
   credentialsFile s' = Contents (JsMap.entries (credentials s')) ∧
   connectionsFile s' = Contents (JsMap.entries (connections s'))).
Proof.
  split; [reflexivity|]. split; [reflexivity|].
  exact (deleteConnection_cascades Toy.linked "c2" eq_refl eq_refl).
Defined.

Lemma malformed_frames_witness :
  sockets ToyRelay.lobby !! 1%nat = Some ToyRelay.newcomer ∧
  Socket.isOpen ToyRelay.newcomer = true ∧
  let st := ToyRelay.lobby in
  let frame := ToyRelay.bare "exec" in
  let st' := step st (Message 1 frame) in
  (∀ error, rejected frame = Some error →
     st' = setSockets
             (<[1%nat := Socket.push (Sent (Error (Str "") error))
                           ToyRelay.newcomer]> (sockets st)) st) ∧
  (incompleteResize frame = true → st' = st) ∧
  (∀ sessionId, pingOf frame = Some sessionId →
     st' = setSockets
             (<[1%nat := Socket.push (Sent (Pong sessionId))
                           ToyRelay.newcomer]> (sockets st)) st) ∧
  SameConnections st st'.
Proof.
  split; [reflexivity|]. split; [reflexivity|].
  exact (malformed_frames ToyRelay.lobby 1 ToyRelay.newcomer
           (ToyRelay.bare "exec") eq_refl eq_refl).
Defined.


Lemma liveness_sweep_witness :
  let st := ToyRelay.lobby in
  let ws := 1%nat in
  let sock := ToyRelay.newcomer in
  sockets st !! ws = Some sock ∧
  ws ∈ clients st ∧
  sockets (step st Interval) !! ws = Some (sweep sock) ∧
  (Socket.isAlive sock = false → Socket.isOpen (sweep sock) = false) ∧
  (Socket.isAlive sock = false → Socket.readyState sock ≠ CLOSED →
   last (Socket.wire (sweep sock)) = Some Terminate) ∧
  (Socket.isAlive sock = true → Socket.isOpen sock = true →
   sweep sock = Socket.push Ping (Socket.setIsAlive false sock)) ∧
  (∀ events,
     forallb (silent ws) events = true →
     (2 ≤ ticks events)%nat →
     ∃ sock',
       sockets (run st events) !! ws = Some sock' ∧
       Socket.isOpen sock' = false) ∧
  (Socket.isOpen sock = true →
   ∃ sock',
     sockets (run st [PongReceived ws; Interval]) !! ws = Some sock' ∧
     Socket.isOpen sock' = true ∧
     last (Socket.wire sock') = Some Ping).
Proof.
  cbv zeta.
  assert (1%nat ∈ clients ToyRelay.lobby) as Hin.
  { apply (bool_decide_unpack (1%nat ∈ clients ToyRelay.lobby)).
    vm_compute. exact I. }
  split; [reflexivity|]. split; [exact Hin|].
  exact (liveness_sweep ToyRelay.lobby 1 ToyRelay.newcomer eq_refl Hin).
Defined.

(** A credential file alone: the constructor makes up its connection. *)
Example construct_from_credentials_only :
  (getConnections
     (construct
        (fresh (Contents [("c1", Toy.forged)]) Missing true)).2).1
  = [SavedConnectionInfo.mk "c1" (Some "root@example.org")
       (Some "example.org") (Some (Js.Finite 22)) (Some "root")
       (Some Password) (Some true) "2024-01-01T00:00:00Z"
       (Some "2024-01-01T00:00:01Z")].
Proof. reflexivity. Qed.

End Instances.

(** * Further properties *)

(** * Further properties of the credential store *)

Section JsMapMore.
Context {V : Type}.
Implicit Types (m : JsMap.t V) (k : string) (v : V).

Lemma has_elem_of_keys k m : JsMap.has k m = true ↔ k ∈ JsMap.keys m.
Proof.
  unfold JsMap.has. induction m as [|[k' v'] m IH]; cbn.
  - split; [done|]. by intros ?%elem_of_nil.
  - destruct (String.eqb_spec k k') as [->|Hne].
    + split; [intros _; apply list_elem_of_here|done].
    + rewrite IH. split.
      * intros H. by apply list_elem_of_further.
      * intros [?|?]%elem_of_cons; [done|done].
Qed.

Lemma remove_absent k m : JsMap.has k m = false → JsMap.remove k m = m.
Proof.
  unfold JsMap.has. induction m as [|[k' v'] m IH]; [done|]. cbn.
  destruct (String.eqb_spec k k') as [->|Hne]; [done|].
  intros H. by rewrite IH.
Qed.

Lemma set_absent k v m : JsMap.has k m = false → JsMap.set k v m = m ++ [(k, v)].
Proof.
  unfold JsMap.has. induction m as [|[k' v'] m IH]; [done|]. cbn.
  destruct (String.eqb_spec k k') as [->|Hne]; [done|].
  intros H. by rewrite IH.
Qed.

Lemma keys_set_present k v m :
  JsMap.has k m = true → JsMap.keys (JsMap.set k v m) = JsMap.keys m.
Proof.
  unfold JsMap.has, JsMap.keys. induction m as [|[k' v'] m IH]; [done|]. cbn.
  destruct (String.eqb_spec k k') as [->|Hne]; [done|].
  intros H. cbn. by rewrite IH.
Qed.

Lemma keys_set k v m :
  JsMap.keys (JsMap.set k v m) = MoreProps.keysAfterSet k m.
Proof.
  unfold MoreProps.keysAfterSet. destruct (JsMap.has k m) eqn:Hk.
  - by apply keys_set_present.
  - rewrite set_absent by done. unfold JsMap.keys. by rewrite map_app.
Qed.

Lemma keys_remove k m :
  JsMap.keys (JsMap.remove k m) = filter (fun k' => k' ≠ k) (JsMap.keys m).
Proof.
  unfold JsMap.keys. induction m as [|[k' v'] m IH]; [done|]. cbn -[filter].
  destruct (String.eqb_spec k k') as [->|Hne].
  - rewrite filter_cons_False by (by intros ?). exact IH.
  - rewrite filter_cons_True by congruence. cbn -[filter]. by rewrite IH.
Qed.

Lemma Unique_set k v m : MoreProps.Unique m → MoreProps.Unique (JsMap.set k v m).
Proof.
  unfold MoreProps.Unique. rewrite keys_set. unfold MoreProps.keysAfterSet.
  destruct (JsMap.has k m) eqn:Hk; [done|]. intros Hm.
  apply NoDup_app. split; [done|]. split; [|apply NoDup_singleton].
  intros k' Hin ->%list_elem_of_singleton.
  apply has_elem_of_keys in Hin. congruence.
Qed.

Lemma Unique_remove k m :
  MoreProps.Unique m → MoreProps.Unique (JsMap.remove k m).
Proof.
  unfold MoreProps.Unique. rewrite keys_remove. apply NoDup_filter.
Qed.

Lemma Unique_fold entries m :
  MoreProps.Unique m →
  MoreProps.Unique (fold_left (fun m e => JsMap.set e.1 e.2 m) entries m).
Proof.
  revert m. induction entries as [|e entries IH]; intros m Hm; [done|].
  cbn. by apply IH, Unique_set.
Qed.

Lemma Unique_ofEntries (entries : list (string * V)) :
  MoreProps.Unique (JsMap.ofEntries entries).
Proof. apply Unique_fold. apply NoDup_nil_2. Qed.

Lemma fold_set_unique entries m :
  MoreProps.Unique (m ++ entries) →
  fold_left (fun m e => JsMap.set e.1 e.2 m) entries m = m ++ entries.
Proof.
  revert m. induction entries as [|[k v] entries IH]; intros m Hu.
  { by rewrite app_nil_r. }
  cbn. assert (JsMap.has k m = false) as Hk.
  { destruct (JsMap.has k m) eqn:Hk; [|done].
    apply has_elem_of_keys in Hk. unfold MoreProps.Unique, JsMap.keys in Hu.
    rewrite map_app in Hu. apply NoDup_app in Hu as (_ & Hd & _).
    destruct (Hd k Hk). apply list_elem_of_here. }
  rewrite set_absent by done. rewrite IH; rewrite <- app_assoc; done.
Qed.

Lemma ofEntries_unique m : MoreProps.Unique m → JsMap.ofEntries m = m.
Proof. intros Hu. unfold JsMap.ofEntries. by rewrite fold_set_unique. Qed.

End JsMapMore.

Section VaultCalls.
Import Vault Props MoreProps.
Variable env : Env.

Lemma saveConnection_run c s :
  saveConnection c s
  = persistConnections
      (setConnections (JsMap.set (SavedConnectionInfo.id c) c (connections s)) s).
Proof. unfold saveConnection. run. by destruct (persistConnections _). Qed.

Lemma updateConnection_run id u s :
  updateConnection id u s
  = match JsMap.get id (connections s) with
    | None => (false, s)
    | Some c =>
        (true,
         (persistConnections
            (setConnections (JsMap.set id (assign c u) (connections s)) s)).2)
    end.
Proof.
  unfold updateConnection. run.
  destruct (JsMap.get id (connections s)) as [c|]; [|done].
  cbn. by destruct (persistConnections _).
Qed.

Lemma has_get {V} k (m : JsMap.t V) :
  JsMap.has k m = match JsMap.get k m with Some _ => true | None => false end.
Proof. done. Qed.

Lemma call_effect c s :
  credentials (call env c s) = credentialsAfter env c s ∧
  connections (call env c s) = connectionsAfter c s ∧
  fsWritable (call env c s) = fsWritable s ∧
  credentialsFile (call env c s)
  = (if fsWritable s && writesCredentials env c s
     then Contents (credentialsAfter env c s) else credentialsFile s) ∧
  connectionsFile (call env c s)
  = (if fsWritable s && writesConnections c s
     then Contents (connectionsAfter c s) else connectionsFile s).
Proof.
  destruct c as [id config|id|id|id| |c| |id|id u|id];
    cbn [call credentialsAfter connectionsAfter writesCredentials
         writesConnections].
  - rewrite save_run, persist_run.
    by destruct (throws env config),
                s as [creds conns cf nf [] log rng dates].
  - rewrite get_run, has_get.
    destruct s as [creds conns cf nf [] log rng dates]; cbn;
      destruct (JsMap.get id creds) as [c|]; cbn; try done;
      by destruct (decryptAll env c).
  - by rewrite andb_false_r.
  - rewrite delete_run. cbn zeta.
    destruct s as [creds conns cf nf [] log rng dates]; cbn;
      destruct (JsMap.has id creds) eqn:Hk; cbn; try done.
  - by rewrite andb_false_r.
  - rewrite saveConnection_run, persistConnections_run.
    by destruct s as [creds conns cf nf [] log rng dates].
  - by rewrite andb_false_r.
  - by rewrite andb_false_r.
  - rewrite updateConnection_run, has_get.
    destruct s as [creds conns cf nf [] log rng dates]; cbn;
      destruct (JsMap.get id conns) as [c|]; cbn; done.
  - rewrite deleteConnection_run. cbn zeta. rewrite delete_run. cbn zeta.
    destruct s as [creds conns cf nf [] log rng dates]; cbn;
      destruct (JsMap.has id conns) eqn:Hn; cbn; try done;
      destruct (JsMap.has id creds) eqn:Hk; cbn; try done.
Qed.

End VaultCalls.

Section VaultMore.
Import Vault Props MoreProps.

Lemma store_eta s :
  mkStore (credentials s) (connections s) (credentialsFile s)
          (connectionsFile s) (fsWritable s) (console s) (rngCalls s)
          (dateCalls s) = s.
Proof. by destruct s. Qed.

Lemma fmap_toWellFormed (field : option string) :
  (∀ text, field = Some text → Js.isWellFormed text = true) →
  Js.toWellFormed <$> field = field.
Proof.
  destruct field as [text|]; [|done]. intros H. cbn.
  by rewrite utf8_roundtrip by by apply H.
Qed.

(** X1. The old layout can still be read: a credential whose fields are
    stored as [encrypted:tag] under the vector recorded in its own [iv]
    is decrypted by [get], all of its fields under that one vector.
    Each field comes back as the text whose UTF-8 was sealed, which is
    the sealed text itself when that is well formed. *)
Theorem get_reads_legacy env s id c iv password privateKey passphrase :
  Sound env →
  length iv = 16%nat →
  JsMap.get id (credentials s) = Some c →
  StoredCredential.iv c = Hex.toString iv →
  StoredCredential.encryptedPassword c = legacyBlob env iv <$> password →
  StoredCredential.encryptedPrivateKey c = legacyBlob env iv <$> privateKey →
  StoredCredential.encryptedPassphrase c = legacyBlob env iv <$> passphrase →
  (get env id s).1
  = Some (Credential.mk (StoredCredential.host c) (StoredCredential.port c)
            (StoredCredential.username c) (StoredCredential.authType c)
            (Js.toWellFormed <$> password) (Js.toWellFormed <$> privateKey)
            (Js.toWellFormed <$> passphrase)) ∧
  ((∀ text, Some text ∈ [password; privateKey; passphrase] →
            Js.isWellFormed text = true) →
   (get env id s).1
   = Some (Credential.mk (StoredCredential.host c) (StoredCredential.port c)
             (StoredCredential.username c) (StoredCredential.authType c)
             password privateKey passphrase)).
Proof.
  intros Hs Hiv Hc Hcv Hpw Hpk Hpp. pose proof (keyFits_sound _ Hs) as Hk.
  destruct Hs as (_ & _ & Hopen).
  assert (∀ text,
            decryptField env (Hex.toString iv) (Some (legacyBlob env iv text))
            = Some (Some (Js.toWellFormed text))) as Hfield.
  { intros text. unfold decryptField, decryptBlob, legacyBlob.
    destruct (Hopen iv (Js.utf8Encode text) Hiv) as [Htag Hok].
    set (sealed := gcmSeal _ _ _ _) in *.
    assert (Js.truthy (Hex.toString sealed.1 +:+ ":" +:+ Hex.toString sealed.2)
            = true) as -> by (by destruct (Hex.toString sealed.1)).
    change (":" +:+ ?x) with (String ":" x).
    rewrite split_app by apply toString_free.
    rewrite split_free by apply toString_free.
    cbn [head]. unfold decrypt. rewrite Hk.
    rewrite toString_truthy by (by destruct sealed.2).
    by rewrite !from_toString, Hok. }
  assert (∀ field,
            decryptField env (Hex.toString iv) (legacyBlob env iv <$> field)
            = Some (Js.toWellFormed <$> field)) as Hfields.
  { intros [text|]; [apply Hfield|done]. }
  assert ((get env id s).1
          = Some (Credential.mk (StoredCredential.host c)
                    (StoredCredential.port c) (StoredCredential.username c)
                    (StoredCredential.authType c)
                    (Js.toWellFormed <$> password)
                    (Js.toWellFormed <$> privateKey)
                    (Js.toWellFormed <$> passphrase))) as Hget.
  { rewrite get_run, Hc. cbn zeta. unfold decryptAll.
    by rewrite Hcv, Hpw, Hpk, Hpp, !Hfields. }
  split; [done|]. intros Hw. rewrite Hget.
  rewrite !fmap_toWellFormed; [done|..]; intros text ->; apply Hw;
    rewrite !elem_of_cons; auto.
Qed.

(** X2. [delete(id)] answers whether the credential was there and forgets
    it: afterwards [has(id)] is false, the other credentials and all
    the connections, the one of [id] included, are as before; when the
    credential was not there, nothing at all changes and nothing is
    written. *)
Theorem delete_forgets id s :
  (delete id s).1 = (has id s).1 ∧
  (has id (delete id s).2).1 = false ∧
  (∀ id', id' ≠ id →
     JsMap.get id' (credentials (delete id s).2)
     = JsMap.get id' (credentials s)) ∧
  connections (delete id s).2 = connections s ∧
  connectionsFile (delete id s).2 = connectionsFile s ∧
  ((has id s).1 = false → (delete id s).2 = s).
Proof.
  destruct (call_effect (Toy.env) (Delete id) s) as (Hc & Hn & _ & _ & Hnf).
  cbn [call credentialsAfter connectionsAfter writesConnections] in *.
  rewrite andb_false_r in Hnf.
  split; [rewrite delete_run; cbn; by destruct (JsMap.has id (credentials s))|].
  unfold has, gets. cbn [fst]. rewrite Hc.
  split; [apply has_remove_eq|]. split; [intros; by apply get_remove_ne|].
  split; [done|]. split; [done|].
  intros Hk. rewrite delete_run. cbn zeta. rewrite Hk.
  cbn [snd]. rewrite remove_absent by done. apply store_eta.
Qed.

(** X3. [deleteConnection(id)] on an id without a connection answers
    [false] and changes nothing: a credential filed under that id
    stays. *)
Theorem deleteConnection_unknown id s :
  (getConnection id s).1 = None → deleteConnection id s = (false, s).
Proof.
  unfold getConnection, gets. cbn [fst]. intros Hn.
  rewrite deleteConnection_run. cbn zeta.
  assert (JsMap.has id (connections s) = false) as Hk
    by (unfold JsMap.has; by rewrite Hn).
  rewrite Hk, remove_absent by done. f_equal. apply store_eta.
Qed.

(** X4. [saveConnection] files the connection under its id and persists:
    [getConnection] returns it, the other connections and the
    credentials are as before, and a connection saved again keeps its
    place in the list while a new one goes to its end. *)
Theorem saveConnection_files c s :
  (getConnection (SavedConnectionInfo.id c) (saveConnection c s).2).1 = Some c ∧
  (∀ id, id ≠ SavedConnectionInfo.id c →
     (getConnection id (saveConnection c s).2).1 = (getConnection id s).1) ∧
  JsMap.keys (connections (saveConnection c s).2)
  = keysAfterSet (SavedConnectionInfo.id c) (connections s) ∧
  credentials (saveConnection c s).2 = credentials s ∧
  (fsWritable s = true →
   connectionsFile (saveConnection c s).2
   = Contents (JsMap.entries (connections (saveConnection c s).2))).
Proof.
  destruct (call_effect Toy.env (SaveConnection c) s) as (Hc & Hn & _ & _ & Hnf).
  cbn [call credentialsAfter connectionsAfter writesConnections] in *.
  unfold getConnection, gets. cbn [fst]. rewrite Hn, Hc, Hnf.
  split; [apply get_set_eq|]. split; [intros; by apply get_set_ne|].
  split; [apply keys_set|]. split; [done|]. by intros ->.
Qed.

(** X5. [updateConnection] on an unknown id answers [false] and changes
    nothing.  On a known id it answers [true] and the entry filed under
    that id becomes the connection with the properties of the update
    copied onto it, whatever they are; it stays under its key and in
    its place also when the update carries another [id]; the other
    entries and the credentials are untouched, and the list is
    persisted. *)
Theorem updateConnection_assigns id u s :
  match (getConnection id s).1 with
  | None => updateConnection id u s = (false, s)
  | Some c =>
      (updateConnection id u s).1 = true ∧
      (getConnection id (updateConnection id u s).2).1 = Some (assign c u) ∧
      (∀ id', id' ≠ id →
         (getConnection id' (updateConnection id u s).2).1
         = (getConnection id' s).1) ∧
      JsMap.keys (connections (updateConnection id u s).2)
      = JsMap.keys (connections s) ∧
      credentials (updateConnection id u s).2 = credentials s ∧
      (fsWritable s = true →
       connectionsFile (updateConnection id u s).2
       = Contents (JsMap.entries (connections (updateConnection id u s).2)))
  end.
Proof.
  destruct (call_effect Toy.env (UpdateConnection id u) s)
    as (Hcr & Hn & _ & _ & Hnf).
  cbn [call connectionsAfter credentialsAfter writesConnections] in *.
  unfold getConnection, gets in *. cbn [fst].
  rewrite has_get in Hnf. rewrite updateConnection_run in *.
  destruct (JsMap.get id (connections s)) as [c|] eqn:Hc; [|done].
  cbn [fst snd] in *. rewrite Hn, Hnf.
  split; [done|]. split; [apply get_set_eq|].
  split; [intros; by apply get_set_ne|].
  split; [|split; [done|by intros ->]].
  apply keys_set_present. unfold JsMap.has. by rewrite Hc.
Qed.

End VaultMore.

Section VaultLife.
Import Vault Props MoreProps.

Lemma Unique_reconcile entries m : Unique m → Unique (reconcile entries m).
Proof.
  revert m. induction entries as [|[k c] entries IH]; intros m Hm; [done|].
  cbn. apply IH. destruct (JsMap.has k m); [done|]. by apply Unique_set.
Qed.

Lemma Unique_loaded {A} `{Json A} (f : File A) : Unique (loaded f).
Proof.
  destruct f; try apply NoDup_nil_2. apply Unique_ofEntries.
Qed.

Lemma jsonNum_idem n : Js.jsonNum (Js.jsonNum n) = Js.jsonNum n.
Proof. by destruct n. Qed.

Lemma reparse_credential_idem (c : StoredCredential.t) :
  reparse (reparse c) = reparse c.
Proof.
  unfold reparse, StoredCredential.json. cbn. by rewrite jsonNum_idem.
Qed.

Lemma reparse_connection_idem (c : SavedConnectionInfo.t) :
  reparse (reparse c) = reparse c.
Proof.
  unfold reparse, SavedConnectionInfo.json. cbn.
  destruct (SavedConnectionInfo.port c) as [n|]; [|done].
  cbn. by rewrite jsonNum_idem.
Qed.

Lemma Stable_fold {A} `{Json A} (entries m : JsMap.t A) :
  Stable entries → Stable m →
  Stable (fold_left (fun m e => JsMap.set e.1 e.2 m) entries m).
Proof.
  revert m. induction entries as [|[k v] entries IH]; intros m He Hm; [done|].
  cbn. apply IH.
  - intros k' v' Hin. eapply He. by apply list_elem_of_further.
  - intros k' v' [[= -> ->]|Hin]%elem_of_set; [|by eapply Hm].
    eapply He, list_elem_of_here.
Qed.

Lemma Stable_parsed {A} `{Json A} (entries : list (string * A)) :
  (∀ v : A, reparse (reparse v) = reparse v) → Stable (parsed entries).
Proof.
  intros Hidem. apply Stable_fold; [|by intros ? ? ?%elem_of_nil].
  intros k v ([k' v'] & [= -> ->] & _)%list_elem_of_fmap. apply Hidem.
Qed.

Lemma Stable_loaded {A} `{Json A} (f : File A) :
  (∀ v : A, reparse (reparse v) = reparse v) → Stable (loaded f).
Proof.
  intros Hidem. destruct f; try (by intros ? ? ?%elem_of_nil).
  by apply Stable_parsed.
Qed.

Lemma synthesized_stable k (c : StoredCredential.t) :
  reparse c = c → reparse (synthesized k c) = synthesized k c.
Proof.
  intros Hc. unfold reparse, SavedConnectionInfo.json, synthesized. cbn.
  do 2 f_equal. by rewrite <- Hc at 2.
Qed.

Lemma Stable_reconcile entries m :
  Stable entries → Stable m → Stable (reconcile entries m).
Proof.
  revert m. induction entries as [|[k c] entries IH]; intros m He Hm; [done|].
  cbn. apply IH.
  - intros k' v' Hin. eapply He. by apply list_elem_of_further.
  - destruct (JsMap.has k m); [done|].
    intros k' v' [[= -> ->]|Hin]%elem_of_set; [|by eapply Hm].
    apply synthesized_stable. eapply He, list_elem_of_here.
Qed.

Lemma reparse_stable {A} `{Json A} (m : JsMap.t A) :
  Stable m → prod_map id reparse <$> m = m.
Proof.
  induction m as [|[k v] m IH]; intros Hm; [done|]. cbn.
  rewrite (Hm k v) by apply list_elem_of_here. f_equal. apply IH.
  intros k' v' Hin. eapply Hm. by apply list_elem_of_further.
Qed.

Lemma keys_reparse {A} `{Json A} (m : JsMap.t A) :
  JsMap.keys (prod_map id reparse <$> m) = JsMap.keys m.
Proof.
  unfold JsMap.keys. induction m as [|[k v] m IH]; [done|]. cbn.
  by f_equal.
Qed.

Lemma parsed_unique {A} `{Json A} (m : JsMap.t A) :
  Unique m → parsed m = prod_map id reparse <$> m.
Proof.
  intros Hu. unfold parsed. apply ofEntries_unique.
  unfold Unique. by rewrite keys_reparse.
Qed.

Lemma calls_snoc env cs c s :
  calls env (cs ++ [c]) s = call env c (calls env cs s).
Proof. unfold calls. by rewrite fold_left_app. Qed.

(** X7. Every change reaches the disk: while the file system accepts
    writes, after any call each collection is either as it was before
    the call, in memory and on disk, or its file holds exactly what is
    in memory. *)
Theorem changes_are_persisted env c s :
  fsWritable s = true →
  (credentials (call env c s) = credentials s ∧
   credentialsFile (call env c s) = credentialsFile s
   ∨ credentialsFile (call env c s)
     = Contents (JsMap.entries (credentials (call env c s)))) ∧
  (connections (call env c s) = connections s ∧
   connectionsFile (call env c s) = connectionsFile s
   ∨ connectionsFile (call env c s)
     = Contents (JsMap.entries (connections (call env c s)))).
Proof.
  intros Hw. destruct (call_effect env c s) as (-> & -> & _ & -> & ->).
  rewrite Hw. cbn [andb]. split.
  - destruct (writesCredentials env c s) eqn:Hp; [by right|left].
    split; [|done].
    destruct c; cbn [credentialsAfter writesCredentials] in *; try done.
    + by destruct (throws env config).
    + rewrite has_get in Hp. by destruct (JsMap.get id (credentials s)).
    + by apply remove_absent.
    + destruct (JsMap.has id (connections s)); [|done]. by apply remove_absent.
  - destruct (writesConnections c s) eqn:Hp; [by right|left].
    split; [|done].
    destruct c; cbn [connectionsAfter writesConnections] in *; try done.
    + rewrite has_get in Hp. by destruct (JsMap.get id (connections s)).
    + by apply remove_absent.
Qed.

(** X8. A failing disk does not stop the store: with a file system that
    rejects every write, each call leaves both files as they were and
    does to the credentials and connections in memory exactly what it
    does when the writes succeed. *)
Theorem memory_is_authoritative env c s :
  credentialsFile (call env c (offline s)) = credentialsFile s ∧
  connectionsFile (call env c (offline s)) = connectionsFile s ∧
  credentials (call env c (offline s)) = credentials (call env c s) ∧
  connections (call env c (offline s)) = connections (call env c s).
Proof.
  destruct (call_effect env c (offline s)) as (-> & -> & _ & -> & ->).
  destruct (call_effect env c s) as (-> & -> & _).
  cbn [offline fsWritable andb credentialsFile connectionsFile].
  by destruct c.
Qed.

(** X9. Secrets survive a restart: when [save] could write its file and
    the next process starts from the files it left, under the same
    key, that process holds the credentials as JSON renders them, a
    port that is no finite number having become [null], and [get(id)]
    returns what was saved, each secret after its trip through UTF-8.
    So when the credentials are ones that JSON can hold, the port of
    the saved one included, the new process holds the same
    credentials, and when the secrets are well-formed strings,
    [get(id)] returns them as they were given. *)
Theorem secrets_survive_restart env s id config w :
  Sound env →
  fsWritable s = true →
  NoDup (JsMap.keys (credentials s)) →
  let s1 := (save env id config s).2 in
  let s2 := (construct (fresh (credentialsFile s1) (connectionsFile s1) w)).2 in
  credentials s2 = rendered (credentials s1) ∧
  (get env id s2).1
  = Some (Credential.mk (Config.host config) (Js.jsonNum (Config.port config))
            (Config.username config) (Config.authType config)
            (returned (Config.password config))
            (returned (Config.privateKey config))
            (returned (Config.passphrase config))) ∧
  (Stable (credentials s) →
   Js.jsonNum (Config.port config) = Config.port config →
   credentials s2 = credentials s1 ∧
   (wellFormed config →
    (get env id s2).1
    = Some (Credential.mk (Config.host config) (Config.port config)
              (Config.username config) (Config.authType config)
              (kept (Config.password config))
              (kept (Config.privateKey config))
              (kept (Config.passphrase config))))).
Proof.
  intros Hs Hw Hu s1 s2.
  pose proof (throws_sound env config Hs) as Ht.
  destruct (call_effect env (Save id config) s) as (Hc & _ & _ & Hcf & _).
  cbn [call credentialsAfter writesCredentials] in Hc, Hcf.
  rewrite Hw, Ht in Hcf. rewrite Ht in Hc. cbn [andb negb] in Hcf.
  fold s1 in Hc, Hcf.
  destruct (construct_run (credentialsFile s1) (connectionsFile s1) w)
    as (Hl & _).
  fold s2 in Hl.
  assert (credentials s2 = rendered (credentials s1)) as E.
  { rewrite Hl, Hcf, Hc. cbn [loaded].
    apply parsed_unique. by apply Unique_set. }
  unfold rendered in E.
  assert (JsMap.get id (credentials s2) = Some (reparse (saved env s id config)))
    as Hget.
  { rewrite E, Hc. clear.
    induction (credentials s) as [|[k v] m IH]; cbn.
    - by rewrite String.eqb_refl.
    - destruct (String.eqb_spec id k) as [->|Hne]; cbn.
      + by rewrite String.eqb_refl.
      + by destruct (String.eqb_spec id k). }
  assert ((get env id s2).1
          = Some (Credential.mk (Config.host config)
                    (Js.jsonNum (Config.port config))
                    (Config.username config) (Config.authType config)
                    (returned (Config.password config))
                    (returned (Config.privateKey config))
                    (returned (Config.passphrase config)))) as G.
  { rewrite get_run, Hget. cbn zeta.
    pose proof (decryptAll_saved env s id config Hs) as Hd.
    unfold decryptAll in Hd |- *. cbn in Hd |- *.
    destruct (decryptField env _ (stored env _ (Config.password config)))
      as [pw|]; [|done]. cbn in Hd |- *.
    destruct (decryptField env _ (stored env _ (Config.privateKey config)))
      as [pk|]; [|done]. cbn in Hd |- *.
    destruct (decryptField env _ (stored env _ (Config.passphrase config)))
      as [pp|]; [|done]. cbn in Hd |- *.
    by injection Hd as -> -> ->. }
  split; [exact E|]. split; [exact G|].
  fold (rendered (credentials s1)) in E.
  intros Hst Hport. split.
  - rewrite E. apply reparse_stable. rewrite Hc.
    intros k v [[= -> ->]|Hin]%elem_of_set; [|by eapply Hst].
    unfold reparse, StoredCredential.json, saved. cbn. by rewrite Hport.
  - intros Hwf. rewrite G, Hport.
    by destruct (returned_config config Hwf) as (-> & -> & ->).
Qed.

Lemma reconcile_appends entries m :
  ∃ added,
    reconcile entries m = m ++ added ∧
    ∀ k connection,
      (k, connection) ∈ added →
      JsMap.has k m = false ∧
      ∃ c, (k, c) ∈ entries ∧ connection = synthesized k c.
Proof.
  revert m. induction entries as [|[k c] entries IH]; intros m.
  { exists []. split; [by rewrite app_nil_r|]. by intros ? ? ?%elem_of_nil. }
  cbn [reconcile fold_left fst snd]. fold (reconcile entries).
  destruct (JsMap.has k m) eqn:Hk; cbv iota;
    change (fold_left _ entries ?x) with (reconcile entries x).
  - destruct (IH m) as (added & -> & Hadded). exists added. split; [done|].
    intros k' conn Hin. destruct (Hadded _ _ Hin) as (? & c' & ? & ?).
    split; [done|]. exists c'. split; [by apply list_elem_of_further|done].
  - destruct (IH (JsMap.set k (synthesized k c) m)) as (added & -> & Hadded).
    rewrite set_absent by done. exists ((k, synthesized k c) :: added).
    split; [by rewrite <- app_assoc|].
    intros k' conn [[= -> ->]|Hin]%elem_of_cons.
    + split; [done|]. exists c. split; [apply list_elem_of_here|done].
    + destruct (Hadded _ _ Hin) as (Hk' & c' & ? & ?). split.
      * unfold JsMap.has in *. destruct (String.eqb_spec k' k) as [->|Hne].
        -- by rewrite get_set_eq in Hk'.
        -- by rewrite get_set_ne in Hk'.
      * exists c'. split; [by apply list_elem_of_further|done].
Qed.

(** X10. The reconciliation only adds: the connections the constructor
    loaded come first, unchanged and in their order, and each
    connection behind them was made up from a stored credential whose
    id had none. *)
Theorem construct_only_appends cf nf w :
  ∃ added,
    connections (construct (fresh cf nf w)).2 = loaded nf ++ added ∧
    ∀ k connection,
      (k, connection) ∈ added →
      JsMap.has k (loaded nf) = false ∧
      ∃ c, (k, c) ∈ credentials (construct (fresh cf nf w)).2 ∧
           connection = synthesized k c.
Proof.
  destruct (construct_run cf nf w) as (-> & -> & _). apply reconcile_appends.
Qed.

Lemma reconcile_saturated entries m :
  (∀ k c, (k, c) ∈ entries → JsMap.has k m = true) → reconcile entries m = m.
Proof.
  induction entries as [|[k c] entries IH]; intros H; [done|].
  cbn [reconcile fold_left fst snd]. fold (reconcile entries).
  rewrite (H k c) by apply list_elem_of_here. cbv iota.
  change (fold_left _ entries ?x) with (reconcile entries x).
  apply IH. intros k' c' Hin. eapply H. by apply list_elem_of_further.
Qed.

Lemma lacking_false entries m :
  lacking entries m = false ↔ ∀ k c, (k, c) ∈ entries → JsMap.has k m = true.
Proof.
  unfold lacking. induction entries as [|[k c] entries IH]; cbn.
  - split; [by intros _ ? ? ?%elem_of_nil|done].
  - rewrite orb_false_iff, IH, negb_false_iff. split.
    + intros [Hk H] k' c' [[= -> ->]|Hin]%elem_of_cons; [done|]. by eapply H.
    + intros H. split; [by eapply H, list_elem_of_here|].
      intros k' c' Hin. eapply H. by apply list_elem_of_further.
Qed.

Lemma has_reconcile entries m k c :
  (k, c) ∈ entries → JsMap.has k (reconcile entries m) = true.
Proof.
  intros Hin. unfold JsMap.has. rewrite get_reconcile.
  destruct (JsMap.get k m); [done|].
  assert (JsMap.has k entries = true) as Hk.
  { apply has_elem_of_keys. unfold JsMap.keys.
    by apply (list_elem_of_fmap_2 fst) in Hin. }
  unfold JsMap.has in Hk. by destruct (JsMap.get k entries).
Qed.

Lemma migrate_loop_credentialsFile entries b s :
  credentialsFile (forOf entries migrateOne b s).2 = credentialsFile s.
Proof.
  revert b s. induction entries as [|[k c] entries IH]; intros b s; [done|].
  rewrite forOf_cons, migrateOne_run.
  destruct (JsMap.has k (connections s)); cbv iota; cbn [fst snd];
    by rewrite IH.
Qed.

Lemma migrate_files s :
  credentialsFile (migrateFromCredentials s).2 = credentialsFile s ∧
  (connectionsFile (migrateFromCredentials s).2 = connectionsFile s ∨
   connectionsFile (migrateFromCredentials s).2
   = Contents (connections (migrateFromCredentials s).2)).
Proof.
  unfold migrateFromCredentials. run.
  pose proof (migrate_loop (JsMap.entries (credentials s)) false s)
    as (_ & _ & _ & _ & Hf).
  pose proof (migrate_loop_credentialsFile (JsMap.entries (credentials s))
                false s) as Hcf.
  destruct (forOf _ _ _ _) as [migrated s1]. cbn [fst snd] in *.
  destruct migrated; cbn; [|by split; [|left]].
  rewrite persistConnections_run.
  destruct s1 as [? ? ? ? [] ? ? ?]; cbn in *; subst; split; auto.
Qed.

Lemma construct_files cf nf w :
  credentialsFile (construct (fresh cf nf w)).2 = cf ∧
  (connectionsFile (construct (fresh cf nf w)).2 = nf ∨
   connectionsFile (construct (fresh cf nf w)).2
   = Contents (connections (construct (fresh cf nf w)).2)).
Proof.
  unfold construct, load, loadConnections, fresh. run.
  destruct cf as [| |ces], nf as [| |nes]; cbn;
    match goal with
    | |- context [migrateFromCredentials ?s0] =>
        destruct (migrate_files s0) as [Hcf Hnf];
        destruct (migrateFromCredentials s0) as [[] s1]
    end; cbn in *; by split.
Qed.

(** X11. A second start finds nothing to do: a process that starts from
    the files an earlier constructor left holds the same credentials
    and the same connections as that constructor did, whether or not
    the earlier one could write. *)
Theorem restart_is_stable cf nf w w' :
  credentials
    (construct
       (fresh (credentialsFile (construct (fresh cf nf w)).2)
              (connectionsFile (construct (fresh cf nf w)).2) w')).2
  = credentials (construct (fresh cf nf w)).2 ∧
  connections
    (construct
       (fresh (credentialsFile (construct (fresh cf nf w)).2)
              (connectionsFile (construct (fresh cf nf w)).2) w')).2
  = connections (construct (fresh cf nf w)).2.
Proof.
  destruct (construct_files cf nf w) as [Hcf Hnf].
  destruct (construct_run cf nf w) as (Hc0 & Hn0 & _).
  destruct (construct_run (credentialsFile (construct (fresh cf nf w)).2)
              (connectionsFile (construct (fresh cf nf w)).2) w')
    as (-> & -> & _).
  rewrite Hc0, Hn0, Hcf. split; [done|].
  destruct Hnf as [->|Hnf]; [done|]. rewrite Hnf, Hn0. cbn [loaded].
  unfold JsMap.entries.
  rewrite parsed_unique by apply Unique_reconcile, Unique_loaded.
  rewrite reparse_stable.
  - apply reconcile_saturated. intros k c Hin. by eapply has_reconcile.
  - apply Stable_reconcile; apply Stable_loaded;
      [apply reparse_credential_idem|apply reparse_connection_idem].
Qed.

(** X12. Saving again replaces: after [save(id, config)], whatever the
    store held under [id] before, [get(id)] returns exactly the plain
    properties and the non-empty secrets of [config], each secret
    after its trip through UTF-8 and so unchanged when it is a
    well-formed string; a secret of an earlier save that [config] does
    not give is gone; the credential carries the time of this save as
    its creation time and keeps its place among the credentials if it
    had one. *)
Theorem save_replaces env s id config :
  Sound env →
  (get env id (save env id config s).2).1
  = Some (Credential.mk (Config.host config) (Config.port config)
            (Config.username config) (Config.authType config)
            (returned (Config.password config))
            (returned (Config.privateKey config))
            (returned (Config.passphrase config))) ∧
  (wellFormed config →
   (get env id (save env id config s).2).1
   = Some (Credential.mk (Config.host config) (Config.port config)
             (Config.username config) (Config.authType config)
             (kept (Config.password config)) (kept (Config.privateKey config))
             (kept (Config.passphrase config)))) ∧
  (∀ field, kept field = None → returned field = None) ∧
  (StoredCredential.createdAt <$>
     JsMap.get id (credentials (save env id config s).2))
  = Some (dateNow env (dateCalls s)) ∧
  JsMap.keys (credentials (save env id config s).2)
  = keysAfterSet id (credentials s).
Proof.
  intros Hs. pose proof (throws_sound env config Hs) as Ht.
  split; [by apply get_after_save|]. split.
  { intros Hwf. rewrite get_after_save by done.
    by destruct (returned_config config Hwf) as (-> & -> & ->). }
  split; [by intros field; unfold returned; intros ->|].
  rewrite save_credentials, get_set_eq by done. split; [done|apply keys_set].
Qed.

End VaultLife.

(** * The key of the store *)

Section TrimFacts.

Lemma digit_cases n :
  Hex.digit n ∈ ["0"; "1"; "2"; "3"; "4"; "5"; "6"; "7"; "8"; "9";
                 "a"; "b"; "c"; "d"; "e"; "f"]%char.
Proof.
  unfold Hex.digit. destruct n as [|p]; [set_solver|].
  do 5 (try destruct p as [p|p|]); set_solver.
Qed.

Lemma digit_not_white n r : Text.allWhite (String (Hex.digit n) r) = false.
Proof.
  pose proof (digit_cases n) as H.
  repeat (apply elem_of_cons in H as [->|H]);
    [..|by apply elem_of_nil in H];
    (destruct r as [|b [|c r]]; reflexivity).
Qed.

Lemma digit_trimStart n r :
  Text.trimStart (String (Hex.digit n) r) = String (Hex.digit n) r.
Proof.
  pose proof (digit_cases n) as H.
  repeat (apply elem_of_cons in H as [->|H]);
    [..|by apply elem_of_nil in H];
    (destruct r as [|b [|c r]]; reflexivity).
Qed.

Lemma trimStart_toString buf r :
  buf ≠ [] → Text.trimStart (Hex.toString buf +:+ r) = Hex.toString buf +:+ r.
Proof. destruct buf as [|b buf]; [done|]. intros _. apply digit_trimStart. Qed.

Lemma trimEnd_white w : Text.allWhite w = true → Text.trimEnd w = EmptyString.
Proof. destruct w as [|a r]; [done|]. intros H. cbn [Text.trimEnd]. by rewrite H. Qed.

Lemma trimEnd_toString buf w :
  Text.allWhite w = true → Text.trimEnd (Hex.toString buf +:+ w) = Hex.toString buf.
Proof.
  intros Hw. induction buf as [|b buf IH]; [by apply trimEnd_white|].
  change (Hex.toString (b :: buf) +:+ w)
    with (String (Hex.digit (Byte.to_N b / 16))
            (String (Hex.digit (Byte.to_N b mod 16)) (Hex.toString buf +:+ w))).
  cbn [Text.trimEnd]. rewrite !digit_not_white, IH. done.
Qed.

Lemma trimStart_white_app n : ∀ w r,
  (String.length w ≤ n)%nat → Text.allWhite w = true →
  Text.trimStart (w +:+ r) = Text.trimStart r.
Proof.
  induction n as [|n IH]; intros w r Hn Hw.
  { destruct w; [done|]. cbn in Hn. lia. }
  destruct w as [|a w1]; [done|].
  change (String a w1 +:+ r) with (String a (w1 +:+ r)).
  cbn [Text.allWhite] in Hw. cbn [Text.trimStart]. cbn in Hn.
  destruct (Text.white1 a); [apply IH; [lia|done]|].
  destruct w1 as [|b w2]; [done|].
  change (String b w2 +:+ r) with (String b (w2 +:+ r)). cbn in Hn.
  cbv iota.
  destruct (Text.white2 a b); [apply IH; [lia|done]|].
  destruct w2 as [|c w3]; [done|].
  change (String c w3 +:+ r) with (String c (w3 +:+ r)). cbn in Hn.
  cbv iota.
  apply andb_prop in Hw as [-> Hw]. apply IH; [lia|done].
Qed.

Lemma trim_padded_hex lead buf trail :
  buf ≠ [] →
  Text.allWhite lead = true → Text.allWhite trail = true →
  Text.trim (lead +:+ Hex.toString buf +:+ trail) = Hex.toString buf.
Proof.
  intros Hb Hl Ht. unfold Text.trim.
  rewrite (trimStart_white_app (String.length lead)) by done.
  rewrite trimStart_toString by done. by apply trimEnd_toString.
Qed.

Lemma append_empty s : s +:+ EmptyString = s.
Proof.
  induction s as [|a s IH]; [done|].
  change (String a s +:+ EmptyString) with (String a (s +:+ EmptyString)).
  by rewrite IH.
Qed.

Lemma trim_hex buf : buf ≠ [] → Text.trim (Hex.toString buf) = Hex.toString buf.
Proof.
  intros H.
  pose proof (trim_padded_hex EmptyString buf EmptyString H eq_refl eq_refl) as T.
  change (EmptyString +:+ ?x) with x in T. by rewrite append_empty in T.
Qed.

End TrimFacts.

Section StartupFacts.
Import Startup.

(** X13. A key given in the environment is the key: the constructor decodes
    it, neither reads nor writes the key file and draws no entropy,
    whatever the key file holds. *)
Theorem environment_key_wins cfg h key :
  key ≠ [] →
  CREDENTIAL_KEY cfg = Some (Hex.toString key) →
  (provision cfg h).1 = key ∧
  keyFile (provision cfg h).2 = keyFile h ∧
  draws (provision cfg h).2 = draws h.
Proof.
  intros Hk He. unfold provision. rewrite He. cbn [Js.present default].
  rewrite toString_truthy by done. cbn. by rewrite from_toString.
Qed.

(** X14. A generated key is found again: without a key in the environment
    and without a key file, on a disk that can be written, the
    constructor takes the next 32 random bytes as the key and leaves
    them in the key file, in hex and with mode [0o600]; every later
    start that finds this file settles on the same key, draws nothing
    and leaves the file alone. *)
Theorem generated_key_is_read_back cfg h :
  Js.present (CREDENTIAL_KEY cfg) = false →
  keyFile h = Absent →
  writable h = true →
  randomBytes32 cfg (draws h) ≠ [] →
  (provision cfg h).1 = randomBytes32 cfg (draws h) ∧
  keyFile (provision cfg h).2
  = Present (Hex.toString (randomBytes32 cfg (draws h))) 384 ∧
  ∀ h', keyFile h' = keyFile (provision cfg h).2 →
        (provision cfg h').1 = (provision cfg h).1 ∧
        keyFile (provision cfg h').2 = keyFile h' ∧
        draws (provision cfg h').2 = draws h'.
Proof.
  intros He Hf Hw Hk.
  assert (provision cfg h
          = (randomBytes32 cfg (draws h),
             log "Generated and saved new encryption key"
               (setKeyFile
                  (Present (Hex.toString (randomBytes32 cfg (draws h))) 384)
                  (draw h)))) as E.
  { unfold provision. rewrite He, Hf. cbn. by rewrite Hw. }
  rewrite E. cbn [fst snd log setKeyFile keyFile].
  split; [done|]. split; [done|]. intros h' Hf'.
  unfold provision. rewrite He, Hf'. cbn [fst snd log keyFile draws].
  split; [|done].
  rewrite trim_hex by done. apply from_toString.
Qed.

(** X15. White space around the key in the key file does not matter: a key
    file that holds the hex of a key between any white space, such as
    a final line break, yields that key. *)
Theorem key_file_padding_is_ignored cfg h lead key trail mode :
  Js.present (CREDENTIAL_KEY cfg) = false →
  key ≠ [] →
  Text.allWhite lead = true →
  Text.allWhite trail = true →
  keyFile h = Present (lead +:+ Hex.toString key +:+ trail) mode →
  (provision cfg h).1 = key.
Proof.
  intros He Hk Hl Ht Hf. unfold provision. rewrite He, Hf. cbn [fst].
  rewrite trim_padded_hex by done. apply from_toString.
Qed.

(** X16. Without a disk the key does not last: when there is no key in the
    environment and no key file and the file cannot be written, the
    constructor logs the failure and uses the random block drawn after
    the one it failed to save; the key file stays absent, so the next
    start draws again and ends with yet another block.  A key file that
    cannot be read is left alone in the same way. *)
Theorem key_without_disk cfg h :
  Js.present (CREDENTIAL_KEY cfg) = false →
  (keyFile h = Absent → writable h = false →
   (provision cfg h).1 = randomBytes32 cfg (S (draws h)) ∧
   keyFile (provision cfg h).2 = Absent ∧
   writable (provision cfg h).2 = false ∧
   last (console (provision cfg h).2)
   = Some "Failed to load/save encryption key, using random key:" ∧
   (provision cfg (provision cfg h).2).1
   = randomBytes32 cfg (S (S (S (draws h))))) ∧
  (keyFile h = Unreadable →
   (provision cfg h).1 = randomBytes32 cfg (draws h) ∧
   keyFile (provision cfg h).2 = Unreadable ∧
   last (console (provision cfg h).2)
   = Some "Failed to load/save encryption key, using random key:").
Proof.
  intros He. split.
  - intros Hf Hw.
    assert (provision cfg h = fallback cfg (draw h)) as E.
    { unfold provision. rewrite He, Hf. cbn. by rewrite Hw. }
    rewrite E. unfold fallback. cbn [fst snd log draw keyFile writable console draws].
    rewrite last_snoc. do 4 (split; [done|]).
    unfold provision. rewrite He. cbn [keyFile draw log]. rewrite Hf.
    cbn [writable draw log]. by rewrite Hw.
  - intros Hf. unfold provision. rewrite He, Hf. unfold fallback.
    cbn [fst snd log draw keyFile writable console draws].
    by rewrite last_snoc.
Qed.

End StartupFacts.

Section RelayWiring.
Import Relay RelayProps Wiring.

Lemma listenersOf_insert sid k v st :
  listenersOf sid (setSessions (<[k := v]> (sessions st)) st)
  = if decide (k = sid)
    then match Session.shell v with
         | Some sh => Shell.listeners sh
         | None => 0
         end
    else listenersOf sid st.
Proof.
  unfold listenersOf. cbn. rewrite lookup_insert.
  case_decide; [|done]. by destruct v as [[sh|]].
Qed.

Lemma listenersOf_lookup sid st sh :
  sessions st !! sid = Some (Session.mk (Some sh)) →
  listenersOf sid st = Shell.listeners sh.
Proof. unfold listenersOf. by intros ->. Qed.

Lemma Wired_same st st' :
  sessions st' = sessions st → shellOutputSetup st' = shellOutputSetup st →
  Wired st → Wired st'.
Proof.
  intros Hs Hm H sid. unfold listenersOf. rewrite Hs, Hm. apply H.
Qed.

Lemma Wired_insert k v st :
  match Session.shell v with
  | Some sh => Shell.listeners sh = 0 ∨ Shell.listeners sh = listenersOf k st
  | None => True
  end →
  Wired st → Wired (setSessions (<[k := v]> (sessions st)) st).
Proof.
  intros Hv H sid. rewrite listenersOf_insert. cbn [shellOutputSetup setSessions].
  case_decide as Hk; [subst k|apply H].
  destruct (Session.shell v) as [sh|]; [|by left].
  destruct Hv as [->| ->]; [by left|apply H].
Qed.

Lemma Wired_delete k st : Wired st → Wired (setSessions (delete k (sessions st)) st).
Proof.
  intros H sid. unfold listenersOf. cbn. rewrite lookup_delete.
  case_decide; [by left|apply H].
Qed.

Lemma sendMessage_wiring ws message st :
  sessions (sendMessage ws message st) = sessions st ∧
  shellOutputSetup (sendMessage ws message st) = shellOutputSetup st.
Proof.
  unfold sendMessage. destruct (sockets st !! ws) as [sock|]; [|done].
  by destruct (Socket.isOpen sock).
Qed.

Lemma sendMessage_wired ws message st :
  Wired st → Wired (sendMessage ws message st).
Proof.
  apply Wired_same; apply sendMessage_wiring.
Qed.

Lemma sendInput_wired sid data st : Wired st → Wired (sendInput sid data st).2.
Proof.
  intros H. unfold sendInput.
  destruct (sessions st !! sid) as [[[sh|]]|] eqn:Hs; try done.
  destruct (Shell.writable sh); [|done]. cbn [snd].
  apply Wired_insert; [|done]. right. cbn.
  by rewrite (listenersOf_lookup _ _ _ Hs).
Qed.

Lemma resizeTerminal_wired sid cols rows st :
  Wired st → Wired (resizeTerminal sid cols rows st).
Proof.
  intros H. unfold resizeTerminal.
  destruct (sessions st !! sid) as [[[sh|]]|] eqn:Hs; try done.
  apply Wired_insert; [|done]. right. cbn.
  by rewrite (listenersOf_lookup _ _ _ Hs).
Qed.

Lemma createShell_wired sid dims accepted st :
  Wired st → Wired (createShell sid dims accepted st).2.
Proof.
  intros H. unfold createShell.
  destruct (sessions st !! sid) as [[[sh|]]|]; try done.
  destruct accepted; [|done]. cbn [snd]. apply Wired_insert; [|done]. by left.
Qed.

Lemma setupShellOutput_wired sid st : Wired st → Wired (setupShellOutput sid st).
Proof.
  intros H. unfold setupShellOutput, getSession. case_decide as Hin; [done|].
  destruct (sessions st !! sid) as [[[sh|]]|] eqn:Hs; try done.
  intros sid'.
  rewrite (listenersOf_insert sid' sid _
             (setShellOutputSetup ({[sid]} ∪ shellOutputSetup st) st)).
  cbn [shellOutputSetup setSessions setShellOutputSetup Session.shell
       Shell.addListener Shell.listeners].
  case_decide as Hk.
  - subst sid'. right. split; [|set_solver].
    destruct (H sid) as [H0|[_ H1]]; [|done].
    rewrite (listenersOf_lookup _ _ _ Hs) in H0. by rewrite H0.
  - destruct (H sid') as [H0|[H1 H2]]; [by left|right].
    split; [done|set_solver].
Qed.

Lemma handleInput_wired ws message st :
  Wired st → Wired (handleInput ws message st).
Proof.
  intros H. unfold handleInput, sendError.
  destruct (negb _ || negb _); [by apply sendMessage_wired|].
  destruct (ClientMessage.sessionId message) as [| | | |sid|];
    try by apply sendMessage_wired.
  destruct (getSession sid st) as [[shell]|]; [|by apply sendMessage_wired].
  assert (Wired (bindSocket ws sid st)) as Hb by done.
  cbn [Session.shell]. destruct shell as [sh|]; [|done].
  pose proof (sendInput_wired sid (ClientMessage.data message) _ Hb) as Hi.
  destruct (sendInput sid _ (bindSocket ws sid st)) as [[] st2]; [done|].
  by apply sendMessage_wired.
Qed.

Lemma handleResize_wired ws message st :
  Wired st → Wired (handleResize ws message st).
Proof.
  intros H. unfold handleResize.
  destruct (negb _ || negb _ || negb _); [done|].
  destruct (ClientMessage.sessionId message) as [| | | |sid|]; try done.
  destruct (getSession sid st) as [[shell]|]; [|done].
  cbn [Session.shell]. destruct shell as [sh|]; [|done].
  by apply resizeTerminal_wired.
Qed.

Lemma onMessage_wired ws frame st : Wired st → Wired (onMessage ws frame st).
Proof.
  intros H. destruct frame as [| |m]; try by apply sendMessage_wired.
  cbn. unfold handleMessage, sendError.
  destruct (strictEq "input" _); [by apply handleInput_wired|].
  destruct (strictEq "resize" _); [by apply handleResize_wired|].
  destruct (strictEq "ping" _); by apply sendMessage_wired.
Qed.

Lemma resumeInput_wired ws sid data accepted st :
  Wired st → Wired (resumeInput ws sid data accepted st).
Proof.
  intros H. unfold resumeInput, sendError.
  pose proof (createShell_wired sid None accepted _ H) as Hc.
  destruct (createShell sid None accepted st) as [[] st1]; cbn [snd] in Hc;
    [|by apply sendMessage_wired].
  pose proof (sendInput_wired sid data _ (setupShellOutput_wired sid _ Hc)) as Hi.
  destruct (sendInput sid data (setupShellOutput sid st1)) as [[] st3]; [done|].
  by apply sendMessage_wired.
Qed.

Lemma resumeResize_wired sid cols rows accepted st :
  Wired st → Wired (resumeResize sid cols rows accepted st).
Proof.
  intros H. unfold resumeResize.
  pose proof (createShell_wired sid (Some (cols, rows)) accepted _ H) as Hc.
  destruct (createShell sid _ accepted st) as [[] st1]; cbn [snd] in Hc;
    [by apply setupShellOutput_wired|done].
Qed.

Lemma onShellData_wiring sid data st :
  sessions (onShellData sid data st) = sessions st ∧
  shellOutputSetup (onShellData sid data st) = shellOutputSetup st.
Proof.
  unfold onShellData. destruct (sessionToWs st !! sid) as [ws|]; [|done].
  destruct (sockets st !! ws) as [sock|]; [|done].
  destruct (Socket.isOpen sock); [apply sendMessage_wiring|done].
Qed.

Lemma onShellClose_wiring sid st :
  sessions (onShellClose sid st) = sessions st ∧
  shellOutputSetup (onShellClose sid st) = shellOutputSetup st ∖ {[sid]}.
Proof.
  unfold onShellClose. destruct (sessionToWs st !! sid) as [ws|]; [|done].
  destruct (sockets st !! ws) as [sock|]; [|done].
  destruct (Socket.isOpen sock); [|done]. cbn.
  destruct (sendMessage_wiring ws (Disconnect sid) st) as [-> ->]. done.
Qed.

Lemma iter_wiring n (f : State → State) st :
  (∀ x, sessions (f x) = sessions x ∧
        shellOutputSetup (f x) = shellOutputSetup x) →
  sessions (Nat.iter n f st) = sessions st ∧
  shellOutputSetup (Nat.iter n f st) = shellOutputSetup st.
Proof.
  intros Hf. induction n as [|n [IH1 IH2]]; [done|].
  change (Nat.iter (S n) f st) with (f (Nat.iter n f st)).
  destruct (Hf (Nat.iter n f st)) as [-> ->]. done.
Qed.

Lemma iter_onShellClose n sid st :
  sessions (Nat.iter n (onShellClose sid) st) = sessions st ∧
  ∀ sid', sid' ≠ sid →
          (sid' ∈ shellOutputSetup (Nat.iter n (onShellClose sid) st)
           ↔ sid' ∈ shellOutputSetup st).
Proof.
  induction n as [|n [IH1 IH2]]; [done|].
  change (Nat.iter (S n) (onShellClose sid) st)
    with (onShellClose sid (Nat.iter n (onShellClose sid) st)).
  destruct (onShellClose_wiring sid (Nat.iter n (onShellClose sid) st))
    as [-> ->].
  split; [done|]. intros sid' Hne. rewrite <- (IH2 sid' Hne).
  rewrite elem_of_difference, elem_of_singleton. tauto.
Qed.

Lemma emit_onShellData_wired sid data st :
  Wired st → Wired (emit sid (onShellData sid data) st).
Proof.
  unfold emit. destruct (getSession sid st) as [[[sh|]]|]; try done.
  apply Wired_same; apply iter_wiring; intros x; apply onShellData_wiring.
Qed.

Lemma shellClose_wired sid st : Wired st → Wired (step st (ShellClose sid)).
Proof.
  intros H. cbn [step].
  assert (sessions (emit sid (onShellClose sid) st) = sessions st ∧
          ∀ sid', sid' ≠ sid →
                  (sid' ∈ shellOutputSetup (emit sid (onShellClose sid) st)
                   ↔ sid' ∈ shellOutputSetup st)) as [Hs Hm].
  { unfold emit. destruct (getSession sid st) as [[[sh|]]|]; try done.
    apply iter_onShellClose. }
  revert Hs Hm. generalize (emit sid (onShellClose sid) st). intros st1 Hs Hm.
  unfold getSession. rewrite Hs.
  destruct (sessions st !! sid) as [session|] eqn:Hsid.
  - intros sid'. unfold listenersOf. cbn. rewrite lookup_insert.
    case_decide as Hk; [by left|].
    destruct (H sid') as [H0|[H1 H2]]; [by left|right].
    split; [done|]. by apply Hm.
  - intros sid'. destruct (decide (sid' = sid)) as [->|Hne].
    + left. unfold listenersOf. by rewrite Hs, Hsid.
    + unfold listenersOf. rewrite Hs.
      destruct (H sid') as [H0|[H1 H2]]; [by left|right].
      split; [done|]. by apply Hm.
Qed.

Lemma step_wired st e : Wired st → Wired (step st e).
Proof.
  intros H. destruct e as [ws|ws frame|ws|ws| |task accepted|sid data|sid
                           |sid b|sid|sid].
  - cbn. by destruct (sockets st !! ws).
  - cbn. destruct (sockets st !! ws); [by apply onMessage_wired|done].
  - done.
  - cbn. unfold onClose. destruct (sockets st !! ws) as [sock|]; [|done].
    destruct (Socket.sessionId sock) as [sid|]; [|done].
    by destruct (Js.truthy sid && _).
  - done.
  - cbn. destruct (pending st !! task) as [[ws sid data|ws sid cols rows]|];
      [by apply resumeInput_wired|by apply resumeResize_wired|done].
  - by apply emit_onShellData_wired.
  - by apply shellClose_wired.
  - cbn. unfold getSession.
    destruct (sessions st !! sid) as [[[sh|]]|] eqn:Hs; try done.
    apply Wired_insert; [|done]. right. cbn.
    by rewrite (listenersOf_lookup _ _ _ Hs).
  - cbn. destruct (getSession sid st); [done|]. by apply Wired_insert.
  - by apply Wired_delete.
Qed.

Lemma run_wired events st : Wired st → Wired (run st events).
Proof.
  revert st. induction events as [|e events IH]; intros st H; [done|].
  apply IH. by apply step_wired.
Qed.

Lemma initial_wired : Wired initial.
Proof. intros sid. by left. Qed.

Lemma framesTo_send ws ws' message st sock :
  sockets st !! ws = Some sock → Socket.isOpen sock = true →
  framesTo ws' (sendMessage ws message st)
  = if decide (ws = ws') then framesTo ws' st ++ [message] else framesTo ws' st.
Proof.
  intros Hs Ho. rewrite (sendMessage_open _ _ _ _ Hs Ho). unfold framesTo.
  cbn. rewrite lookup_insert. case_decide as Hw; [|done]. subst ws'.
  rewrite Hs. cbn. unfold frames. cbn. by rewrite omap_app.
Qed.

(** X17. However the relay was driven, every shell has at most one listener
    of the relay: a chunk of output of a session is relayed at most
    once, as one [output] frame to the socket the session is bound to,
    and no other socket is sent anything for it. *)
Theorem output_is_relayed_once events sid data :
  (listenersOf sid (run initial events) ≤ 1)%nat ∧
  ∀ ws,
    framesTo ws (step (run initial events) (ShellData sid data))
    = framesTo ws (run initial events)
    ∨ (sessionToWs (run initial events) !! sid = Some ws ∧
       framesTo ws (step (run initial events) (ShellData sid data))
       = framesTo ws (run initial events) ++ [Output sid data]).
Proof.
  pose proof (run_wired events initial initial_wired sid) as H.
  set (st := run initial events) in *.
  split; [destruct H as [->|[-> _]]; lia|].
  intros ws. cbn [step]. unfold emit, getSession.
  unfold listenersOf in H.
  destruct (sessions st !! sid) as [[[sh|]]|]; try by left.
  destruct H as [->|[-> _]]; [by left|].
  change (Nat.iter 1 ?f ?x) with (f x). unfold onShellData.
  destruct (sessionToWs st !! sid) as [ws0|]; [|by left].
  destruct (sockets st !! ws0) as [sock|] eqn:Hs; [|by left].
  destruct (Socket.isOpen sock) eqn:Ho; [|by left].
  rewrite (framesTo_send _ _ _ _ _ Hs Ho).
  case_decide as Hw; [subst ws0; by right|by left].
Qed.

End RelayWiring.

Section RelayTouch.
Import Relay RelayProps Wiring.

Lemma Touched_refl st : Touched st st.
Proof. intros ws sock Hs. exists sock. split; [done|apply Touch_refl]. Qed.

Lemma Touched_trans st1 st2 st3 :
  Touched st1 st2 → Touched st2 st3 → Touched st1 st3.
Proof.
  intros H12 H23 ws sock Hs.
  destruct (H12 ws sock Hs) as (sock2 & Hs2 & Ht2).
  destruct (H23 ws sock2 Hs2) as (sock3 & Hs3 & Ht3).
  exists sock3. split; [done|]. by apply Touch_trans with sock2.
Qed.

Lemma Touched_same st st' : sockets st' = sockets st → Touched st st'.
Proof. intros H ws sock Hs. exists sock. rewrite H. split; [done|apply Touch_refl]. Qed.

Lemma Touched_iter n (f : State → State) st :
  (∀ x, Touched x (f x)) → Touched st (Nat.iter n f st).
Proof.
  intros Hf. induction n as [|n IH]; [apply Touched_refl|].
  change (Nat.iter (S n) f st) with (f (Nat.iter n f st)).
  by apply Touched_trans with (Nat.iter n f st).
Qed.

Lemma sendMessage_touched ws message st : Touched st (sendMessage ws message st).
Proof.
  unfold sendMessage. destruct (sockets st !! ws) as [sock|] eqn:Hs;
    [|apply Touched_refl].
  destruct (Socket.isOpen sock) eqn:Ho; [|apply Touched_refl].
  intros ws' sock' Hs'. cbn. rewrite lookup_insert.
  case_decide as Hw; [|exists sock'; split; [done|apply Touch_refl]].
  subst ws'. rewrite Hs in Hs'. injection Hs' as <-.
  eexists. split; [done|]. by apply Touch_send.
Qed.

Lemma bindSocket_touched ws sid st : Touched st (bindSocket ws sid st).
Proof.
  intros ws' sock' Hs'. cbn. rewrite lookup_alter.
  case_decide as Hw; [|exists sock'; split; [done|apply Touch_refl]].
  subst ws'. rewrite Hs'. eexists. split; [done|]. apply Touch_session.
Qed.

Lemma sendInput_sockets sid data st : sockets (sendInput sid data st).2 = sockets st.
Proof.
  unfold sendInput. destruct (sessions st !! sid) as [[[sh|]]|]; try done.
  by destruct (Shell.writable sh).
Qed.

Lemma resizeTerminal_sockets sid cols rows st :
  sockets (resizeTerminal sid cols rows st) = sockets st.
Proof. unfold resizeTerminal. by destruct (sessions st !! sid) as [[[sh|]]|]. Qed.

Lemma createShell_sockets sid dims accepted st :
  sockets (createShell sid dims accepted st).2 = sockets st.
Proof.
  unfold createShell. destruct (sessions st !! sid) as [[[sh|]]|]; try done.
  by destruct accepted.
Qed.

Lemma setupShellOutput_sockets sid st :
  sockets (setupShellOutput sid st) = sockets st.
Proof.
  unfold setupShellOutput. case_decide; [done|].
  by destruct (getSession sid st) as [[[sh|]]|].
Qed.

Lemma handleInput_touched ws message st : Touched st (handleInput ws message st).
Proof.
  unfold handleInput, sendError.
  destruct (negb _ || negb _); [apply sendMessage_touched|].
  destruct (ClientMessage.sessionId message) as [| | | |sid|];
    try apply sendMessage_touched.
  destruct (getSession sid st) as [[shell]|]; [|apply sendMessage_touched].
  apply Touched_trans with (bindSocket ws sid st); [apply bindSocket_touched|].
  cbn [Session.shell]. destruct shell as [sh|]; [|by apply Touched_same].
  pose proof (sendInput_sockets sid (ClientMessage.data message)
                (bindSocket ws sid st)) as Hi.
  destruct (sendInput sid _ (bindSocket ws sid st)) as [[] st2]; cbn [snd] in Hi;
    [by apply Touched_same|].
  apply Touched_trans with st2; [by apply Touched_same|apply sendMessage_touched].
Qed.

Lemma handleResize_touched ws message st :
  Touched st (handleResize ws message st).
Proof.
  unfold handleResize.
  destruct (negb _ || negb _ || negb _); [apply Touched_refl|].
  destruct (ClientMessage.sessionId message) as [| | | |sid|];
    try apply Touched_refl.
  destruct (getSession sid st) as [[shell]|]; [|apply Touched_refl].
  apply Touched_trans with (bindSocket ws sid st); [apply bindSocket_touched|].
  cbn [Session.shell]. destruct shell as [sh|]; [|by apply Touched_same].
  apply Touched_same, resizeTerminal_sockets.
Qed.

Lemma onMessage_touched ws frame st : Touched st (onMessage ws frame st).
Proof.
  destruct frame as [| |m]; try apply sendMessage_touched.
  cbn. unfold handleMessage, sendError.
  destruct (strictEq "input" _); [apply handleInput_touched|].
  destruct (strictEq "resize" _); [apply handleResize_touched|].
  destruct (strictEq "ping" _); apply sendMessage_touched.
Qed.

Lemma resumeInput_touched ws sid data accepted st :
  Touched st (resumeInput ws sid data accepted st).
Proof.
  unfold resumeInput, sendError.
  pose proof (createShell_sockets sid None accepted st) as Hc.
  destruct (createShell sid None accepted st) as [[] st1]; cbn [snd] in Hc.
  - pose proof (sendInput_sockets sid data (setupShellOutput sid st1)) as Hi.
    rewrite setupShellOutput_sockets, Hc in Hi.
    destruct (sendInput sid data (setupShellOutput sid st1)) as [[] st3];
      cbn [snd] in Hi; [by apply Touched_same|].
    apply Touched_trans with st3; [by apply Touched_same|apply sendMessage_touched].
  - apply Touched_trans with st1; [by apply Touched_same|apply sendMessage_touched].
Qed.

Lemma resumeResize_touched sid cols rows accepted st :
  Touched st (resumeResize sid cols rows accepted st).
Proof.
  unfold resumeResize.
  pose proof (createShell_sockets sid (Some (cols, rows)) accepted st) as Hc.
  destruct (createShell sid _ accepted st) as [[] st1]; cbn [snd] in Hc.
  - apply Touched_same. by rewrite setupShellOutput_sockets.
  - by apply Touched_same.
Qed.

Lemma onShellData_touched sid data st : Touched st (onShellData sid data st).
Proof.
  unfold onShellData. destruct (sessionToWs st !! sid) as [ws|];
    [|apply Touched_refl].
  destruct (sockets st !! ws) as [sock|]; [|apply Touched_refl].
  destruct (Socket.isOpen sock); [apply sendMessage_touched|apply Touched_refl].
Qed.

Lemma onShellClose_touched sid st : Touched st (onShellClose sid st).
Proof.
  unfold onShellClose.
  set (st1 := match sessionToWs st !! sid with Some _ => _ | None => _ end).
  apply Touched_trans with st1; [|by apply Touched_same].
  subst st1. destruct (sessionToWs st !! sid) as [ws|]; [|apply Touched_refl].
  destruct (sockets st !! ws) as [sock|]; [|apply Touched_refl].
  destruct (Socket.isOpen sock); [apply sendMessage_touched|apply Touched_refl].
Qed.

Lemma emit_touched sid f st : (∀ x, Touched x (f x)) → Touched st (emit sid f st).
Proof.
  intros Hf. unfold emit.
  destruct (getSession sid st) as [[[sh|]]|]; try apply Touched_refl.
  by apply Touched_iter.
Qed.

Lemma Touch_sweep sock : Touch sock (sweep sock).
Proof.
  unfold sweep. destruct (negb (Socket.isAlive sock)); [apply Touch_terminate|].
  apply Touch_trans with (Socket.setIsAlive false sock); [apply Touch_alive|].
  unfold ping. destruct (Socket.isOpen _) eqn:Ho; [by apply Touch_ping|].
  apply Touch_refl.
Qed.

Lemma step_touched st e : Touched st (step st e).
Proof.
  destruct e as [ws|ws frame|ws|ws| |task accepted|sid data|sid|sid b|sid|sid].
  - cbn. destruct (sockets st !! ws) eqn:Hn; [apply Touched_refl|].
    intros ws' sock' Hs'. cbn. rewrite lookup_insert_ne by congruence.
    exists sock'. split; [done|apply Touch_refl].
  - cbn. destruct (sockets st !! ws); [apply onMessage_touched|apply Touched_refl].
  - intros ws' sock' Hs'. cbn. rewrite lookup_alter.
    case_decide as Hw; [|exists sock'; split; [done|apply Touch_refl]].
    subst ws'. rewrite Hs'. eexists. split; [done|]. apply Touch_alive.
  - cbn. unfold onClose.
    set (st1 := setClients _ _).
    assert (Touched st st1) as H1.
    { intros ws' sock' Hs'. cbn. rewrite lookup_alter.
      case_decide as Hw; [|exists sock'; split; [done|apply Touch_refl]].
      subst ws'. rewrite Hs'. eexists. split; [done|]. apply Touch_closed. }
    destruct (sockets st !! ws) as [sock|]; [|done].
    destruct (Socket.sessionId sock) as [sid|]; [|done].
    destruct (Js.truthy sid && _); [|done].
    apply Touched_trans with st1; [done|by apply Touched_same].
  - intros ws' sock' Hs'. cbn. rewrite map_lookup_imap, Hs'. cbn.
    eexists. split; [done|]. case_decide; [apply Touch_sweep|apply Touch_refl].
  - cbn. destruct (pending st !! task) as [[ws sid data|ws sid cols rows]|];
      [| |apply Touched_refl].
    + apply Touched_trans with (setPending (delete task (pending st)) st);
        [by apply Touched_same|apply resumeInput_touched].
    + apply Touched_trans with (setPending (delete task (pending st)) st);
        [by apply Touched_same|apply resumeResize_touched].
  - apply emit_touched. intros x. apply onShellData_touched.
  - cbn. set (st1 := emit sid (onShellClose sid) st).
    assert (Touched st st1) as H1.
    { apply emit_touched. intros x. apply onShellClose_touched. }
    destruct (getSession sid st1); [|done].
    apply Touched_trans with st1; [done|by apply Touched_same].
  - cbn. destruct (getSession sid st) as [[[sh|]]|]; try apply Touched_refl.
    by apply Touched_same.
  - cbn. destruct (getSession sid st); [apply Touched_refl|by apply Touched_same].
  - by apply Touched_same.
Qed.

Lemma run_touched events st : Touched st (run st events).
Proof.
  revert st. induction events as [|e events IH]; intros st;
    [apply Touched_refl|].
  apply Touched_trans with (step st e); [apply step_touched|apply IH].
Qed.

Lemma frames_push w sock :
  frames (Socket.push w sock)
  = frames sock ++ match w with Sent m => [m] | _ => [] end.
Proof. unfold frames. cbn. rewrite omap_app. by destruct w. Qed.

Lemma Touch_shut a b :
  Touch a b → Socket.isOpen a = false →
  Socket.isOpen b = false ∧ frames b = frames a.
Proof.
  induction 1 as [sock|a b c _ IH1 _ IH2|m sock Ho|sock Ho|sid sock|v sock
                  |sock|sock]; intros Hc; try done.
  - destruct (IH1 Hc) as [Hb Hf]. destruct (IH2 Hb) as [Hc' Hf'].
    split; congruence.
  - congruence.
  - congruence.
  - unfold terminate. destruct (Socket.readyState sock) eqn:Hr; try done;
      (split; [done|]);
      unfold frames; cbn; rewrite omap_app; cbn; by rewrite app_nil_r.
Qed.

(** X18. A socket that is not open is never sent a frame again: whatever
    happens afterwards, it stays known to the relay, stays not open, and
    the frames it was sent are the ones it had been sent before. *)
Theorem closed_socket_hears_nothing st events ws sock :
  sockets st !! ws = Some sock →
  Socket.isOpen sock = false →
  ∃ sock', sockets (run st events) !! ws = Some sock' ∧
           Socket.isOpen sock' = false ∧
           frames sock' = frames sock.
Proof.
  intros Hs Hc. destruct (run_touched events st ws sock Hs) as (sock' & Hs' & Ht).
  exists sock'. split; [done|]. by apply Touch_shut.
Qed.

End RelayTouch.

Section RelayEdges.
Import Relay RelayProps Wiring.

Lemma not_elem_of_without (A : nat) (X : gset nat) : A ∉ X ∖ {[A]}.
Proof.
  intros [_ Hx]%elem_of_difference. apply Hx. by apply elem_of_singleton.
Qed.

(** X19. When a socket closes, the relay drops it from the clients and
    removes one binding at most: that of the session the socket named
    last, and only if that session is still bound to this socket.  A
    session that another socket has taken over stays with that socket,
    and so does every binding the closing socket made for a session it
    named earlier. *)
Theorem close_unbinds_last_session_only st A sock :
  sockets st !! A = Some sock →
  (A ∉ clients (step st (Close A))) ∧
  (∀ sid B, B ≠ A → sessionToWs st !! sid = Some B →
            sessionToWs (step st (Close A)) !! sid = Some B) ∧
  (∀ sid, Socket.sessionId sock = Some sid → Js.truthy sid = true →
          sessionToWs st !! sid = Some A →
          sessionToWs (step st (Close A)) !! sid = None) ∧
  (∀ sid, Socket.sessionId sock ≠ Some sid →
          sessionToWs (step st (Close A)) !! sid = sessionToWs st !! sid).
Proof.
  intros Hs. cbn [step]. unfold onClose. rewrite Hs.
  destruct (Socket.sessionId sock) as [sid0|] eqn:Hid.
  - destruct (Js.truthy sid0 && bool_decide _) eqn:Hg.
    + apply andb_true_iff in Hg as [Ht Hb]. apply bool_decide_eq_true in Hb.
      cbn. split; [apply not_elem_of_without|]. split; [|split].
      * intros sid B HB Hl. rewrite lookup_delete.
        case_decide; [congruence|done].
      * intros sid [= <-] _ _. by rewrite lookup_delete_eq.
      * intros sid Hne. rewrite lookup_delete_ne; congruence.
    + cbn. split; [apply not_elem_of_without|]. split; [done|]. split; [|done].
      intros sid [= <-] Ht Hb. rewrite Ht in Hg. cbn in Hg.
      by apply bool_decide_eq_false in Hg.
  - cbn. split; [apply not_elem_of_without|]. by split.
Qed.

Lemma sendInput_unknown sid sid' data st :
  sessions st !! sid = None → sessions (sendInput sid' data st).2 !! sid = None.
Proof.
  intros Hn. unfold sendInput.
  destruct (sessions st !! sid') as [[[sh|]]|] eqn:Hs; try done.
  destruct (Shell.writable sh); [|done]. cbn.
  rewrite lookup_insert_ne; [done|congruence].
Qed.

Lemma resizeTerminal_unknown sid sid' cols rows st :
  sessions st !! sid = None →
  sessions (resizeTerminal sid' cols rows st) !! sid = None.
Proof.
  intros Hn. unfold resizeTerminal.
  destruct (sessions st !! sid') as [[[sh|]]|] eqn:Hs; try done.
  cbn. rewrite lookup_insert_ne; [done|congruence].
Qed.

Lemma sendMessage_unknown ws message sid st :
  sessions st !! sid = None →
  sessionToWs (sendMessage ws message st) !! sid = sessionToWs st !! sid ∧
  sessions (sendMessage ws message st) !! sid = None.
Proof.
  intros Hn. rewrite sendMessage_sessionToWs.
  by destruct (sendMessage_wiring ws message st) as [-> _].
Qed.

Lemma handleInput_unknown ws message sid st :
  sessions st !! sid = None →
  sessionToWs (handleInput ws message st) !! sid = sessionToWs st !! sid ∧
  sessions (handleInput ws message st) !! sid = None.
Proof.
  intros Hn. unfold handleInput, sendError.
  destruct (negb _ || negb _); [by apply sendMessage_unknown|].
  destruct (ClientMessage.sessionId message) as [| | | |sid'|];
    try by apply sendMessage_unknown.
  unfold getSession.
  destruct (sessions st !! sid') as [[shell]|] eqn:Hs';
    [|by apply sendMessage_unknown].
  assert (sid' ≠ sid) as Hne by congruence.
  assert (sessionToWs (bindSocket ws sid' st) !! sid = sessionToWs st !! sid)
    as Hb by (cbn; by rewrite lookup_insert_ne).
  cbn [Session.shell]. destruct shell as [sh|]; [|done].
  pose proof (sendInput_unknown sid sid' (ClientMessage.data message)
                (bindSocket ws sid' st) Hn) as Hi.
  pose proof (sendInput_sessionToWs sid' (ClientMessage.data message)
                (bindSocket ws sid' st)) as Hi'.
  destruct (sendInput sid' _ (bindSocket ws sid' st)) as [[] st2];
    cbn [snd] in Hi, Hi'.
  - by rewrite Hi'.
  - destruct (sendMessage_unknown ws (Error (Str sid') "Failed to send input")
                sid st2 Hi) as [-> ->].
    by rewrite Hi'.
Qed.

Lemma handleResize_unknown ws message sid st :
  sessions st !! sid = None →
  sessionToWs (handleResize ws message st) !! sid = sessionToWs st !! sid ∧
  sessions (handleResize ws message st) !! sid = None.
Proof.
  intros Hn. unfold handleResize.
  destruct (negb _ || negb _ || negb _); [done|].
  destruct (ClientMessage.sessionId message) as [| | | |sid'|]; try done.
  unfold getSession.
  destruct (sessions st !! sid') as [[shell]|] eqn:Hs'; [|done].
  assert (sid' ≠ sid) as Hne by congruence.
  cbn [Session.shell]. destruct shell as [sh|].
  - rewrite resizeTerminal_sessionToWs. split.
    + cbn. by rewrite lookup_insert_ne.
    + by apply resizeTerminal_unknown.
  - split; [|done]. cbn. by rewrite lookup_insert_ne.
Qed.

(** X20. A session that [sshManager] does not know is never bound: whatever
    frame a socket sends, the session stays unknown and its binding is
    what it was.  An input frame for it is answered with [Session not
    found] and the session id, and changes nothing else; a resize frame
    for it changes nothing at all. *)
Theorem unknown_session_is_refused st ws sock sid :
  sockets st !! ws = Some sock →
  Socket.isOpen sock = true →
  sessions st !! sid = None →
  (∀ frame,
     sessionToWs (step st (Message ws frame)) !! sid = sessionToWs st !! sid ∧
     sessions (step st (Message ws frame)) !! sid = None) ∧
  (∀ data cols rows,
     Js.truthy sid = true → truthy data = true →
     step st (Message ws (inputFrame sid data cols rows))
     = setSockets
         (<[ws := Socket.push (Sent (Error (Str sid) "Session not found")) sock]>
            (sockets st)) st) ∧
  (∀ data cols rows,
     step st (Message ws (Parsed (ClientMessage.mk (Str "resize") (Str sid)
                                    data cols rows))) = st).
Proof.
  intros Hs Ho Hn. split; [|split].
  - intros frame. cbn [step]. rewrite Hs.
    destruct frame as [| |m]; try by apply sendMessage_unknown.
    cbn. unfold handleMessage, sendError.
    destruct (strictEq "input" _); [by apply handleInput_unknown|].
    destruct (strictEq "resize" _); [by apply handleResize_unknown|].
    destruct (strictEq "ping" _); by apply sendMessage_unknown.
  - intros data cols rows Ht Hd. cbn [step]. rewrite Hs.
    cbn. unfold handleMessage. cbn. unfold handleInput. cbn.
    rewrite Ht, Hd. cbn. unfold getSession. rewrite Hn.
    unfold sendError. by apply sendMessage_open.
  - intros data cols rows. cbn [step]. rewrite Hs.
    cbn. unfold handleMessage. cbn. unfold handleResize. cbn.
    destruct (negb _ || negb _ || negb _); [done|].
    unfold getSession. by rewrite Hn.
Qed.

(** X21. When the shell of a session cannot be opened, the two handlers
    differ: the socket whose input was waiting is told [Failed to create
    shell] with the session id, while a waiting resize is dropped with a
    line on the console and no frame to anybody.  In both cases the
    session stays without a shell, nothing is wired and the waiting
    task is gone. *)
Theorem createShell_failure st task ws sock sid :
  sockets st !! ws = Some sock →
  Socket.isOpen sock = true →
  sessions st !! sid = Some (Session.mk None) →
  (∀ data,
     pending st !! task = Some (InputPending ws sid data) →
     step st (CreateShellSettled task false)
     = setSockets
         (<[ws := Socket.push (Sent (Error (Str sid) "Failed to create shell"))
                    sock]> (sockets st))
         (setPending (delete task (pending st)) st)) ∧
  (∀ cols rows,
     pending st !! task = Some (ResizePending ws sid cols rows) →
     step st (CreateShellSettled task false)
     = setConsole
         (console st ++
            ["Failed to create shell for session " +:+ sid +:+
             ", will retry later"])
         (setPending (delete task (pending st)) st)).
Proof.
  intros Hs Ho Hn. split.
  - intros data Hp. cbn [step]. rewrite Hp. unfold resumeInput, createShell.
    cbn [sessions setPending]. rewrite Hn. cbn [Session.shell].
    unfold sendError. by rewrite (sendMessage_open ws _ _ sock).
  - intros cols rows Hp. cbn [step]. rewrite Hp. unfold resumeResize, createShell.
    cbn [sessions setPending]. rewrite Hn. done.
Qed.

End RelayEdges.

Section RelayShells.
Import Relay RelayProps Wiring.

(** X22. The first input for a session without a shell opens one: once
    [createShell] has answered, the session has a shell with exactly one
    listener of the relay, the data of the frame is the first thing
    written to it, the session is marked as wired and bound to the
    socket that sent the input.  The socket is sent nothing, and no task
    is left waiting. *)
Theorem first_input_opens_the_shell st ws sock sid data cols rows :
  sockets st !! ws = Some sock →
  sessions st !! sid = Some (Session.mk None) →
  sid ∉ shellOutputSetup st →
  Js.truthy sid = true →
  truthy data = true →
  sessions (run st [Message ws (inputFrame sid data cols rows);
                    CreateShellSettled (length (pending st)) true]) !! sid
  = Some (Session.mk (Some (Shell.mk 1 [data] None true))) ∧
  (sid ∈ shellOutputSetup
           (run st [Message ws (inputFrame sid data cols rows);
                    CreateShellSettled (length (pending st)) true])) ∧
  sessionToWs (run st [Message ws (inputFrame sid data cols rows);
                       CreateShellSettled (length (pending st)) true]) !! sid
  = Some ws ∧
  pending (run st [Message ws (inputFrame sid data cols rows);
                   CreateShellSettled (length (pending st)) true])
  = pending st ∧
  framesTo ws (run st [Message ws (inputFrame sid data cols rows);
                       CreateShellSettled (length (pending st)) true])
  = framesTo ws st.
Proof.
  intros Hs Hn Hm Ht Hd. unfold run. cbn [fold_left].
  assert (step st (Message ws (inputFrame sid data cols rows))
          = setPending (pending st ++ [InputPending ws sid data])
              (bindSocket ws sid st)) as ->.
  { cbn [step]. rewrite Hs. cbn. unfold handleMessage. cbn.
    unfold handleInput. cbn. rewrite Ht, Hd. cbn.
    unfold getSession. by rewrite Hn. }
  cbn [step pending setPending].
  rewrite lookup_app_r, Nat.sub_diag by lia. cbn [lookup list_lookup].
  rewrite delete_middle, app_nil_r.
  unfold resumeInput, createShell.
  cbn [sessions setPending bindSocket setSessionToWs setSockets].
  rewrite Hn. cbn [Session.shell].
  unfold setupShellOutput.
  cbn [shellOutputSetup setSessions]. rewrite decide_False by done.
  unfold getSession. cbn [sessions setSessions]. rewrite lookup_insert_eq.
  unfold sendInput. cbn [sessions setSessions setShellOutputSetup].
  rewrite lookup_insert_eq. cbn [Shell.writable Shell.addListener].
  cbn. rewrite lookup_insert_eq. split; [done|].
  split; [apply elem_of_union_l; by apply elem_of_singleton|].
  rewrite lookup_insert_eq. split; [done|]. split; [done|].
  unfold framesTo. cbn. rewrite lookup_alter_eq, Hs. done.
Qed.

Lemma onShellClose_unbinds sid st : sessionToWs (onShellClose sid st) !! sid = None.
Proof. unfold onShellClose. cbn. by rewrite lookup_delete_eq. Qed.

Lemma onShellClose_frames sid st ws :
  framesTo ws (onShellClose sid st)
  = if bool_decide (sessionToWs st !! sid = Some ws) && isOpenAt ws st
    then framesTo ws st ++ [Disconnect sid] else framesTo ws st.
Proof.
  unfold onShellClose, isOpenAt.
  destruct (sessionToWs st !! sid) as [ws0|] eqn:Hb; [|done].
  destruct (decide (ws0 = ws)) as [->|Hne].
  - rewrite bool_decide_eq_true_2 by done.
    destruct (sockets st !! ws) as [sock|] eqn:Hs; [|done].
    cbn [from_option andb].
    destruct (Socket.isOpen sock) eqn:Ho; [|unfold framesTo; cbn; by rewrite Hs].
    change (framesTo ws (sendMessage ws (Disconnect sid) st)
            = framesTo ws st ++ [Disconnect sid]).
    rewrite (framesTo_send _ _ _ _ _ Hs Ho). by rewrite decide_True.
  - rewrite bool_decide_eq_false_2 by congruence. cbn [andb].
    destruct (sockets st !! ws0) as [sock|] eqn:Hs; [|done].
    destruct (Socket.isOpen sock) eqn:Ho; [|done].
    change (framesTo ws (sendMessage ws0 (Disconnect sid) st) = framesTo ws st).
    rewrite (framesTo_send _ _ _ _ _ Hs Ho). by rewrite decide_False.
Qed.

(** X23. When a wired shell closes, the socket its session is bound to is
    told so with one [disconnect] frame if it is open, and nobody else
    is told anything; the session has no shell any more, is no longer
    marked as wired and is bound to no socket, so that the next input
    starts afresh. *)
Theorem shell_close_unwires st sid sh :
  sessions st !! sid = Some (Session.mk (Some sh)) →
  Shell.listeners sh = 1 →
  sessions (step st (ShellClose sid)) !! sid = Some (Session.mk None) ∧
  (sid ∉ shellOutputSetup (step st (ShellClose sid))) ∧
  sessionToWs (step st (ShellClose sid)) !! sid = None ∧
  ∀ ws,
    framesTo ws (step st (ShellClose sid))
    = if bool_decide (sessionToWs st !! sid = Some ws) && isOpenAt ws st
      then framesTo ws st ++ [Disconnect sid] else framesTo ws st.
Proof.
  intros Hs Hl. cbn [step]. unfold emit, getSession. rewrite Hs, Hl.
  change (Nat.iter 1 ?f ?x) with (f x).
  destruct (onShellClose_wiring sid st) as [Hs' Hm']. rewrite Hs', Hs.
  cbn [sessions setSessions shellOutputSetup sessionToWs].
  rewrite lookup_insert_eq. split; [done|]. rewrite Hm'.
  split; [|split].
  - intros [_ Hx]%elem_of_difference. apply Hx. by apply elem_of_singleton.
  - apply onShellClose_unbinds.
  - intros ws. apply onShellClose_frames.
Qed.

Lemma input_step st ws sock sid sh data cols rows :
  sockets st !! ws = Some sock →
  sessions st !! sid = Some (Session.mk (Some sh)) →
  Shell.writable sh = true →
  Js.truthy sid = true →
  truthy data = true →
  step st (Message ws (inputFrame sid data cols rows))
  = setSessions (<[sid := Session.mk (Some (Shell.write data sh))]> (sessions st))
      (bindSocket ws sid st).
Proof.
  intros Hs Hn Hw Ht Hd. cbn [step]. rewrite Hs. cbn. unfold handleMessage. cbn.
  unfold handleInput. cbn. rewrite Ht, Hd. cbn.
  unfold getSession. rewrite Hn. cbn [Session.shell].
  unfold sendInput. cbn [sessions bindSocket setSessionToWs setSockets].
  rewrite Hn, Hw. done.
Qed.

(** X24. What is typed reaches the shell in the order of arrival: input
    frames for a session with a writable shell, from whatever sockets
    they come, append their data to what was written to the shell, one
    after the other; no socket is sent a reply, and the session ends
    bound to the socket of the last frame. *)
Theorem keystrokes_arrive_in_order sid keys : ∀ st sh,
  Js.truthy sid = true →
  sessions st !! sid = Some (Session.mk (Some sh)) →
  Shell.writable sh = true →
  Forall (fun key => is_Some (sockets st !! key.1) ∧ truthy key.2 = true) keys →
  sessions (run st (typed sid keys)) !! sid
  = Some (Session.mk
            (Some (Shell.mk (Shell.listeners sh) (Shell.written sh ++ keys.*2)
                            (Shell.size sh) true))) ∧
  (∀ ws, framesTo ws (run st (typed sid keys)) = framesTo ws st) ∧
  (∀ key, last keys = Some key →
          sessionToWs (run st (typed sid keys)) !! sid = Some key.1).
Proof.
  induction keys as [|[ws data] keys IH]; intros st sh Ht Hn Hw Hk.
  - cbn. rewrite app_nil_r, Hn. destruct sh as [l w z b]. cbn in *. by subst b.
  - apply Forall_cons in Hk as [[[sock Hs] Hd] Hk]. cbn [fst snd] in Hs, Hd.
    unfold typed, run. cbn [map fold_left fst snd].
    rewrite (input_step _ _ _ _ _ _ _ _ Hs Hn Hw Ht Hd).
    set (st1 := setSessions _ _).
    assert (sessions st1 !! sid = Some (Session.mk (Some (Shell.write data sh))))
      as Hn1 by (subst st1; cbn; by rewrite lookup_insert_eq).
    assert (Forall (fun key => is_Some (sockets st1 !! key.1)
                               ∧ truthy key.2 = true) keys) as Hk1.
    { eapply Forall_impl; [exact Hk|]. intros key [Hi Hv]. split; [|done].
      subst st1. cbn. rewrite lookup_alter. case_decide; [|done].
      subst. by apply fmap_is_Some. }
    destruct (IH st1 (Shell.write data sh) Ht Hn1 Hw Hk1) as (IH1 & IH2 & IH3).
    change (fold_left step (map _ keys) st1) with (run st1 (typed sid keys)).
    split; [|split].
    + rewrite IH1. cbn. by rewrite <- app_assoc.
    + intros ws'. rewrite IH2. subst st1. unfold framesTo. cbn.
      rewrite lookup_alter. case_decide; [|done]. subst ws'.
      by rewrite Hs.
    + intros key Hlast. destruct keys as [|key' keys'].
      * injection Hlast as <-. subst st1. cbn. by rewrite lookup_insert_eq.
      * apply IH3. exact Hlast.
Qed.

Lemma Listed_steady st st' : Steady st st' → Listed st → Listed st'.
Proof.
  intros [Hc Hv] H ws sock' Hs' Ho'. rewrite Hc.
  specialize (Hv ws). rewrite Hs' in Hv.
  destruct (sockets st !! ws) as [sock|] eqn:Hs; [|done].
  apply (H ws sock Hs). injection Hv as Hr _. unfold Socket.isOpen in *.
  by rewrite <- Hr.
Qed.

Lemma sweep_open sock :
  Socket.isOpen (sweep sock) = true → Socket.isOpen sock = true.
Proof.
  unfold sweep, terminate, ping, Socket.isOpen.
  destruct sock as [[] sid [] w]; cbn; done.
Qed.

Lemma step_listed st e : Listed st → Listed (step st e).
Proof.
  intros H. destruct (traffic e) eqn:Ht;
    [by apply Listed_steady with st; [apply step_steady|]|].
  destruct e as [ws|ws frame|ws|ws| |task accepted|sid data|sid|sid b|sid|sid];
    try done.
  - cbn. destruct (sockets st !! ws) eqn:Hn; [done|].
    intros ws' sock' Hs' Ho'. cbn in *. rewrite lookup_insert in Hs'.
    case_decide; [subst; set_solver|]. apply elem_of_union_r. by eapply H.
  - intros ws' sock' Hs' Ho'. cbn in *. rewrite lookup_alter in Hs'.
    case_decide; [|by eapply H]. subst ws'.
    destruct (sockets st !! ws) as [sock|] eqn:Hs; [|done].
    injection Hs' as <-. by eapply H.
  - assert (Listed (setClients (clients st ∖ {[ws]})
              (setSockets (alter (Socket.setReadyState CLOSED) ws (sockets st))
                 st))) as H1.
    { intros ws' sock' Hs' Ho'. cbn in *. rewrite lookup_alter in Hs'.
      case_decide as Hw.
      - subst ws'. destruct (sockets st !! ws) as [sock|]; [|done].
        by injection Hs' as <-.
      - apply elem_of_difference. split; [by eapply H|].
        rewrite elem_of_singleton. congruence. }
    cbn. unfold onClose. destruct (sockets st !! ws) as [sock|]; [|done].
    destruct (Socket.sessionId sock) as [sid|]; [|done].
    by destruct (Js.truthy sid && _).
  - intros ws' sock' Hs' Ho'. cbn in *. rewrite map_lookup_imap in Hs'.
    destruct (sockets st !! ws') as [sock|] eqn:Hs; [|done]. cbn in Hs'.
    injection Hs' as <-. case_decide as Hc; [done|]. by eapply H.
Qed.

Lemma run_listed events st : Listed st → Listed (run st events).
Proof.
  revert st. induction events as [|e events IH]; intros st H; [done|].
  apply IH. by apply step_listed.
Qed.

(** X25. However the relay was driven, [broadcast] reaches every open
    socket, once, and no other: the clients of the server that it walks
    include every socket that is open, and it skips the ones that are
    not. *)
Theorem broadcast_reaches_open_sockets events message ws :
  framesTo ws (RelayServer.broadcast message (run initial events))
  = if isOpenAt ws (run initial events)
    then framesTo ws (run initial events) ++ [message]
    else framesTo ws (run initial events).
Proof.
  assert (Listed (run initial events)) as H by (by apply run_listed).
  revert H. generalize (run initial events). intros st H.
  unfold RelayServer.broadcast, framesTo, isOpenAt. cbn.
  rewrite map_lookup_imap.
  destruct (sockets st !! ws) as [sock|] eqn:Hs; [|done]. cbn.
  destruct (Socket.isOpen sock) eqn:Ho.
  - rewrite decide_True by (by eapply H). by rewrite frames_push.
  - by case_decide.
Qed.

End RelayShells.

Section RouteFacts.
Import Vault Props Routes RouteProps.

(** X26. A credential that cannot be decrypted looks missing to [GET /:id]
    while [GET /:id/exists] reports it: the first answers with the same
    404 [CREDENTIAL_NOT_FOUND] that it gives for an id the store never
    saw, the second answers [exists: true]. *)
Theorem undecryptable_credential_looks_missing env s id c :
  JsMap.get id (credentials s) = Some c →
  Undecryptable env c →
  (getExists id s).1 = {| status := 200; body := Exists true |} ∧
  (getCredential env id s).1 = credentialNotFound ∧
  ∀ id', JsMap.get id' (credentials s) = None →
         (getCredential env id' s).1 = (getCredential env id s).1.
Proof.
  intros Hc Hu.
  assert ((getCredential env id s).1 = credentialNotFound) as Hg.
  { unfold getCredential. run. rewrite get_run, Hc. cbn zeta.
    by rewrite (undecryptable_decryptAll _ _ Hu). }
  split; [|split; [done|]].
  - unfold getExists, has. run. unfold JsMap.has. by rewrite Hc.
  - intros id' Hn. rewrite Hg. unfold getCredential. run.
    by rewrite get_run, Hn.
Qed.

(** X27. [POST /] checks before it stores and what it stores can be
    fetched, unless the request spells its id [connections]: a body
    that lacks the id, the host, the user name or the authentication
    type, or whose port is missing, zero, [null] or not a number, is
    answered with 400 [INVALID_REQUEST] and leaves the store as it
    was.  A body that has them is answered with 201 and its id when
    the cipher works, and with the error of the cipher, nothing being
    stored, when the key does not fit and there is a secret to
    encrypt.  After the 201, a [GET] whose one segment decodes to the
    id is answered by [GET /:id] with the connection data, the port as
    JSON renders it, and with each secret of the body that is not
    empty, after its trip through UTF-8; but when the segment is
    spelled [connections], in any case of its letters, the request is
    taken by [GET /connections], which answers with the list of
    connections. *)
Theorem post_credential_checks_then_stores env s rq :
  let id := default EmptyString (Payload.id rq) in
  let config := configOf rq in
  let s1 := (handle env POST [] rq s).2 in
  (complete rq = false → handle env POST [] rq s = (invalidRequest, s)) ∧
  (complete rq = true → throws env config = true →
   (handle env POST [] rq s).1 = serverError ∧
   credentials s1 = credentials s ∧
   credentialsFile s1 = credentialsFile s) ∧
  (complete rq = true → Sound env →
   (handle env POST [] rq s).1
   = {| status := 201; body := CreatedCredential id |} ∧
   ∀ segment rq',
     decoded segment = id →
     (handle env GET [segment] rq' s1).1
     = if reserved segment then (Routes.getConnections s1).1
       else {| status := 200;
               body := CredentialBody
                 (Credential.mk (Config.host config)
                    (Js.jsonNum (Config.port config))
                    (Config.username config) (Config.authType config)
                    (returned (Config.password config))
                    (returned (Config.privateKey config))
                    (returned (Config.passphrase config))) |}).
Proof.
  intros id config s1.
  assert (complete rq = true →
          handle env POST [] rq s
          = (match (save env id config s).1 with
             | Returned _ => {| status := 201; body := CreatedCredential id |}
             | Thrown => serverError
             end, (save env id config s).2)) as Hpost.
  { intros Hc. unfold handle. cbn. unfold postCredential.
    unfold complete in Hc. rewrite <- !negb_andb, Hc. cbn [negb]. run.
    fold id. fold (configOf rq). fold config.
    by destruct (save env id config s) as [[[]|] s']. }
  split; [|split].
  - intros Hc. unfold handle. cbn. unfold postCredential.
    unfold complete in Hc. by rewrite <- !negb_andb, Hc.
  - intros Hc Ht. unfold s1. rewrite (Hpost Hc), save_run, Ht. cbn.
    by destruct s.
  - intros Hc Hs. pose proof (throws_sound env config Hs) as Ht.
    unfold s1. rewrite (Hpost Hc). cbn [fst snd].
    split; [by rewrite save_run, Ht|].
    intros segment rq' Hid. unfold handle, reserved. cbn.
    destruct (String.eqb (Text.lower (raw segment)) "connections"); [done|].
    unfold getCredential, param. cbn [head default]. rewrite Hid. run.
    pose proof (get_after_save env id config s Hs) as Hg.
    destruct (get env id _) as [r s']. cbn [fst] in Hg. by rewrite Hg.
Qed.

(** X28. [PUT /connections/:id] stamps the connection with the clock of
    the server: for a known id the answer is 200 and the connection's
    [lastUsedAt] is the reading taken for this request, whatever the
    body says about it; for an unknown id the answer is 404
    [CONNECTION_NOT_FOUND] and nothing but the clock has moved. *)
Theorem put_connection_stamps env id updates s :
  match JsMap.get id (connections s) with
  | Some _ =>
      (putConnection env id updates s).1 = {| status := 200; body := Success |} ∧
      SavedConnectionInfo.lastUsedAt
        <$> JsMap.get id (connections (putConnection env id updates s).2)
      = Some (Some (dateNow env (dateCalls s)))
  | None => putConnection env id updates s = (connectionNotFound, tick s)
  end.
Proof.
  unfold putConnection, newDate. run. rewrite updateConnection_run.
  cbn [connections setDateCalls].
  destruct (JsMap.get id (connections s)) as [c|]; [|done].
  cbn [fst snd]. split; [done|].
  rewrite persistConnections_run.
  match goal with
  | |- context [if ?b then _ else _] => destruct b
  end; cbn; by rewrite get_set_eq.
Qed.

End RouteFacts.

Section MoreInstances.
Import Vault Props MoreProps Relay RelayProps Wiring.

Lemma get_reads_legacy_witness :
  StoredCredential.encryptedPassword Samples.legacy
  = Some "746572636573:74657263657300000000000000000000" ∧
  (get Toy.env "old" Samples.archive).1
  = Some (Credential.mk "example.org" 22 "root" Password (Some "secret")
            None None).
Proof.
  split; [reflexivity|].
  refine (proj2 (get_reads_legacy Toy.env Samples.archive "old" Samples.legacy
                   (Toy.entropy 0) (Some "secret") None None toy_sound
                   eq_refl eq_refl eq_refl eq_refl eq_refl eq_refl) _).
  intros text Hin. rewrite !elem_of_cons, elem_of_nil in Hin.
  by destruct Hin as [[= ->]|[|[|]]].
Defined.

Lemma deleteConnection_unknown_witness :
  JsMap.has "c9" (connections Toy.linked) = false ∧
  deleteConnection "c9" Toy.linked = (false, Toy.linked).
Proof.
  split; [reflexivity|].
  exact (deleteConnection_unknown "c9" Toy.linked eq_refl).
Defined.

Lemma changes_are_persisted_witness :
  fsWritable Toy.linked = true ∧
  let s' := call Toy.env (Delete "c2") Toy.linked in
  (credentials s' = credentials Toy.linked ∧
   credentialsFile s' = credentialsFile Toy.linked
   ∨ credentialsFile s' = Contents (JsMap.entries (credentials s'))) ∧
  (connections s' = connections Toy.linked ∧
   connectionsFile s' = connectionsFile Toy.linked
   ∨ connectionsFile s' = Contents (JsMap.entries (connections s'))).
Proof.
  split; [reflexivity|].
  exact (changes_are_persisted Toy.env (Delete "c2") Toy.linked eq_refl).
Defined.

Lemma secret_wellFormed password :
  Js.isWellFormed password = true →
  wellFormed (Toy.config (Some password) None None).
Proof.
  intros Hw text. unfold secrets, kept. cbn.
  destruct (Js.truthy password); cbn; [|by intros ?%elem_of_nil].
  rewrite elem_of_cons, elem_of_nil. by intros [->|].
Qed.

Lemma secrets_survive_restart_witness :
  Sound Toy.env ∧
  fsWritable Toy.linked = true ∧
  NoDup (JsMap.keys (credentials Toy.linked)) ∧
  let config := Toy.config (Some "secret") None None in
  let s := (save Toy.env "c1" config Toy.linked).2 in
  let s' := (construct (fresh (credentialsFile s) (connectionsFile s) true)).2 in
  JsMap.keys (credentials s) = ["c2"; "c1"] ∧
  credentials s' = credentials s ∧
  (get Toy.env "c1" s').1
  = Some (Credential.mk "example.org" 22 "root" Password (Some "secret")
            None None).
Proof.
  assert (NoDup (JsMap.keys (credentials Toy.linked))) as Hu.
  { apply (NoDup_singleton "c2"). }
  split; [exact toy_sound|]. split; [reflexivity|]. split; [exact Hu|].
  split; [reflexivity|].
  destruct (secrets_survive_restart Toy.env Toy.linked "c1"
              (Toy.config (Some "secret") None None) true toy_sound eq_refl
              Hu) as (_ & _ & H).
  assert (Stable (credentials Toy.linked)) as Hst.
  { intros k v Hin. apply list_elem_of_singleton in Hin. by injection Hin as -> ->. }
  destruct (H Hst eq_refl) as [H1 H2].
  exact (conj H1 (H2 (secret_wellFormed "secret" eq_refl))).
Defined.

Lemma save_replaces_witness :
  Sound Toy.env ∧
  JsMap.has "c2" (credentials Toy.linked) = true ∧
  let config := Toy.config (Some "key") None None in
  let s' := (save Toy.env "c2" config Toy.linked).2 in
  (get Toy.env "c2" s').1
  = Some (Credential.mk "example.org" 22 "root" Password (Some "key") None
            None) ∧
  (StoredCredential.createdAt <$> JsMap.get "c2" (credentials s'))
  = Some (dateNow Toy.env (dateCalls Toy.linked)) ∧
  JsMap.keys (credentials s') = keysAfterSet "c2" (credentials Toy.linked).
Proof.
  split; [exact toy_sound|]. split; [reflexivity|].
  destruct (save_replaces Toy.env Toy.linked "c2"
              (Toy.config (Some "key") None None) toy_sound)
    as (_ & H2 & _ & H4 & H5).
  exact (conj (H2 (secret_wellFormed "key" eq_refl)) (conj H4 H5)).
Defined.

Lemma environment_key_wins_witness :
  let r := Startup.provision Samples.keyed Samples.edited in
  r.1 = replicate 32 x2a ∧
  Startup.keyFile r.2 = Startup.keyFile Samples.edited ∧
  Startup.draws r.2 = Startup.draws Samples.edited.
Proof.
  refine (environment_key_wins Samples.keyed Samples.edited
            (replicate 32 x2a) _ eq_refl).
  discriminate.
Defined.

Lemma generated_key_is_read_back_witness :
  let r := Startup.provision Samples.settings Samples.firstStart in
  r.1 = Samples.entropy32 0 ∧
  Startup.keyFile r.2 = Startup.Present (Hex.toString (Samples.entropy32 0)) 384 ∧
  ∀ h', Startup.keyFile h' = Startup.keyFile r.2 →
        (Startup.provision Samples.settings h').1 = r.1 ∧
        Startup.keyFile (Startup.provision Samples.settings h').2
        = Startup.keyFile h' ∧
        Startup.draws (Startup.provision Samples.settings h').2
        = Startup.draws h'.
Proof.
  refine (generated_key_is_read_back Samples.settings Samples.firstStart
            eq_refl eq_refl eq_refl _).
  discriminate.
Defined.

Lemma key_file_padding_is_ignored_witness :
  (Startup.provision Samples.settings Samples.edited).1 = replicate 32 x2a.
Proof.
  refine (key_file_padding_is_ignored Samples.settings Samples.edited
            EmptyString (replicate 32 x2a) (String "010" EmptyString) 420
            eq_refl _ eq_refl eq_refl eq_refl).
  discriminate.
Defined.

Lemma key_without_disk_witness :
  let r := Startup.provision Samples.settings Samples.readOnly in
  r.1 = Samples.entropy32 1 ∧
  Startup.keyFile r.2 = Startup.Absent ∧
  (Startup.provision Samples.settings r.2).1 = Samples.entropy32 3.
Proof.
  destruct (key_without_disk Samples.settings Samples.readOnly eq_refl)
    as [H _].
  destruct (H eq_refl eq_refl) as (H1 & H2 & _ & _ & H5).
  exact (conj H1 (conj H2 H5)).
Defined.

Lemma closed_socket_hears_nothing_witness :
  sockets Samples.hungUp !! 1%nat
  = Some (Socket.setReadyState CLOSED Samples.caller) ∧
  ∃ sock',
    sockets (run Samples.hungUp
               [ShellData "s1" "out"; Message 1 (ToyRelay.bare "exec");
                Interval; Interval]) !! 1%nat = Some sock' ∧
    Socket.isOpen sock' = false ∧
    frames sock' = frames (Socket.setReadyState CLOSED Samples.caller).
Proof.
  split; [reflexivity|].
  exact (closed_socket_hears_nothing Samples.hungUp
           [ShellData "s1" "out"; Message 1 (ToyRelay.bare "exec");
            Interval; Interval]
           1 (Socket.setReadyState CLOSED Samples.caller) eq_refl eq_refl).
Defined.

Lemma close_unbinds_last_session_only_witness :
  sessionToWs Samples.busy !! "s1" = Some 1%nat ∧
  sessionToWs (step Samples.busy (Close 1)) !! "s1" = None ∧
  sessionToWs (step Samples.busy (Close 2)) !! "s1" = Some 1%nat.
Proof.
  split; [reflexivity|].
  destruct (close_unbinds_last_session_only Samples.busy 1 Samples.caller
              eq_refl) as (_ & _ & H1 & _).
  destruct (close_unbinds_last_session_only Samples.busy 2 ToyRelay.newcomer
              eq_refl) as (_ & H2 & _).
  refine (conj (H1 "s1" eq_refl eq_refl eq_refl) (H2 "s1" 1%nat _ eq_refl)).
  discriminate.
Defined.

Lemma unknown_session_is_refused_witness :
  sessions ToyRelay.lobby !! "s9" = None ∧
  step ToyRelay.lobby (Message 1 (inputFrame "s9" (Str "ls") Undefined Undefined))
  = setSockets
      (<[1%nat := Socket.push (Sent (Error (Str "s9") "Session not found"))
                    ToyRelay.newcomer]> (sockets ToyRelay.lobby))
      ToyRelay.lobby ∧
  sessionToWs
    (step ToyRelay.lobby (Message 1 (ToyRelay.resize "s9" 80 24))) !! "s9"
  = None.
Proof.
  split; [reflexivity|].
  destruct (unknown_session_is_refused ToyRelay.lobby 1 ToyRelay.newcomer "s9"
              eq_refl eq_refl eq_refl) as (H1 & H2 & _).
  exact (conj (H2 (Str "ls") Undefined Undefined eq_refl eq_refl)
              (proj1 (H1 (ToyRelay.resize "s9" 80 24)))).
Defined.

Lemma createShell_failure_witness :
  pending Samples.waiting
  = [InputPending 1 "s1" (Str "ls");
     ResizePending 2 "s1" (Number 80) (Number 24)] ∧
  framesTo 1 (step Samples.waiting (CreateShellSettled 0 false))
  = [Error (Str "s1") "Failed to create shell"] ∧
  framesTo 2 (step Samples.waiting (CreateShellSettled 1 false)) = [].
Proof.
  split; [reflexivity|].
  destruct (createShell_failure Samples.waiting 0 1 Samples.caller "s1"
              eq_refl eq_refl eq_refl) as [H1 _].
  destruct (createShell_failure Samples.waiting 1 2 Samples.caller "s1"
              eq_refl eq_refl eq_refl) as [_ H2].
  rewrite (H1 (Str "ls") eq_refl), (H2 (Number 80) (Number 24) eq_refl).
  split; reflexivity.
Defined.

Lemma first_input_opens_the_shell_witness :
  sessions Samples.ended !! "s1" = Some (Session.mk None) ∧
  let st' :=
    run Samples.ended
      [Message 2 (inputFrame "s1" (Str "pwd") Undefined Undefined);
       CreateShellSettled 0 true] in
  sessions st' !! "s1"
  = Some (Session.mk (Some (Shell.mk 1 [Str "pwd"] None true))) ∧
  sessionToWs st' !! "s1" = Some 2%nat.
Proof.
  split; [reflexivity|].
  assert ("s1" ∉ shellOutputSetup Samples.ended) as Hm.
  { apply (bool_decide_unpack ("s1" ∉ shellOutputSetup Samples.ended)).
    vm_compute. exact I. }
  destruct (first_input_opens_the_shell Samples.ended 2 ToyRelay.newcomer "s1"
              (Str "pwd") Undefined Undefined eq_refl eq_refl Hm eq_refl
              eq_refl) as (H1 & _ & H3 & _).
  exact (conj H1 H3).
Defined.

Lemma shell_close_unwires_witness :
  sessions Samples.busy !! "s1" = Some (Session.mk (Some Samples.shell)) ∧
  sessions Samples.ended !! "s1" = Some (Session.mk None) ∧
  sessionToWs Samples.ended !! "s1" = None ∧
  framesTo 1 Samples.ended = framesTo 1 Samples.busy ++ [Disconnect "s1"].
Proof.
  split; [reflexivity|].
  destruct (shell_close_unwires Samples.busy "s1" Samples.shell eq_refl eq_refl)
    as (H1 & _ & H3 & H4).
  exact (conj H1 (conj H3 (H4 1%nat))).
Defined.

Lemma keystrokes_arrive_in_order_witness :
  let keys := [(1%nat, Str "a"); (2%nat, Str "b"); (1%nat, Str "c")] in
  sessions (run Samples.busy (typed "s1" keys)) !! "s1"
  = Some (Session.mk
            (Some (Shell.mk 1 [Str "ls"; Str "a"; Str "b"; Str "c"] None true))) ∧
  sessionToWs (run Samples.busy (typed "s1" keys)) !! "s1" = Some 1%nat.
Proof.
  cbv zeta.
  assert (Forall (fun key : nat * JsValue =>
                    is_Some (sockets Samples.busy !! key.1)
                    ∧ truthy key.2 = true)
            [(1%nat, Str "a"); (2%nat, Str "b"); (1%nat, Str "c")]) as Hk.
  { repeat constructor; eexists; reflexivity. }
  destruct (keystrokes_arrive_in_order "s1"
              [(1%nat, Str "a"); (2%nat, Str "b"); (1%nat, Str "c")]
              Samples.busy Samples.shell eq_refl eq_refl eq_refl Hk)
    as (H1 & _ & H3).
  exact (conj H1 (H3 (1%nat, Str "c") eq_refl)).
Defined.

Lemma undecryptable_credential_looks_missing_witness :
  (Routes.getExists "c1" Toy.tampered).1
  = {| Routes.status := 200; Routes.body := Routes.Exists true |} ∧
  (Routes.getCredential Toy.env "c1" Toy.tampered).1 = Routes.credentialNotFound.
Proof.
  destruct (undecryptable_credential_looks_missing Toy.env Toy.tampered "c1"
              Toy.forged eq_refl forged_undecryptable) as (H1 & H2 & _).
  exact (conj H1 H2).
Defined.

Lemma post_credential_checks_then_stores_witness :
  RouteProps.complete Samples.request = true ∧
  Sound Toy.env ∧
  let s1 := (Routes.handle Toy.env Routes.POST [] Samples.request Toy.empty).2 in
  (Routes.handle Toy.env Routes.POST [] Samples.request Toy.empty).1
  = {| Routes.status := 201; Routes.body := Routes.CreatedCredential "c1" |} ∧
  (Routes.handle Toy.env Routes.GET [Routes.plain "c1"]
     Routes.Payload.empty s1).1
  = {| Routes.status := 200;
       Routes.body :=
         Routes.CredentialBody
           (Credential.mk "example.org" 22 "root" Password (Some "secret")
              None None) |}.
Proof.
  split; [reflexivity|]. split; [exact toy_sound|].
  destruct (post_credential_checks_then_stores Toy.env Toy.empty
              Samples.request) as (_ & _ & H).
  destruct (H eq_refl toy_sound) as [H1 H2].
  exact (conj H1 (H2 (Routes.plain "c1") Routes.Payload.empty eq_refl)).
Defined.

(** A credential saved under the id [Connections] is stored;
    [GET /Connections] answers with the list of connections, and the
    credential is served when the request spells the id with an
    escape. *)
Example reserved_id_is_not_served :
  let s1 := (Routes.handle Toy.env Routes.POST [] Samples.shadowed Toy.empty).2 in
  (Routes.handle Toy.env Routes.POST [] Samples.shadowed Toy.empty).1
  = {| Routes.status := 201;
       Routes.body := Routes.CreatedCredential "Connections" |} ∧
  JsMap.has "Connections" (credentials s1) = true ∧
  (Routes.handle Toy.env Routes.GET [Routes.plain "Connections"]
     Routes.Payload.empty s1).1
  = {| Routes.status := 200; Routes.body := Routes.ConnectionsBody [] |} ∧
  (Routes.handle Toy.env Routes.GET
     [{| Routes.raw := "%43onnections"; Routes.decoded := "Connections" |}]
     Routes.Payload.empty s1).1
  = {| Routes.status := 200;
       Routes.body :=
         Routes.CredentialBody
           (Credential.mk "example.org" 22 "root" Password (Some "secret")
              None None) |}.
Proof. by vm_compute. Qed.

(** A port of [1e999] passes the check of [POST /] and is answered
    back as [null]. *)
Example huge_port_reads_back_null :
  let s1 := (Routes.handle Toy.env Routes.POST [] Samples.huge Toy.empty).2 in
  (Routes.handle Toy.env Routes.POST [] Samples.huge Toy.empty).1
  = {| Routes.status := 201; Routes.body := Routes.CreatedCredential "c1" |} ∧
  (Routes.handle Toy.env Routes.GET [Routes.plain "c1"]
     Routes.Payload.empty s1).1
  = {| Routes.status := 200;
       Routes.body :=
         Routes.CredentialBody
           (Credential.mk "example.org" Js.Null "root" Password
              (Some "secret") None None) |}.
Proof. by vm_compute. Qed.

(** A password with an accent, which is a well-formed string, comes
    back as it was given. *)
Example accented_password_is_kept :
  Js.isWellFormed Toy.accented = true ∧
  (get Toy.env "c1"
     (save Toy.env "c1" (Toy.config (Some Toy.accented) None None)
        Toy.empty).2).1
  = Some (Credential.mk "example.org" 22 "root" Password (Some Toy.accented)
            None None).
Proof. by vm_compute. Qed.

End MoreInstances.
